(** * mygram: the photo manifest pipeline and its browser-side readers

    A shallow embedding of
    - [scripts/process-photos.sh] (module [ProcessPhotos]),
    - [scripts/import-instagram.sh] (module [ImportInstagram]),
    - the lightbox of [js/lightbox.js] (module [Lightbox]),
    - the combined feed of [js/lightbox.js], PalgramModule (module [Palgram]),
    - the album editor of [js/admin.js] (module [Admin]).

    Conventions.  File names, slugs and dates are byte strings ([string]);
    a file name holds no '/' and no line feed, so that the line-oriented
    tools of the scripts ([sed], [grep -x], [jq -r]) see one name per line and
    a [sed] stage is a function on the whole name.  Character ranges such as
    [a-z] are the ASCII ranges (the C locale); on the ASCII letters [tr
    '[:upper:]' '[:lower:]'] and JavaScript's [toLowerCase] are the same map.
    The external programs (exiftool, ImageMagick, ffmpeg, curl, stat, date)
    are parameters of a run, gathered in a record of oracles. *)

From Stdlib Require Import String Ascii List ZArith Lia Bool Arith Permutation.
From Stdlib Require Import Decimal DecimalString DecimalNat.
Import ListNotations.
Open Scope string_scope.

Set Implicit Arguments.

(** ** Characters and strings as the shell tools and the regexps see them *)

Module Text.

Definition between (lo hi c : ascii) : bool :=
  Nat.leb (nat_of_ascii lo) (nat_of_ascii c)
  && Nat.leb (nat_of_ascii c) (nat_of_ascii hi).

Definition is_lower (c : ascii) : bool := between "a" "z" c.
Definition is_upper (c : ascii) : bool := between "A" "Z" c.
Definition is_digit (c : ascii) : bool := between "0" "9" c.
Definition is_hyphen (c : ascii) : bool := Ascii.eqb c "-".
Definition is_dot (c : ascii) : bool := Ascii.eqb c ".".

(** [[:space:]]: space, and the controls 9 .. 13. *)
Definition is_space (c : ascii) : bool :=
  Ascii.eqb c " " || (Nat.leb 9 (nat_of_ascii c) && Nat.leb (nat_of_ascii c) 13).

(** [tr '[:upper:]' '[:lower:]'] and [toLowerCase], on one character. *)
Definition lower_char (c : ascii) : ascii :=
  if is_upper c then ascii_of_nat (nat_of_ascii c + 32) else c.

Fixpoint smap (f : ascii -> ascii) (s : string) : string :=
  match s with
  | EmptyString => EmptyString
  | String c r => String (f c) (smap f r)
  end.

Fixpoint sforall (p : ascii -> bool) (s : string) : bool :=
  match s with
  | EmptyString => true
  | String c r => p c && sforall p r
  end.

Definition lower (s : string) : string := smap lower_char s.

(** [s/[^CLASS]/-/g]: every character outside the class becomes a hyphen. *)
Definition hyphenate (keep : ascii -> bool) (s : string) : string :=
  smap (fun c => if keep c then c else "-"%char) s.

(** The class [a-z0-9-] of the slug, and [a-zA-Z0-9._-] of a sanitized name. *)
Definition slug_char (c : ascii) : bool :=
  is_lower c || is_digit c || is_hyphen c.

Definition name_char (c : ascii) : bool :=
  is_lower c || is_upper c || is_digit c || is_dot c
  || Ascii.eqb c "_" || is_hyphen c.

(** [s/--*/-/g] of sed and [replace(/-+/g, "-")]: a hyphen followed by a
    hyphen is dropped, so that each run keeps its last hyphen only. *)
Fixpoint squeeze (s : string) : string :=
  match s with
  | EmptyString => EmptyString
  | String c r =>
      match r with
      | String d _ => if is_hyphen c && is_hyphen d then squeeze r
                      else String c (squeeze r)
      | EmptyString => String c EmptyString
      end
  end.

(** [s/^-//]. *)
Definition trim_lead (s : string) : string :=
  match s with
  | String c r => if is_hyphen c then r else s
  | EmptyString => EmptyString
  end.

(** [s/-$//]. *)
Fixpoint trim_trail (s : string) : string :=
  match s with
  | EmptyString => EmptyString
  | String c r =>
      match r with
      | EmptyString => if is_hyphen c then EmptyString else s
      | String _ _ => String c (trim_trail r)
      end
  end.

(** [replace(/^-|-$/g, "")]: scanning from the left, a hyphen is removed when
    it stands at the start of the string or at its end. *)
Fixpoint strip_edges (at_start : bool) (s : string) : string :=
  match s with
  | EmptyString => EmptyString
  | String c r =>
      let at_end := match r with EmptyString => true | _ => false end in
      if is_hyphen c && (at_start || at_end) then strip_edges false r
      else String c (strip_edges false r)
  end.

Fixpoint has_dot (s : string) : bool :=
  match s with
  | EmptyString => false
  | String c r => is_dot c || has_dot r
  end.

(** [${name%.*}]: the shortest suffix that starts with a dot is removed. *)
Fixpoint chop_ext (s : string) : string :=
  match s with
  | EmptyString => EmptyString
  | String c r =>
      if has_dot r then String c (chop_ext r)
      else if is_dot c then EmptyString else s
  end.

(** [${name##*.}]: the longest prefix that ends with a dot is removed. *)
Fixpoint ext_of (s : string) : string :=
  match s with
  | EmptyString => EmptyString
  | String c r =>
      if has_dot r then ext_of r
      else if is_dot c then r else s
  end.

(** [replace(/\.[^.]+$/, "")]: the last dot and what follows it are removed,
    when at least one character follows it. *)
Fixpoint replace_ext (s : string) : string :=
  match s with
  | EmptyString => EmptyString
  | String c r =>
      if has_dot r then String c (replace_ext r)
      else if is_dot c
           then match r with EmptyString => s | _ => EmptyString end
           else s
  end.

(** bash's builtin [echo] takes a sole argument [-] followed by letters of
    [neE] as options and prints nothing of it; the command substitution then
    yields the empty string. *)
Definition echo_flag_char (c : ascii) : bool :=
  Ascii.eqb c "n" || Ascii.eqb c "e" || Ascii.eqb c "E".

Definition is_echo_flag (s : string) : bool :=
  match s with
  | String c (String d r) => is_hyphen c && sforall echo_flag_char (String d r)
  | _ => false
  end.

Definition echo (s : string) : string :=
  if is_echo_flag s then EmptyString else s.

Definition starts_with_dot (s : string) : bool :=
  match s with String c _ => is_dot c | EmptyString => false end.

Definition starts_with_hyphen (s : string) : bool :=
  match s with String c _ => is_hyphen c | EmptyString => false end.

Fixpoint ends_with_hyphen (s : string) : bool :=
  match s with
  | EmptyString => false
  | String c EmptyString => is_hyphen c
  | String _ r => ends_with_hyphen r
  end.

(** Decimal numerals, as [$((counter))] and JavaScript's number-to-string
    conversion print a natural number. *)
Definition decimal (n : nat) : string :=
  NilEmpty.string_of_uint (Nat.to_uint n).

(** [text.startsWith(pat)]. *)
Definition starts_with (pat text : string) : bool := prefix pat text.

Fixpoint has_slash (s : string) : bool :=
  match s with
  | EmptyString => false
  | String c r => Ascii.eqb c "/" || has_slash r
  end.

Fixpoint after_last_slash (s : string) : string :=
  match s with
  | EmptyString => EmptyString
  | String c r =>
      if has_slash r then after_last_slash r
      else if Ascii.eqb c "/" then r else s
  end.

Fixpoint drop_trailing_slashes (s : string) : string :=
  match s with
  | EmptyString => EmptyString
  | String c r =>
      let r' := drop_trailing_slashes r in
      if Ascii.eqb c "/" && String.eqb r' "" then EmptyString else String c r'
  end.

(** [basename "$path"]: the last component of the path, trailing slashes
    apart. *)
Definition path_basename (path : string) : string :=
  if String.eqb path "" then ""
  else
    let t := drop_trailing_slashes path in
    if String.eqb t "" then "/" else after_last_slash t.

(** [basename "$x"] on a bare argument: one that begins with a hyphen, other
    than [-] itself, is read as options, and nothing is printed. *)
Definition basename (x : string) : string :=
  if starts_with_hyphen x && negb (String.eqb x "-") then ""
  else path_basename x.

(** The double quote character, as a string. *)
Definition dq : string := String (ascii_of_nat 34) EmptyString.

Definition mem (x : string) (l : list string) : bool :=
  existsb (String.eqb x) l.

(** [grep -qxF "$pat"] over the lines [ls]: some line is exactly [pat].  The
    pattern is passed without [--] or [-e]: one that begins with a hyphen is
    read as options, grep fails and the test is false. *)
Definition grep_qxF (pat : string) (ls : list string) : bool :=
  if starts_with_hyphen pat then false else mem pat ls.

(** [grep -qE "^(a|b|...)$"]: the text is one of the alternatives. *)
Definition grep_alternatives (alts : list string) (x : string) : bool :=
  mem x alts.

(** The slug of the two scripts:
    [echo "$x" | tr '[:upper:]' '[:lower:]' | sed 's/[^a-z0-9-]/-/g'
     | sed 's/--*/-/g' | sed 's/^-//;s/-$//'], for a text [x] without line
    feed, which [sed] takes as one line; [slug_pipeline_lines] below is the
    pipeline on any text. *)
Definition slug_pipeline (x : string) : string :=
  trim_trail (trim_lead (squeeze (hyphenate slug_char (lower (echo x))))).

(** No two hyphens in a row. *)
Fixpoint no_double (s : string) : bool :=
  match s with
  | EmptyString => true
  | String c t => negb (is_hyphen c && starts_with_hyphen t) && no_double t
  end.

(** A slug is in normal form: made of [a-z0-9-], no two hyphens in a row,
    no hyphen at either end. *)
Definition normal_slug (s : string) : Prop :=
  sforall slug_char s = true /\ no_double s = true
  /\ starts_with_hyphen s = false /\ ends_with_hyphen s = false.

(** No name occurs twice. *)
Fixpoint nodupb (l : list string) : bool :=
  match l with
  | [] => true
  | x :: r => negb (mem x r) && nodupb r
  end.

(** The loop [while taken(cand(c)) do c := c + 1], with a bound on the
    number of tests. *)
Fixpoint first_free (taken : string -> bool) (cand : nat -> string)
    (fuel c : nat) : nat :=
  match fuel with
  | 0 => c
  | S fuel' => if taken (cand c) then first_free taken cand fuel' (S c) else c
  end.

(** A character of ASCII.  On a text of such characters [toLowerCase] and
    [trim] of JavaScript are [lower] and the trimming of white space of this
    file, and a character is what a regular expression takes for one. *)
Definition is_ascii (c : ascii) : bool := Nat.ltb (nat_of_ascii c) 128.

(** *** The pipelines, line by line *)

(** The line feed. *)
Definition LF : ascii := ascii_of_nat 10.

Definition is_line_feed (c : ascii) : bool := Ascii.eqb c LF.

Fixpoint has_line_feed (s : string) : bool :=
  match s with
  | EmptyString => false
  | String c r => is_line_feed c || has_line_feed r
  end.

(** [sed] edits its input line by line and never sees a line feed: the
    text is cut at its line feeds, and the script [f] is applied to each
    piece, [line] being the piece read so far.  (The text behind the last
    line feed is a piece as well; the scripts used here leave an empty piece
    empty, as [sed] prints nothing for it.) *)
Fixpoint per_line_from (f : string -> string) (line s : string) : string :=
  match s with
  | EmptyString => f line
  | String c r =>
      if is_line_feed c
      then f line ++ String LF (per_line_from f EmptyString r)
      else per_line_from f (line ++ String c EmptyString) r
  end.

Definition per_line (f : string -> string) (s : string) : string :=
  per_line_from f EmptyString s.

(** [$(...)]: the output of the command without the line feeds at its
    end. *)
Fixpoint strip_line_feeds (s : string) : string :=
  match s with
  | EmptyString => EmptyString
  | String c r =>
      let r' := strip_line_feeds r in
      if is_line_feed c && String.eqb r' "" then EmptyString else String c r'
  end.

(** What [echo "$x"] prints: the text and a line feed; nothing that outlasts
    the command substitution when the text is taken as options. *)
Definition echo_out (x : string) : string :=
  if is_echo_flag x then EmptyString else x ++ String LF EmptyString.

(** The slug pipeline as the shell runs it, on any text: [tr] maps the
    characters one by one, each [sed] edits line by line, and the command
    substitution drops the line feeds at the end. *)
Definition slug_pipeline_lines (x : string) : string :=
  strip_line_feeds
    (per_line (fun l => trim_trail (trim_lead l))
       (per_line squeeze
          (per_line (hyphenate slug_char) (lower (echo_out x))))).

End Text.

(** ** The manifest [data/photos.json] *)

Module Manifest.

(** An element of a post's [media] array. *)
Record media_item := {
  media_type : string;
  media_web : string;
  media_poster : option string;
  media_thumbnail : string;
  media_duration : option string
}.

(** An element of the [photos] array, with the keys the two scripts write.
    [width] and [height] are a numeral or [null]; [media] is absent from the
    entries of [process-photos.sh]. *)
Record photo := {
  filename : string;
  web : string;
  thumbnail : string;
  slug : string;
  date : string;
  caption : string;
  camera : string;
  lens : string;
  settings : string;
  location : string;
  gps_lat : string;
  gps_lon : string;
  width : option string;
  height : option string;
  media : option (list media_item)
}.

(** An element of the [albums] array ([js/admin.js]). *)
Record album := {
  id : string;
  title : string;
  description : string;
  cover : string;
  album_photos : list string
}.

(** The file: the [profile] object (its string-valued keys), the [photos]
    array and the [albums] array. *)
Record manifest := {
  profile : list (string * string);
  photos : list photo;
  albums : list album
}.

Definition with_photos (m : manifest) (ps : list photo) : manifest :=
  {| profile := profile m; photos := ps; albums := albums m |}.

Definition with_albums (m : manifest) (al : list album) : manifest :=
  {| profile := profile m; photos := photos m; albums := al |}.

(** [jq -r '.profile.KEY // empty']. *)
Fixpoint profile_key (k : string) (p : list (string * string)) : string :=
  match p with
  | [] => ""
  | (k', v) :: r => if String.eqb k k' then v else profile_key k r
  end.

(** Stable insertion sort: [jq]'s [sort_by] keeps the order of the elements
    with equal keys, and bash lists the matches of a glob in sorted order. *)
Section Sort.
Variable A : Type.
Variable key : A -> string.

Fixpoint insert_by (x : A) (l : list A) : list A :=
  match l with
  | [] => [x]
  | y :: r => if String.leb (key x) (key y) then x :: l
              else y :: insert_by x r
  end.

(** [sort_stable l]: the elements are inserted from the right, an element
    going before the equal ones already placed, which were behind it. *)
Definition sort_stable (l : list A) : list A :=
  fold_right insert_by [] l.
End Sort.

(** [jq '.photos |= sort_by(.date) | .photos |= reverse']. *)
Definition newest_first (ps : list photo) : list photo :=
  List.rev (sort_stable date ps).

(** The lines of [sitemap.xml]. *)
Definition sitemap_lines (site_url : string) (ps : list photo) : list string :=
  ["<?xml version=" ++ Text.dq ++ "1.0" ++ Text.dq ++ " encoding="
     ++ Text.dq ++ "UTF-8" ++ Text.dq ++ "?>";
   "<urlset xmlns=" ++ Text.dq ++ "http://www.sitemaps.org/schemas/sitemap/0.9"
     ++ Text.dq ++ ">";
   "  <url><loc>" ++ site_url ++ "</loc></url>"]
  ++ map (fun p => "  <url><loc>" ++ site_url ++ "#photo=" ++ slug p
                   ++ "</loc></url>") ps
  ++ ["</urlset>"].

End Manifest.

(** ** [scripts/process-photos.sh] *)

Module ProcessPhotos.
Import Text Manifest.

Definition SUPPORTED_EXTENSIONS : list string :=
  ["jpg"; "jpeg"; "png"; "tiff"; "tif"; "heic"; "heif"; "webp"; "avif"; "bmp"].

(** What [exiftool -json] reports of a file.  The three dates are [null] when
    absent, for the cascade of [//]; of the other tags only the text that
    [jq -r '... // empty'] prints matters, empty when the tag is absent. *)
Record exif := {
  DateTimeOriginal : option string;
  CreateDate : option string;
  ModifyDate : option string;
  Make : string;
  Model : string;
  LensModel : string;
  FocalLength : string;
  FNumber : string;
  ExposureTime : string;
  ISO : string;
  GPSLatitude : string;
  GPSLongitude : string;
  ImageWidth : string;
  ImageHeight : string
}.


(** The four ImageMagick invocations on a photo. *)
Inductive rendition := Web | Thumb1080 | Thumb640 | Thumb360.

(** The programs a run calls, as functions of the file name they are given:
    [magick f r] tells whether the conversion of [f] to rendition [r]
    succeeds; [stat_mtime] and [nominatim] yield the empty string on
    failure. *)
Record tools := {
  exiftool : string -> exif;
  stat_mtime : string -> string;
  nominatim : string -> string -> string;
  magick : string -> rendition -> bool
}.

(** The state a run threads through its loop: the names of the regular files
    of [photos/originals/], the manifest, the two counters and the lines
    printed so far. *)
Record state := {
  originals : list string;
  json : manifest;
  new_count : nat;
  skipped_count : nat;
  stdout : list string
}.

Definition say (line : string) (s : state) : state :=
  {| originals := originals s; json := json s; new_count := new_count s;
     skipped_count := skipped_count s; stdout := stdout s ++ [line] |}.

Definition set_originals (d : list string) (s : state) : state :=
  {| originals := d; json := json s; new_count := new_count s;
     skipped_count := skipped_count s; stdout := stdout s |}.

Definition set_photos (ps : list photo) (s : state) : state :=
  {| originals := originals s; json := with_photos (json s) ps;
     new_count := new_count s; skipped_count := skipped_count s;
     stdout := stdout s |}.

Definition count_new (s : state) : state :=
  {| originals := originals s; json := json s; new_count := S (new_count s);
     skipped_count := skipped_count s; stdout := stdout s |}.

Definition count_skipped (s : state) : state :=
  {| originals := originals s; json := json s; new_count := new_count s;
     skipped_count := S (skipped_count s); stdout := stdout s |}.

(** The body of the loop either goes on to the next file or, under [set -e],
    ends the script at a failing command. *)
Inductive flow := Next (s : state) | Exit (s : state).

(** [echo "$filename" | sed 's/[[:space:]]/-/g' | sed 's/[^a-zA-Z0-9._-]/-/g'
     | sed 's/--*/-/g' | sed 's/^-//;s/-$//'], for a name without line feed,
    which [sed] takes as one line; [sanitize_lines] below is the pipeline on
    any name. *)
Definition sanitize (filename : string) : string :=
  trim_trail (trim_lead (squeeze (hyphenate name_char
    (hyphenate (fun c => negb (is_space c)) (echo filename))))).

(** The same pipeline as the shell runs it, on any name: each [sed] edits
    line by line, and the command substitution drops the line feeds at the
    end. *)
Definition sanitize_lines (filename : string) : string :=
  strip_line_feeds
    (per_line (fun l => trim_trail (trim_lead l))
       (per_line squeeze
          (per_line (hyphenate name_char)
             (per_line (hyphenate (fun c => negb (is_space c)))
                (echo_out filename))))).

(** ["${base}-${counter}.${ext_s}"]. *)
Definition numbered (base : string) (counter : nat) (ext_s : string) : string :=
  base ++ "-" ++ decimal counter ++ "." ++ ext_s.

(** [while [[ -f ".../${base}-${counter}.${ext_s}" ]]; do counter=$((counter+1)); done].
    The fuel bounds the number of tests; [free_counter_fresh] shows that
    one more than the number of files is enough. *)
Fixpoint free_counter (d : list string) (base ext_s : string)
    (fuel counter : nat) : nat :=
  match fuel with
  | 0 => counter
  | S fuel' =>
      if mem (numbered base counter ext_s) d
      then free_counter d base ext_s fuel' (S counter)
      else counter
  end.

(** [mv "$filepath" "$ORIGINALS_DIR/$target"], on the names of the directory.
    With an empty target or [.] the target is the directory of the file
    itself and mv fails; with [..] the file leaves the directory; otherwise
    the file takes the new name, replacing a file of that name. *)
Definition mv (src target : string) (d : list string) : option (list string) :=
  if String.eqb target "" || String.eqb target "." then None
  else if String.eqb target ".."
  then Some (filter (fun n => negb (String.eqb n src)) d)
  else Some (map (fun n => if String.eqb n src then target else n)
               (filter (fun n => negb (String.eqb n target)) d)).

(** The name under which the file is renamed: the sanitized name, or, when a
    file of that name exists, the first free numbered name. *)
Definition rename_target (d : list string) (filename sanitized : string) : string :=
  if mem sanitized d && negb (String.eqb sanitized filename)
  then
    let base := chop_ext sanitized in
    let ext_s := ext_of sanitized in
    numbered base (free_counter d base ext_s (S (length d)) 1) ext_s
  else sanitized.

(** [.[0].DateTimeOriginal // .[0].CreateDate // .[0].ModifyDate // empty]. *)
Definition exif_date (x : exif) : string :=
  match DateTimeOriginal x with
  | Some d => d
  | None => match CreateDate x with
            | Some d => d
            | None => match ModifyDate x with Some d => d | None => "" end
            end
  end.

Definition nonempty (s : string) : bool := negb (String.eqb s "").

(** [echo "$model" | grep -qi "$make"], the make taken literally. *)
Definition grep_qi (pat text : string) : bool :=
  match String.index 0 (lower pat) (lower (echo text)) with
  | Some _ => true
  | None => false
  end.

Definition camera_of (make model : string) : string :=
  if nonempty make && nonempty model
  then if grep_qi make model then model else make ++ " " ++ model
  else if nonempty model then model else "".

(** ["${settings_parts[*]}"] under [IFS="  "]: joined by the first character
    of IFS. *)
Definition settings_of (focal aperture shutter iso : string) : string :=
  String.concat " "
    ((if nonempty focal then [focal] else [])
     ++ (if nonempty aperture then ["f/" ++ aperture] else [])
     ++ (if nonempty shutter then [shutter ++ "s"] else [])
     ++ (if nonempty iso then ["ISO " ++ iso] else [])).

(** [cut -d',' -f1-2]: the text before the second comma. *)
Fixpoint cut_f1_2 (commas_left : nat) (s : string) : string :=
  match s with
  | EmptyString => EmptyString
  | String c r =>
      if Ascii.eqb c ","
      then match commas_left with
           | 0 => EmptyString
           | S k => String c (cut_f1_2 k r)
           end
      else String c (cut_f1_2 commas_left r)
  end.

(** [sed 's/^ *//;s/ *$//']. *)
Fixpoint drop_spaces (s : string) : string :=
  match s with
  | String c r => if Ascii.eqb c " " then drop_spaces r else s
  | EmptyString => EmptyString
  end.

Fixpoint drop_trailing_spaces (s : string) : string :=
  match s with
  | EmptyString => EmptyString
  | String c r =>
      let r' := drop_trailing_spaces r in
      if Ascii.eqb c " " && String.eqb r' "" then EmptyString else String c r'
  end.

Definition location_of (geocode : string -> string -> string)
    (gps_lat gps_lon : string) : string :=
  if nonempty gps_lat && nonempty gps_lon
  then
    let location := geocode gps_lat gps_lon in
    if nonempty location
    then drop_trailing_spaces (drop_spaces (cut_f1_2 1 (echo location)))
    else ""
  else "".

(** The entry [jq -n] builds for a photo. *)
Definition new_entry (T : tools) (CAPTION filename date : string) (x : exif) : photo :=
  {| filename := filename;
     web := chop_ext filename ++ ".webp";
     thumbnail := "thumb_" ++ chop_ext filename ++ ".webp";
     slug := slug_pipeline (chop_ext filename);
     date := date;
     caption := CAPTION;
     camera := camera_of (Make x) (Model x);
     lens := LensModel x;
     settings := settings_of (FocalLength x) (FNumber x) (ExposureTime x) (ISO x);
     location := location_of (nominatim T) (GPSLatitude x) (GPSLongitude x);
     gps_lat := GPSLatitude x;
     gps_lon := GPSLongitude x;
     width := if nonempty (ImageWidth x) then Some (ImageWidth x) else None;
     height := if nonempty (ImageHeight x) then Some (ImageHeight x) else None;
     media := None |}.

(** Lines 127-134: [ext="${filename##*.}"], its lower case, and the test
    [echo "$ext_lower" | grep -qE "^($SUPPORTED_EXTENSIONS)$"]. *)
Definition supported (filename : string) : bool :=
  let ext_lower := lower (echo (ext_of filename)) in
  grep_alternatives SUPPORTED_EXTENSIONS (echo ext_lower).

(** Lines 127-289 of the script: the extension test, the test against the
    names already in the manifest, EXIF, the four conversions, and the new
    entry put in front of the [photos] array.  A failing conversion ends the
    script ([set -e]). *)
Definition ingest (T : tools) (CAPTION : string) (known_files : list string)
    (filename : string) (s : state) : flow :=
  if negb (supported filename)
  then Next (count_skipped (say ("⏭  Skipping non-image file: " ++ filename) s))
  else if grep_qxF filename known_files then Next s
  else
    let s1 := say ("→ Processing: " ++ filename) s in
    let x := exiftool T filename in
    let date0 := exif_date x in
    let date := if nonempty date0 then date0 else stat_mtime T filename in
    let s2 := if negb (nonempty date0) && nonempty date
              then say "   ⚠ No EXIF date — using file modification date" s1
              else s1 in
    if negb (magick T filename Web) then Exit s2
    else
      let s3 := say ("   ✓ Web-optimized → " ++ chop_ext filename ++ ".webp") s2 in
      if negb (magick T filename Thumb1080) then Exit s3
      else if negb (magick T filename Thumb640) then Exit s3
      else if negb (magick T filename Thumb360) then Exit s3
      else
        let s4 := say "   ✓ Thumbnails → 1080 / 640 / 360" s3 in
        let entry := new_entry T CAPTION filename date x in
        Next (say "   ✓ Added to photos.json"
                (count_new (set_photos (entry :: photos (json s4)) s4))).

(** Lines 101-125: the tests on the path, and the renaming of a file whose
    name is not its own sanitized form. *)
Definition process_file (T : tools) (CAPTION : string) (known_files : list string)
    (name : string) (s : state) : flow :=
  if negb (mem name (originals s)) then Next s
  else if starts_with_dot name then Next s
  else
    let sanitized := sanitize name in
    if String.eqb sanitized name then ingest T CAPTION known_files name s
    else
      let target := rename_target (originals s) name sanitized in
      match mv name target (originals s) with
      | None => Exit s
      | Some d =>
          ingest T CAPTION known_files target
            (say ("   📝 Renamed: " ++ name ++ " → " ++ target) (set_originals d s))
      end.

(** [for filepath in "$ORIGINALS_DIR"/*; do ... done]. *)
Fixpoint loop (T : tools) (CAPTION : string) (known_files files : list string)
    (s : state) : flow :=
  match files with
  | [] => Next s
  | f :: rest =>
      match process_file T CAPTION known_files f s with
      | Next s' => loop T CAPTION known_files rest s'
      | Exit s' => Exit s'
      end
  end.

(** The expansion of ["$ORIGINALS_DIR"/*]: the names that do not begin with
    a dot, sorted; the pattern itself when there is none. *)
Definition glob (d : list string) : list string :=
  match sort_stable (fun n => n) (filter (fun n => negb (starts_with_dot n)) d) with
  | [] => ["*"]
  | l => l
  end.

(** The manifest the script writes when there is none. *)
Definition empty_manifest : manifest :=
  {| profile := []; photos := []; albums := [] |}.

(** What a run leaves: the final state, whether the script ran to its end
    (rather than being ended by [set -e]), and the sitemap when one was
    written. *)
Record result := {
  final : state;
  completed : bool;
  sitemap : option (list string)
}.

(** Lines 292-321: the re-sort, the summary and the sitemap. *)
Definition epilogue (s : state) : result :=
  let s1 := if Nat.ltb 0 (new_count s)
            then say "📅  Sorted photos newest-first by date."
                   (say "" (set_photos (newest_first (photos (json s))) s))
            else s in
  let s2 := say "" s1 in
  if Nat.ltb 0 (new_count s)
  then
    let s3 := say ("✅  Processed " ++ decimal (new_count s) ++ " new photo(s).") s2 in
    let SITE_URL := profile_key "siteUrl" (profile (json s3)) in
    if nonempty SITE_URL
    then {| final := say "🗺  Generated sitemap.xml" s3; completed := true;
            sitemap := Some (sitemap_lines SITE_URL (photos (json s3))) |}
    else {| final := s3; completed := true; sitemap := None |}
  else if Nat.ltb 0 (skipped_count s)
  then {| final := say ("ℹ️  No new photos found (" ++ decimal (skipped_count s)
                        ++ " non-image file(s) skipped).") s2;
          completed := true; sitemap := None |}
  else {| final := say "ℹ️  No new photos found." s2;
          completed := true; sitemap := None |}.

(** The state at the start of the loop. *)
Definition start (dir : list string) (m : manifest) : state :=
  {| originals := dir; json := m; new_count := 0; skipped_count := 0;
     stdout := [] |}.

(** Lines 89-92: the file is created when it does not exist. *)
Definition load (json_file : option manifest) : manifest :=
  match json_file with Some m => m | None => empty_manifest end.

(** The script, given the caption of the command line, the names of the
    regular files of [photos/originals/] and [data/photos.json] if it
    exists. *)
Definition run (T : tools) (CAPTION : string) (dir : list string)
    (json_file : option manifest) : result :=
  let m := load json_file in
  let known_files := map filename (photos m) in
  match loop T CAPTION known_files (glob dir) (start dir m) with
  | Next s => epilogue s
  | Exit s => {| final := s; completed := false; sitemap := None |}
  end.

(** *** Vocabulary for the properties of a run *)

Definition flow_state (fl : flow) : state :=
  match fl with Next s => s | Exit s => s end.

(** A name as the renaming step leaves it: made of [a-zA-Z0-9._-], and such
    that [echo] prints the name without its extension as it is. *)
Definition stored_name (f : string) : Prop :=
  sforall name_char f = true /\ is_echo_flag (chop_ext f) = false.

(** An entry as [ingest] makes it: its name passed the test of the
    extension and the test against the known names, and its slug is the
    slug of the name without its extension. *)
Definition ingested (known_files : list string) (e : photo) : Prop :=
  grep_qxF (filename e) known_files = false
  /\ supported (filename e) = true
  /\ slug e = slug_pipeline (chop_ext (filename e))
  /\ stored_name (filename e).

Definition same_frame (s s' : state) : Prop :=
  profile (json s') = profile (json s) /\ albums (json s') = albums (json s).

Definition unchanged (s s' : state) : Prop :=
  photos (json s') = photos (json s) /\ new_count s' = new_count s.

Definition added_one (known_files : list string) (e : photo) (s s' : state) : Prop :=
  photos (json s') = e :: photos (json s) /\ new_count s' = S (new_count s)
  /\ ingested known_files e.

Definition extends (known_files : list string) (added : list photo)
    (s s' : state) : Prop :=
  photos (json s') = (added ++ photos (json s))%list
  /\ new_count s' = length added + new_count s
  /\ Forall (ingested known_files) added
  /\ same_frame s s'.




(** The names of the directory and the file names of the manifest hold no
    line feed: [sed] and [grep] then see one name to a line, as does [jq -r]
    when it prints the names of the manifest. *)
Definition line_free (dir : list string) (json_file : option manifest) : Prop :=
  Forall (fun n => has_line_feed n = false) dir
  /\ Forall (fun e => has_line_feed (filename e) = false)
       (photos (load json_file)).


(** The entries a loop adds bear the names of files of the directory, each
    of them either one of the names listed or a name new to the
    directory. *)
Definition distinct (files : list string) (added : list photo)
    (s s' : state) : Prop :=
  NoDup (originals s')
  /\ NoDup (map filename added)
  /\ (forall e, In e added ->
        In (filename e) (originals s')
        /\ (In (filename e) files \/ ~ In (filename e) (originals s)))
  /\ (forall x, In x (originals s) -> ~ In x files -> In x (originals s')).

(** The file names of the manifest. *)
Definition names (s : state) : list string := map filename (photos (json s)).

(** A name of the directory that the next run will leave alone: a hidden
    file, a file that is no image, or a file of the manifest. *)
Definition settled (names : list string) (n : string) : Prop :=
  starts_with_dot n = true \/ supported n = false \/ In n names.

End ProcessPhotos.

(** ** [scripts/import-instagram.sh] *)

Module ImportInstagram.
Import Text Manifest.

Definition SUPPORTED_EXTENSIONS : list string :=
  ProcessPhotos.SUPPORTED_EXTENSIONS.

Definition VIDEO_EXTENSIONS : list string :=
  ["mp4"; "mov"; "avi"; "mkv"; "webm"; "m4v"].

(** An element of a post's [media] array in [posts_1.json]; a key that is
    absent reads as the empty string ([// empty]). *)
Record ig_media := {
  uri : string;
  item_title : string;
  item_creation_timestamp : string
}.

(** A post of [posts_1.json]. *)
Record ig_post := {
  post_title : string;
  creation_timestamp : string;
  post_media : list ig_media
}.

(** The programs a run calls, as functions of the path they are given
    (relative to the export folder for the media files): [file_exists] is
    the test [-f]; [date_r] is [date -r], empty on failure; the three ffmpeg
    fields tell whether the encoding, the poster extraction at one second
    and the poster extraction without seek succeed; [ffprobe_seconds] is the
    whole part of the duration, if ffprobe prints one. *)
Record tools := {
  file_exists : string -> bool;
  date_r : string -> string;
  HAS_FFMPEG : bool;
  ffmpeg_encode : string -> bool;
  ffmpeg_poster_seek : string -> bool;
  ffmpeg_poster : string -> bool;
  ffprobe_seconds : string -> option nat;
  magick : string -> ProcessPhotos.rendition -> bool;
  exiftool : string -> ProcessPhotos.exif;
  nominatim : string -> string -> string
}.

Record state := {
  json : manifest;
  new_count : nat;
  skipped_count : nat;
  error_count : nat;
  stdout : list string
}.

Definition say (line : string) (s : state) : state :=
  {| json := json s; new_count := new_count s;
     skipped_count := skipped_count s; error_count := error_count s;
     stdout := stdout s ++ [line] |}.

Definition set_photos (ps : list photo) (s : state) : state :=
  {| json := with_photos (json s) ps; new_count := new_count s;
     skipped_count := skipped_count s; error_count := error_count s;
     stdout := stdout s |}.

Definition count_new (s : state) : state :=
  {| json := json s; new_count := S (new_count s);
     skipped_count := skipped_count s; error_count := error_count s;
     stdout := stdout s |}.

Definition count_skipped (s : state) : state :=
  {| json := json s; new_count := new_count s;
     skipped_count := S (skipped_count s); error_count := error_count s;
     stdout := stdout s |}.

Definition count_error (s : state) : state :=
  {| json := json s; new_count := new_count s;
     skipped_count := skipped_count s; error_count := S (error_count s);
     stdout := stdout s |}.

(** The variables of the loop over the media of one post. *)
Record post_vars := {
  media_array_json : list media_item;
  first_web : string;
  first_thumb : string;
  post_camera : string;
  post_lens : string;
  post_settings : string;
  post_location : string;
  post_gps_lat : string;
  post_gps_lon : string;
  post_width : string;
  post_height : string;
  any_error : bool;
  lines : list string
}.

Definition fresh_vars : post_vars :=
  {| media_array_json := []; first_web := ""; first_thumb := "";
     post_camera := ""; post_lens := ""; post_settings := "";
     post_location := ""; post_gps_lat := ""; post_gps_lon := "";
     post_width := ""; post_height := ""; any_error := false; lines := [] |}.

Definition warn (line : string) (v : post_vars) : post_vars :=
  {| media_array_json := media_array_json v; first_web := first_web v;
     first_thumb := first_thumb v; post_camera := post_camera v;
     post_lens := post_lens v; post_settings := post_settings v;
     post_location := post_location v; post_gps_lat := post_gps_lat v;
     post_gps_lon := post_gps_lon v; post_width := post_width v;
     post_height := post_height v; any_error := any_error v;
     lines := lines v ++ [line] |}.

Definition flag_error (v : post_vars) : post_vars :=
  {| media_array_json := media_array_json v; first_web := first_web v;
     first_thumb := first_thumb v; post_camera := post_camera v;
     post_lens := post_lens v; post_settings := post_settings v;
     post_location := post_location v; post_gps_lat := post_gps_lat v;
     post_gps_lon := post_gps_lon v; post_width := post_width v;
     post_height := post_height v; any_error := true; lines := lines v |}.

(** [media_array_json + [item]], and the first web file and thumbnail when
    none is set yet. *)
Definition push_media (item : media_item) (w t : string) (v : post_vars) : post_vars :=
  {| media_array_json := media_array_json v ++ [item];
     first_web := if ProcessPhotos.nonempty (first_web v) then first_web v else w;
     first_thumb := if ProcessPhotos.nonempty (first_web v) then first_thumb v else t;
     post_camera := post_camera v; post_lens := post_lens v;
     post_settings := post_settings v; post_location := post_location v;
     post_gps_lat := post_gps_lat v; post_gps_lon := post_gps_lon v;
     post_width := post_width v; post_height := post_height v;
     any_error := any_error v; lines := lines v |}.

(** The post-level metadata, read off the EXIF of the first image. *)
Definition set_meta (T : tools) (x : ProcessPhotos.exif) (v : post_vars) : post_vars :=
  {| media_array_json := media_array_json v; first_web := first_web v;
     first_thumb := first_thumb v;
     post_camera := ProcessPhotos.camera_of (ProcessPhotos.Make x) (ProcessPhotos.Model x);
     post_lens := ProcessPhotos.LensModel x;
     post_settings :=
       ProcessPhotos.settings_of (ProcessPhotos.FocalLength x)
         (ProcessPhotos.FNumber x) (ProcessPhotos.ExposureTime x)
         (ProcessPhotos.ISO x);
     post_location :=
       ProcessPhotos.location_of (nominatim T) (ProcessPhotos.GPSLatitude x)
         (ProcessPhotos.GPSLongitude x);
     post_gps_lat := ProcessPhotos.GPSLatitude x;
     post_gps_lon := ProcessPhotos.GPSLongitude x;
     post_width := ProcessPhotos.ImageWidth x;
     post_height := ProcessPhotos.ImageHeight x;
     any_error := any_error v; lines := lines v |}.

(** [printf "%d:%02d" "$((di / 60))" "$((di % 60))"]. *)
Definition duration_text (seconds : option nat) : string :=
  match seconds with
  | None => ""
  | Some di =>
      decimal (di / 60) ++ ":"
      ++ (if Nat.ltb (di mod 60) 10 then "0" else "") ++ decimal (di mod 60)
  end.

(** ["[$((mi + 1))/$media_count]"]. *)
Definition position (mi media_count : nat) : string :=
  "[" ++ decimal (mi + 1) ++ "/" ++ decimal media_count ++ "]".

(** Lines 344-355: the extension of the media file, in lower case, tested
    against the two lists. *)
Definition src_ext_lower (src_file : string) : string :=
  lower (echo (ext_of (path_basename src_file))).

Definition is_video (src_file : string) : bool :=
  grep_alternatives VIDEO_EXTENSIONS (echo (src_ext_lower src_file)).

Definition is_image (src_file : string) : bool :=
  grep_alternatives SUPPORTED_EXTENSIONS (echo (src_ext_lower src_file)).

(** The body of the loop over the media of a post (lines 327-523): every way
    out but the last is a [continue]. *)
Definition process_media (T : tools) (slug : string) (media_count mi : nat)
    (item : ig_media) (v : post_vars) : post_vars :=
  if negb (ProcessPhotos.nonempty (uri item))
  then warn ("   ⚠ Media item " ++ decimal mi ++ " has no URI, skipping") v
  else if negb (file_exists T (uri item))
  then flag_error (warn ("   ⚠ File not found: " ++ uri item) v)
  else
    let src_file := uri item in
    let src_filename := path_basename src_file in
    let item_is_video := is_video src_file in
    if negb item_is_video && negb (is_image src_file)
    then warn ("   ⚠ Unsupported file type: " ++ src_filename) v
    else
      let out_base := if Nat.ltb 1 media_count
                      then slug ++ "-" ++ decimal (mi + 1) else slug in
      if item_is_video
      then
        if negb (HAS_FFMPEG T)
        then warn ("   ⚠ Skipping video (ffmpeg not installed): " ++ src_filename) v
        else
          let v_web := out_base ++ ".mp4" in
          let v_poster := out_base ++ "-poster.webp" in
          let v_thumb := "thumb_" ++ out_base ++ ".webp" in
          if negb (ffmpeg_encode T src_file)
          then warn ("   ⚠ Failed to encode video: " ++ src_filename ++ ", skipping") v
          else if negb (ffmpeg_poster_seek T src_file)
                  && negb (ffmpeg_poster T src_file)
          then warn ("   ⚠ Failed to extract poster frame: " ++ src_filename
                     ++ ", skipping") v
          else if negb (magick T v_poster ProcessPhotos.Thumb1080)
          then warn ("   ⚠ Failed to generate thumbnails for video: "
                     ++ src_filename ++ ", skipping") v
          else
            let dur_str := duration_text (ffprobe_seconds T src_file) in
            warn ("   ✓ Video " ++ position mi media_count ++ " → " ++ v_web)
              (push_media
                 {| media_type := "video"; media_web := v_web;
                    media_poster := Some v_poster; media_thumbnail := v_thumb;
                    media_duration := Some dur_str |}
                 v_poster v_thumb v)
      else
        let i_web := out_base ++ ".webp" in
        let i_thumb := "thumb_" ++ out_base ++ ".webp" in
        if negb (magick T src_file ProcessPhotos.Web)
        then warn ("   ⚠ Failed to convert image: " ++ src_filename ++ ", skipping") v
        else
          let v1 := push_media
                      {| media_type := "image"; media_web := i_web;
                         media_poster := None; media_thumbnail := i_thumb;
                         media_duration := None |}
                      i_web i_thumb v in
          let v2 := if Nat.eqb mi 0 then set_meta T (exiftool T src_file) v1 else v1 in
          warn ("   ✓ Image " ++ position mi media_count ++ " → " ++ i_web) v2.

(** [for (( mi=0; mi<media_count; mi++ ))]. *)
Fixpoint media_loop (T : tools) (slug : string) (media_count mi : nat)
    (items : list ig_media) (v : post_vars) : post_vars :=
  match items with
  | [] => v
  | item :: rest =>
      media_loop T slug media_count (S mi) rest
        (process_media T slug media_count mi item v)
  end.

(** [cut -c1-10]. *)
Definition cut_c1_10 (s : string) : string := substring 0 10 s.

Definition usable_timestamp (ts : string) : bool :=
  ProcessPhotos.nonempty ts && negb (String.eqb ts "0").

Definition first_media (post : ig_post) : ig_media :=
  match post_media post with
  | m :: _ => m
  | [] => {| uri := ""; item_title := ""; item_creation_timestamp := "" |}
  end.

(** The timestamp the slug is made of, and the date of the post (lines
    277-290). *)
Definition post_timestamp (T : tools) (post : ig_post) : string * string :=
  let creation_ts := creation_timestamp post in
  let post_date := if usable_timestamp creation_ts then date_r T creation_ts else "" in
  if ProcessPhotos.nonempty post_date then (creation_ts, post_date)
  else
    let media_ts := item_creation_timestamp (first_media post) in
    if usable_timestamp media_ts then (media_ts, date_r T media_ts)
    else (creation_ts, post_date).

(** Lines 295-301. *)
Definition post_slug (creation_ts : string) (idx : nat) : string :=
  let base_slug := if ProcessPhotos.nonempty creation_ts
                   then "ig-" ++ creation_ts
                   else "ig-post-" ++ decimal idx in
  slug_pipeline base_slug.

Definition numeral_or_null (w : string) : option string :=
  if ProcessPhotos.nonempty w then Some w else None.

(** The entry [jq -n] builds for a post. *)
Definition new_entry (post : ig_post) (slug post_date caption : string)
    (v : post_vars) : photo :=
  {| filename := basename (uri (first_media post));
     web := first_web v;
     thumbnail := first_thumb v;
     Manifest.slug := slug;
     date := post_date;
     Manifest.caption := caption;
     camera := post_camera v;
     lens := post_lens v;
     settings := post_settings v;
     location := post_location v;
     gps_lat := post_gps_lat v;
     gps_lon := post_gps_lon v;
     width := numeral_or_null (post_width v);
     height := numeral_or_null (post_height v);
     media := Some (media_array_json v) |}.

(** The body of the loop over the posts (lines 266-581). *)
Definition import_post (T : tools) (known_slugs : list string) (total_posts idx : nat)
    (post : ig_post) (s : state) : state :=
  let caption := if ProcessPhotos.nonempty (post_title post) then post_title post
                 else item_title (first_media post) in
  let (creation_ts, post_date) := post_timestamp T post in
  let media_count := length (post_media post) in
  let slug := post_slug creation_ts idx in
  if grep_qxF slug known_slugs then count_skipped s
  else
    let s1 := say ("→ [" ++ decimal (idx + 1) ++ "/" ++ decimal total_posts
                   ++ "] Processing post from " ++ cut_c1_10 (echo post_date)
                   ++ " (" ++ decimal media_count ++ " media item(s))") s in
    let v := media_loop T slug media_count 0 (post_media post) fresh_vars in
    let s2 := fold_left (fun st line => say line st) (lines v) s1 in
    if Nat.eqb (length (media_array_json v)) 0
    then count_error (say "   ⚠ No media items processed, skipping post" s2)
    else
      let entry := new_entry post slug post_date caption v in
      let s3 := count_new (set_photos (photos (json s2) ++ [entry]) s2) in
      if any_error v then count_error s3 else s3.

(** [for (( idx=0; idx<total_posts; idx++ ))]. *)
Fixpoint post_loop (T : tools) (known_slugs : list string) (total_posts idx : nat)
    (posts : list ig_post) (s : state) : state :=
  match posts with
  | [] => s
  | post :: rest =>
      post_loop T known_slugs total_posts (S idx) rest
        (import_post T known_slugs total_posts idx post s)
  end.

(** Lines 238-249: an entry without [media] gets the one-image array. *)
Definition migrate (p : photo) : photo :=
  match media p with
  | Some _ => p
  | None =>
      {| filename := filename p; web := web p; thumbnail := thumbnail p;
         slug := slug p; date := date p; caption := caption p;
         camera := camera p; lens := lens p; settings := settings p;
         location := location p; gps_lat := gps_lat p; gps_lon := gps_lon p;
         width := width p; height := height p;
         media := Some [ {| media_type := "image"; media_web := web p;
                            media_poster := None;
                            media_thumbnail := thumbnail p;
                            media_duration := None |} ] |}
  end.

(** Lines 233-236: the manifest the script writes when there is none. *)
Definition empty_manifest : manifest :=
  {| profile := []; photos := []; albums := [] |}.

Definition needs_migration (ps : list photo) : nat :=
  length (filter (fun p => match media p with None => true | Some _ => false end) ps).

Record result := {
  final : state;
  sitemap : option (list string)
}.

(** The script, given the export folder, the posts of its [posts_1.json] and
    [data/photos.json] if it exists. *)
Definition run (T : tools) (EXPORT_DIR : string) (posts : list ig_post)
    (json_file : option manifest) : result :=
  let m := match json_file with
           | Some m => m
           | None => empty_manifest
           end in
  let s0 := {| json := m; new_count := 0; skipped_count := 0;
               error_count := 0;
               stdout := ["📦  Instagram export: " ++ EXPORT_DIR;
                          "📄  Posts JSON: " ++ EXPORT_DIR ++ "/posts_1.json"] |} in
  let s1 := if Nat.ltb 0 (needs_migration (photos m))
            then set_photos (map migrate (photos m))
                   (say ("🔄  Migrating " ++ decimal (needs_migration (photos m))
                         ++ " existing entry/entries to new media format...") s0)
            else s0 in
  let known_slugs := map slug (photos (json s1)) in
  let total_posts := length posts in
  let s2 := say "" (say ("📸  Found " ++ decimal total_posts
                         ++ " posts in Instagram export") (say "" s1)) in
  let s3 := post_loop T known_slugs total_posts 0 posts s2 in
  let s4 := if Nat.ltb 0 (new_count s3)
            then say "📅  Sorted photos newest-first by date."
                   (say "" (set_photos (newest_first (photos (json s3))) s3))
            else s3 in
  let s5 :=
    say "============================================"
      (say ("   Total in photos.json: " ++ decimal (length (photos (json s4))))
      (say ("   Errors:   " ++ decimal (error_count s4))
      (say ("   Skipped:  " ++ decimal (skipped_count s4) ++ " (already imported)")
      (say ("   Imported: " ++ decimal (new_count s4) ++ " post(s)")
      (say "✅  Import complete!"
      (say "============================================" (say "" s4))))))) in
  let SITE_URL := profile_key "siteUrl" (profile (json s5)) in
  if Nat.ltb 0 (new_count s5) && ProcessPhotos.nonempty SITE_URL
  then {| final := say "🗺  Generated sitemap.xml" s5;
          sitemap := Some (sitemap_lines SITE_URL (photos (json s5))) |}
  else {| final := s5; sitemap := None |}.

End ImportInstagram.

(** ** [js/lightbox.js]: LightboxModule *)

Module Lightbox.
Import Text.

(** A photo object as the browser holds it.  A key that is absent reads as
    the empty string, which is as falsy as [undefined] in every test the
    module makes ([photo.slug], [photo._palBaseUrl], [photo.caption], ...). *)
Record photo := {
  filename : string;
  slug : string;
  web : string;
  caption : string;
  date : string;
  camera : string;
  lens : string;
  settings : string;
  location : string;
  _palBaseUrl : string;
  _palUsername : string;
  _palAvatar : string
}.

Definition truthy (s : string) : bool := negb (String.eqb s "").

(** [a || b] on strings. *)
Definition or_else (a b : string) : string := if truthy a then a else b.

(** The entry of the manifest, as [fetch] and [res.json()] hand it over. *)
Definition of_manifest (p : Manifest.photo) : photo :=
  {| filename := Manifest.filename p; slug := Manifest.slug p;
     web := Manifest.web p; caption := Manifest.caption p;
     date := Manifest.date p; camera := Manifest.camera p;
     lens := Manifest.lens p; settings := Manifest.settings p;
     location := Manifest.location p;
     _palBaseUrl := ""; _palUsername := ""; _palAvatar := "" |}.

(** The photo object without its [slug] key. *)
Definition without_slug (p : photo) : photo :=
  {| filename := filename p; slug := ""; web := web p; caption := caption p;
     date := date p; camera := camera p; lens := lens p;
     settings := settings p; location := location p;
     _palBaseUrl := _palBaseUrl p; _palUsername := _palUsername p;
     _palAvatar := _palAvatar p |}.

(** The fallback of [slugFor], for a photo without [slug]. *)
Definition slug_of_filename (filename : string) : string :=
  strip_edges true
    (squeeze (hyphenate slug_char (lower (replace_ext filename)))).

(** [slugFor], defined alike in LightboxModule, TimelineModule and
    PalgramModule. *)
Definition slugFor (p : photo) : string :=
  if truthy (slug p) then slug p else slug_of_filename (filename p).

(** [Array.prototype.findIndex]. *)
Fixpoint findIndex (A : Type) (f : A -> bool) (l : list A) : Z :=
  match l with
  | [] => (-1)%Z
  | x :: r =>
      if f x then 0%Z
      else let i := findIndex f r in
           if (i =? -1)%Z then (-1)%Z else (i + 1)%Z
  end.

(** The part of the page and of the browser that the module writes. *)
Record page := {
  lightboxPhoto_src : string;
  lightboxPhoto_alt : string;
  lightboxPhoto_crossorigin : bool;
  avatar_src : string;
  avatar_crossorigin : bool;
  username_text : string;
  lightboxCaption : string;
  lightboxDate : string;
  lightboxMeta : string;
  viewPal_href : string;
  viewPal_html : string;
  viewPal_hidden : bool;
  lightboxPrev_display : string;
  lightboxNext_display : string
}.

Record profile := {
  profilePhoto : string;
  username : string
}.

(** The variables of the module, the fragment of the address bar, whether
    the modal is shown, and the sources of the images created by
    [preload]. *)
Record state := {
  _photos : list photo;
  _currentIndex : Z;
  _profile : profile;
  _suppressHashChange : bool;
  location_hash : string;
  modal_shown : bool;
  document : page;
  images : list string
}.

Definition WEB_DIR : string := "photos/web/".

Section WithLocale.
(** [toLocaleDateString] of the browser. *)
Variable formatDate : string -> string.

(** [history.replaceState(null, "", "#photo=" + slug)], and the flag that
    an animation frame resets. *)
Definition setHash (slug : string) (s : state) : state :=
  {| _photos := _photos s; _currentIndex := _currentIndex s;
     _profile := _profile s; _suppressHashChange := true;
     location_hash := "#photo=" ++ slug; modal_shown := modal_shown s;
     document := document s; images := images s |}.

Definition clearHash (s : state) : state :=
  {| _photos := _photos s; _currentIndex := _currentIndex s;
     _profile := _profile s; _suppressHashChange := true;
     location_hash := ""; modal_shown := modal_shown s;
     document := document s; images := images s |}.

Definition imgSrc (p : photo) : string :=
  if negb (truthy (_palBaseUrl p)) then WEB_DIR ++ web p
  else _palBaseUrl p ++ "photos/web/" ++ web p.

(** [metaParts.join("<br>")]. *)
Definition meta_html (p : photo) : string :=
  String.concat "<br>"
    ((if truthy (camera p)
      then ["<i class=" ++ dq ++ "bi bi-camera me-1" ++ dq ++ "></i>" ++ camera p]
      else [])
     ++ (if truthy (lens p)
         then ["<i class=" ++ dq ++ "bi bi-aperture me-1" ++ dq ++ "></i>" ++ lens p]
         else [])
     ++ (if truthy (settings p)
         then ["<i class=" ++ dq ++ "bi bi-sliders me-1" ++ dq ++ "></i>" ++ settings p]
         else [])
     ++ (if truthy (location p)
         then ["<i class=" ++ dq ++ "bi bi-geo-alt me-1" ++ dq ++ "></i>" ++ location p]
         else [])).

(** [_photos[index]], for an index within the array. *)
Definition photo_at (s : state) (index : Z) : option photo :=
  if (index <? 0)%Z then None else nth_error (_photos s) (Z.to_nat index).

(** [preload]. *)
Definition preload (index : Z) (s : state) : state :=
  if (index <? 0)%Z || (index >=? Z.of_nat (length (_photos s)))%Z then s
  else
    match photo_at s index with
    | None => s
    | Some p =>
        {| _photos := _photos s; _currentIndex := _currentIndex s;
           _profile := _profile s; _suppressHashChange := _suppressHashChange s;
           location_hash := location_hash s; modal_shown := modal_shown s;
           document := document s; images := images s ++ [imgSrc p] |}
    end.

(** What [show] writes into the page for a photo at [index]. *)
Definition render (s : state) (index : Z) (p : photo) : page :=
  let isLocal := negb (truthy (_palBaseUrl p)) in
  {| lightboxPhoto_src := imgSrc p;
     lightboxPhoto_alt := caption p;
     lightboxPhoto_crossorigin := negb isLocal;
     avatar_src := or_else (_palAvatar p)
                     (or_else (profilePhoto (_profile s)) "assets/profile.jpg");
     avatar_crossorigin := negb isLocal;
     username_text := or_else (_palUsername p)
                        (or_else (username (_profile s)) "username");
     lightboxCaption := caption p;
     lightboxDate := formatDate (date p);
     lightboxMeta := meta_html p;
     viewPal_href := if negb isLocal then _palBaseUrl p ++ "#photo=" ++ slugFor p
                     else viewPal_href (document s);
     viewPal_html := if negb isLocal
                     then "<i class=" ++ dq ++ "bi bi-box-arrow-up-right me-1"
                          ++ dq ++ "></i>View on " ++ _palUsername p ++ "'s app"
                     else viewPal_html (document s);
     viewPal_hidden := isLocal;
     lightboxPrev_display := if (0 <? index)%Z then "" else "none";
     lightboxNext_display :=
       if (index <? Z.of_nat (length (_photos s)) - 1)%Z then "" else "none" |}.

(** [show]. *)
Definition show (index : Z) (s : state) : state :=
  if (index <? 0)%Z || (index >=? Z.of_nat (length (_photos s)))%Z then s
  else
    match photo_at s index with
    | None => s
    | Some p =>
        let s1 := {| _photos := _photos s; _currentIndex := index;
                     _profile := _profile s;
                     _suppressHashChange := _suppressHashChange s;
                     location_hash := location_hash s;
                     modal_shown := modal_shown s;
                     document := render s index p; images := images s |} in
        let s2 := if negb (truthy (_palBaseUrl p)) then setHash (slugFor p) s1
                  else clearHash s1 in
        preload (index + 1) (preload (index - 1) s2)
    end.

(** [open]. *)
Definition open (index : Z) (s : state) : state :=
  let s1 := show index s in
  {| _photos := _photos s1; _currentIndex := _currentIndex s1;
     _profile := _profile s1; _suppressHashChange := _suppressHashChange s1;
     location_hash := location_hash s1; modal_shown := true;
     document := document s1; images := images s1 |}.

(** [indexBySlug]. *)
Definition indexBySlug (slug : string) (s : state) : Z :=
  findIndex (fun p => String.eqb (slugFor p) slug) (_photos s).

(** [text] without the prefix [pat], if it begins with it. *)
Fixpoint strip_prefix (pat text : string) : option string :=
  match pat, text with
  | EmptyString, _ => Some text
  | String a p, String b r => if Ascii.eqb a b then strip_prefix p r else None
  | String _ _, EmptyString => None
  end.

(** [hash.replace("#photo=", "")], called on a hash that starts with the
    pattern: its first occurrence is the prefix. *)
Definition hash_slug (hash : string) : string :=
  match strip_prefix "#photo=" hash with
  | Some slug => slug
  | None => hash
  end.

(** The current index is an index of the array. *)
Definition in_range (s : state) : Prop :=
  (0 <= _currentIndex s < Z.of_nat (length (_photos s)))%Z.

(** The fragment agrees with the photo shown: when the modal is shown on a
    local photo, the fragment is [#photo=] and the slug of that photo. *)
Definition hash_agrees (s : state) : Prop :=
  modal_shown s = true ->
  forall p, photo_at s (_currentIndex s) = Some p ->
    truthy (_palBaseUrl p) = false ->
    location_hash s = "#photo=" ++ slugFor p.

(** [checkHash]. *)
Definition checkHash (s : state) : state :=
  let hash := location_hash s in
  if negb (starts_with "#photo=" hash) then s
  else
    let idx := indexBySlug (hash_slug hash) s in
    if negb (idx =? -1)%Z then open idx s else s.

(** [setPhotos]. *)
Definition setPhotos (photos : list photo) (s : state) : state :=
  {| _photos := photos; _currentIndex := _currentIndex s;
     _profile := _profile s; _suppressHashChange := _suppressHashChange s;
     location_hash := location_hash s; modal_shown := modal_shown s;
     document := document s; images := images s |}.

(** The end of [Modal.hide]: the modal is hidden and the [hidden.bs.modal]
    listener clears the hash. *)
Definition hidden (s : state) : state :=
  let s1 := clearHash s in
  {| _photos := _photos s1; _currentIndex := _currentIndex s1;
     _profile := _profile s1; _suppressHashChange := _suppressHashChange s1;
     location_hash := location_hash s1; modal_shown := false;
     document := document s1; images := images s1 |}.

(** The events the listeners of [init] react to. *)
Inductive event :=
| ClickPrev
| ClickNext
| KeyDown (key : string)
| SwipeLeft
| SwipeRight
| HashChange (hash : string)
| ModalHidden
| AnimationFrame.

Definition is_hash_change (e : event) : bool :=
  match e with
  | HashChange _ => true
  | _ => false
  end.

(** The listeners of [init].  A swipe to the left shows the next photo and
    one to the right the previous one, in the immersive mode after its own
    test of the bounds. *)
Definition handle (e : event) (s : state) : state :=
  match e with
  | ClickPrev => show (_currentIndex s - 1) s
  | ClickNext => show (_currentIndex s + 1) s
  | KeyDown key =>
      if negb (modal_shown s) then s
      else if String.eqb key "ArrowLeft" then show (_currentIndex s - 1) s
      else if String.eqb key "ArrowRight" then show (_currentIndex s + 1) s
      else s
  | SwipeLeft => show (_currentIndex s + 1) s
  | SwipeRight => show (_currentIndex s - 1) s
  | HashChange hash =>
      let s0 := {| _photos := _photos s; _currentIndex := _currentIndex s;
                   _profile := _profile s;
                   _suppressHashChange := _suppressHashChange s;
                   location_hash := hash; modal_shown := modal_shown s;
                   document := document s; images := images s |} in
      if _suppressHashChange s then s0
      else if starts_with "#photo=" hash
      then
        let idx := indexBySlug (hash_slug hash) s0 in
        if negb (idx =? -1)%Z
        then if modal_shown s0 then show idx s0 else open idx s0
        else s0
      else if modal_shown s0 then hidden s0 else s0
  | ModalHidden => hidden s
  | AnimationFrame =>
      {| _photos := _photos s; _currentIndex := _currentIndex s;
         _profile := _profile s; _suppressHashChange := false;
         location_hash := location_hash s; modal_shown := modal_shown s;
         document := document s; images := images s |}
  end.

(** The state [init] builds before its call of [checkHash], for a page
    loaded with the fragment [hash]. *)
Definition loaded (photos : list photo) (pr : profile) (hash : string)
    (blank : page) : state :=
  {| _photos := photos; _currentIndex := 0; _profile := pr;
     _suppressHashChange := false; location_hash := hash;
     modal_shown := false; document := blank; images := [] |}.

(** [init], on page load. *)
Definition init (photos : list photo) (pr : profile) (hash : string)
    (blank : page) : state :=
  checkHash (loaded photos pr hash blank).

(** The state after a sequence of events. *)
Definition after (events : list event) (s : state) : state :=
  fold_left (fun st e => handle e st) events s.

End WithLocale.
End Lightbox.

(** ** Asynchronous functions and the requests they issue *)

Module Async.

(** What a page does on the network: a request is issued by [fetch], and
    settled when the promise of [fetch] resolves or rejects. *)
Inductive net :=
| Fetch (u : string)
| Settle (u : string).

Fixpoint remove_first (u : string) (l : list string) : list string :=
  match l with
  | [] => []
  | x :: r => if String.eqb x u then r else x :: remove_first u r
  end.

(** The requests in flight after one more network event. *)
Definition net_step (pending : list string) (e : net) : list string :=
  match e with
  | Fetch u => (pending ++ [u])%list
  | Settle u => remove_first u pending
  end.

(** The requests in flight after a sequence of network events. *)
Definition in_flight (trace : list net) : list string :=
  fold_left net_step trace [].

(** The largest number of requests in flight at once in the course of a
    sequence of network events that starts with [pending] in flight. *)
Fixpoint peak_from (pending : list string) (trace : list net) : nat :=
  match trace with
  | [] => length pending
  | e :: rest => Nat.max (length pending) (peak_from (net_step pending e) rest)
  end.

Definition peak (trace : list net) : nat := peak_from [] trace.

Definition is_settle (e : net) : bool :=
  match e with
  | Settle _ => true
  | Fetch _ => false
  end.

Section Tasks.
(** A parsed JSON document, and the variables that the functions write. *)
Variable doc : Type.
Variable store : Type.

(** What a request yields: [res.ok], and what [res.json()] resolves with,
    nothing when it rejects.  The network gives the response to each
    address, nothing when [fetch] rejects. *)
Record response := {
  ok : bool;
  body : option doc
}.

Definition network := string -> option response.

Definition fetch_result (N : network) (url : string) : option bool :=
  match N url with
  | Some r => Some (ok r)
  | None => None
  end.

Definition json_result (N : network) (url : string) : option doc :=
  match N url with
  | Some r => body r
  | None => None
  end.

(** The body of an [async] function that awaits requests one after the
    other: it returns; it writes variables and goes on; it calls
    [fetch(url)] and awaits the response, going on with [res.ok], or with
    nothing when the promise rejects; or it awaits [res.json()] of the
    response to [url], going on with the document, or with nothing when the
    promise rejects. *)
Inductive task (A : Type) : Type :=
| Return (a : A)
| Write (f : store -> store) (next : task A)
| AwaitFetch (url : string) (k : option bool -> task A)
| AwaitJson (url : string) (k : option doc -> task A).

Arguments Return {A} a.
Arguments Write {A} f next.
Arguments AwaitFetch {A} url k.
Arguments AwaitJson {A} url k.

(** A function runs without interruption up to its next [await]: the
    writes before it are done, and the request of a [fetch] is issued
    before the function is suspended. *)
Fixpoint advance (A : Type) (t : task A) (s : store)
    : list net * (task A * store) :=
  match t with
  | Write f next => advance next (f s)
  | AwaitFetch url _ => ([Fetch url], (t, s))
  | _ => ([], (t, s))
  end.

(** A suspended function goes on when the promise it awaits is settled, up
    to its next [await]. *)
Definition resume (N : network) (A : Type) (t : task A) (s : store)
    : list net * (task A * store) :=
  match t with
  | AwaitFetch url k =>
      let r := advance (k (fetch_result N url)) s in
      (Settle url :: fst r, snd r)
  | AwaitJson url k => advance (k (json_result N url)) s
  | _ => ([], (t, s))
  end.

(** The calls of [list.map((x) => f(x))] and of an array literal
    [[f(), g()]]: each function is called in turn and runs up to its first
    [await], where it hands back its promise. *)
Fixpoint call_all (A : Type) (ts : list (task A)) (s : store)
    : list net * (list (task A) * store) :=
  match ts with
  | [] => ([], ([], s))
  | t :: rest =>
      let r := advance t s in
      let r' := call_all rest (snd (snd r)) in
      (fst r ++ fst r', (fst (snd r) :: fst (snd r'), snd (snd r')))%list
  end.

Fixpoint replace_nth (A : Type) (i : nat) (x : A) (l : list A) : list A :=
  match l, i with
  | [], _ => []
  | _ :: r, 0 => x :: r
  | y :: r, S j => y :: replace_nth j x r
  end.

(** The promise that the function at [i] awaits is settled. *)
Definition settle (N : network) (A : Type) (i : nat) (pool : list (task A))
    (s : store) : list net * (list (task A) * store) :=
  match nth_error pool i with
  | Some t =>
      let r := resume N t s in
      (fst r, (replace_nth i (fst (snd r)) pool, snd (snd r)))
  | None => ([], (pool, s))
  end.

(** The suspended functions go on in the order in which their promises are
    settled, which is for the network to choose: [order] lists the
    positions of the functions that go on, one after the other. *)
Fixpoint run_pool (N : network) (A : Type) (order : list nat)
    (pool : list (task A)) (s : store) : list net * (list (task A) * store) :=
  match order with
  | [] => ([], (pool, s))
  | i :: rest =>
      let r := settle N i pool s in
      let r' := run_pool N rest (fst (snd r)) (snd (snd r)) in
      (fst r ++ fst r', snd r')%list
  end.

(** What [Promise.all] resolves with, once every function has returned. *)
Fixpoint results (A : Type) (pool : list (task A)) : option (list A) :=
  match pool with
  | [] => Some []
  | Return a :: rest =>
      match results rest with
      | Some l => Some (a :: l)
      | None => None
      end
  | _ :: _ => None
  end.

(** The value a function returns in the end. *)
Fixpoint outcome (N : network) (A : Type) (t : task A) : A :=
  match t with
  | Return a => a
  | Write _ next => outcome N next
  | AwaitFetch url k => outcome N (k (fetch_result N url))
  | AwaitJson url k => outcome N (k (json_result N url))
  end.

(** A function that issues no request any more, and one that awaits the
    answer to the one request it issues. *)
Inductive quiet (A : Type) : task A -> Prop :=
| quiet_return (a : A) : quiet (Return a)
| quiet_write (f : store -> store) (next : task A) :
    quiet next -> quiet (Write f next)
| quiet_json (url : string) (k : option doc -> task A) :
    (forall d, quiet (k d)) -> quiet (AwaitJson url k).

Definition one_request (A : Type) (u : string) (t : task A) : Prop :=
  exists k, t = AwaitFetch u k /\ forall r, quiet (k r).

Definition calm (A : Type) (t : task A) : Prop :=
  quiet t \/ exists u, one_request u t.

(** The body of an [async] function that also awaits
    [Promise.all(...)] of the promises of functions it has called. *)
Inductive main (R A : Type) : Type :=
| Finish (a : A)
| Do (f : store -> store) (next : main R A)
| Fetching (url : string) (k : option bool -> main R A)
| Parsing (url : string) (k : option doc -> main R A)
| All (children : list (task R)) (k : list R -> main R A).

Arguments Finish {R A} a.
Arguments Do {R A} f next.
Arguments Fetching {R A} url k.
Arguments Parsing {R A} url k.
Arguments All {R A} children k.

(** The run of such a function: the network events, the value it returns
    (none when it stays suspended, a promise it awaits never being
    settled) and the variables.  The functions of a [Promise.all] are all
    called before the function is suspended, and go on while it is; [orders]
    gives, for each [Promise.all], the order in which the network settles the
    promises. *)
Fixpoint exec (N : network) (R A : Type) (m : main R A)
    (orders : list (list nat)) (s : store) : list net * (option A * store) :=
  match m with
  | Finish a => ([], (Some a, s))
  | Do f next => exec N next orders (f s)
  | Fetching url k =>
      let r := exec N (k (fetch_result N url)) orders s in
      (Fetch url :: Settle url :: fst r, snd r)
  | Parsing url k => exec N (k (json_result N url)) orders s
  | All children k =>
      let c := call_all children s in
      let p := run_pool N (hd [] orders) (fst (snd c)) (snd (snd c)) in
      match results (fst (snd p)) with
      | Some rs =>
          let r := exec N (k rs) (tl orders) (snd (snd p)) in
          (fst c ++ fst p ++ fst r, snd r)%list
      | None => ((fst c ++ fst p)%list, (None, snd (snd p)))
      end
  end.

End Tasks.

Arguments Return {doc store A} a.
Arguments Write {doc store A} f next.
Arguments AwaitFetch {doc store A} url k.
Arguments AwaitJson {doc store A} url k.
Arguments Finish {doc store R A} a.
Arguments Do {doc store R A} f next.
Arguments Fetching {doc store R A} url k.
Arguments Parsing {doc store R A} url k.
Arguments All {doc store R A} children k.

End Async.

(** ** [js/lightbox.js]: PalgramModule *)

Module Palgram.
Import Text Lightbox Async.

Definition PALS_URL : string := "palgram/pals.json".

(** An element of the [pals] array of [palgram/pals.json]. *)
Record pal := { url : string }.

Fixpoint ends_with_slash (s : string) : bool :=
  match s with
  | EmptyString => false
  | String c EmptyString => Ascii.eqb c "/"
  | String _ r => ends_with_slash r
  end.

(** [base] of [fetchPal]: the address of the pal's site, with a slash at
    its end. *)
Definition base (palUrl : string) : string :=
  if ends_with_slash palUrl then palUrl else palUrl ++ "/".

(** The address [fetchPal] requests. *)
Definition jsonUrl (palUrl : string) : string :=
  base palUrl ++ "data/photos.json".

(** A JSON file that the module fetches, [palgram/pals.json] or the
    [data/photos.json] of a pal, with the keys it reads; a key that is
    missing reads as the default the module puts in its place, [[]] for
    [pals] and [photos] and [{}] for [profile]. *)
Record remote := {
  remote_pals : list pal;
  remote_profile : profile;
  remote_photos : list photo
}.

(** The photo object with the three keys that the module attaches. *)
Definition tagged (p : photo) (palUsername palAvatar palBaseUrl : string) : photo :=
  {| filename := filename p; slug := slug p; web := web p; caption := caption p;
     date := date p; camera := camera p; lens := lens p;
     settings := settings p; location := location p;
     _palBaseUrl := palBaseUrl; _palUsername := palUsername;
     _palAvatar := palAvatar |}.

(** What [fetchPal] returns for the document of a pal. *)
Definition pal_photos (palUrl : string) (data : remote) : list photo :=
  map (fun photo =>
         tagged photo
           (or_else (username (remote_profile data)) "unknown")
           (base palUrl
            ++ or_else (profilePhoto (remote_profile data)) "assets/profile.jpg")
           (base palUrl))
      (remote_photos data).

(** [fetchPal]: the request is issued before the first [await]; a promise
    that rejects and an answer that is not [ok] end in the [catch], which
    returns no photo. *)
Definition fetchPal (palUrl : string) : task remote unit (list photo) :=
  AwaitFetch (jsonUrl palUrl) (fun res =>
    match res with
    | Some true =>
        AwaitJson (jsonUrl palUrl) (fun data =>
          match data with
          | Some data => Return (pal_photos palUrl data)
          | None => Return []
          end)
    | _ => Return []
    end).

(** What [fetchPal] returns, given the document its request yields, if
    any. *)
Definition fetched (palUrl : string) (res : option remote) : list photo :=
  match res with
  | None => []
  | Some data => pal_photos palUrl data
  end.

(** The document at an address: the body of an answer that is [ok]. *)
Definition answer (N : network remote) (u : string) : option remote :=
  match N u with
  | Some r => if ok r then body r else None
  | None => None
  end.

(** The pals that [init] finds: those of [palgram/pals.json], none when the
    file cannot be had. *)
Definition pals_found (N : network remote) : list pal :=
  match answer N PALS_URL with
  | Some data => remote_pals data
  | None => []
  end.

(** The own photos as [init] tags them. *)
Definition own (ownPhotos : list photo) (ownProfile : profile) : list photo :=
  map (fun p => tagged p (or_else (username ownProfile) "you")
                  (or_else (profilePhoto ownProfile) "assets/profile.jpg") "")
      ownPhotos.

Section WithClock.
(** [new Date(dateStr)] as a number of milliseconds; nothing for an invalid
    date. *)
Variable Date_ms : string -> option Z.

Definition time_of (p : photo) : option Z :=
  if truthy (date p) then Date_ms (date p) else Some 0%Z.

(** The comparator [(a, b) => db - da]; nothing stands for [NaN]. *)
Definition newest_first (a b : photo) : option Z :=
  match time_of a, time_of b with
  | Some da, Some db => Some (db - da)%Z
  | _, _ => None
  end.

(** [Array.prototype.sort] with a comparator: a stable sort, in which [x]
    goes behind [y] when the comparator yields a positive number for
    them ([NaN] counts as zero).  The elements are inserted from the right.
    With a comparator that is no consistent order (here, when a date is
    invalid) the language leaves the order to the browser; the model then
    yields one of the possible orders. *)
Fixpoint insert_sorted (A : Type) (comparefn : A -> A -> option Z) (x : A)
    (l : list A) : list A :=
  match l with
  | [] => [x]
  | y :: r =>
      match comparefn x y with
      | Some v => if (0 <? v)%Z then y :: insert_sorted comparefn x r else x :: l
      | None => x :: l
      end
  end.

Definition sort (A : Type) (comparefn : A -> A -> option Z) (l : list A) : list A :=
  fold_right (insert_sorted comparefn) [] l.

(** [own.concat(palResults.flat())], sorted. *)
Definition merged (own : list photo) (palResults : list (list photo)) : list photo :=
  sort newest_first (own ++ concat palResults).

(** [init], on its first call; it returns [_allPhotos], which [render]
    shows. *)
Definition init (ownPhotos : list photo) (ownProfile : profile)
    : main remote unit (list photo) (list photo) :=
  let own := own ownPhotos ownProfile in
  let fetch_all (pals : list pal) :=
    All (map (fun pal => fetchPal (url pal)) pals)
      (fun palResults => Finish (merged own palResults)) in
  Fetching PALS_URL (fun res =>
    match res with
    | Some true =>
        Parsing PALS_URL (fun data =>
          match data with
          | Some data => fetch_all (remote_pals data)
          | None => fetch_all []
          end)
    | _ => fetch_all []
    end).

(** [_allPhotos] as [init] leaves it, given each pal of [pals.json] with
    the document that the request of its photos yields, if any. *)
Definition allPhotos (ownPhotos : list photo) (ownProfile : profile)
    (found : list (pal * option remote)) : list photo :=
  merged (own ownPhotos ownProfile)
    (map (fun pr => fetched (url (fst pr)) (snd pr)) found).

(** A pal whose file could be fetched. *)
Definition answered (pr : pal * option remote) : bool :=
  match snd pr with Some _ => true | None => false end.

(** [a] is not older than [b], both dates being valid. *)
Definition not_older (a b : photo) : bool :=
  match time_of a, time_of b with
  | Some ta, Some tb => (tb <=? ta)%Z
  | _, _ => false
  end.

End WithClock.

(** [sharePhoto] of the feed. *)
Definition sharePhoto (origin pathname : string) (p : photo) : string :=
  if negb (truthy (_palBaseUrl p))
  then origin ++ pathname ++ "#photo=" ++ slugFor p
  else _palBaseUrl p ++ "#photo=" ++ slugFor p.

(** The click on the photo of the card with [data-index] [idx]. *)
Definition photo_click (formatDate : string -> string) (_allPhotos : list photo)
    (idx : nat) (s : state) : state :=
  match nth_error _allPhotos idx with
  | Some _ => open formatDate (Z.of_nat idx) (setPhotos _allPhotos s)
  | None => s
  end.

End Palgram.

(** ** [js/admin.js]: the album editor *)

Module Admin.
Import Text Manifest.

Definition alnum (c : ascii) : bool := is_lower c || is_digit c.

(** [replace(/[^a-z0-9]+/g, "-")]: each run of other characters becomes one
    hyphen, written at the last character of the run. *)
Fixpoint dash_runs (s : string) : string :=
  match s with
  | EmptyString => EmptyString
  | String c r =>
      if alnum c then String c (dash_runs r)
      else match r with
           | EmptyString => "-"
           | String d _ => if alnum d then String "-"%char (dash_runs r)
                           else dash_runs r
           end
  end.

(** [slugify]. *)
Definition slugify (text : string) : string :=
  strip_edges true (squeeze (dash_runs (lower text))).

(** [String.prototype.trim], on ASCII white space. *)
Fixpoint trim_start (s : string) : string :=
  match s with
  | String c r => if is_space c then trim_start r else s
  | EmptyString => EmptyString
  end.

Fixpoint trim_end (s : string) : string :=
  match s with
  | EmptyString => EmptyString
  | String c r =>
      let r' := trim_end r in
      if is_space c && String.eqb r' "" then EmptyString else String c r'
  end.

Definition trim (s : string) : string := trim_end (trim_start s).

(** The fields of the album form. *)
Record form := {
  albumTitle : string;
  albumDesc : string;
  albumCoverSelect : string
}.

Record state := {
  _photosData : manifest;
  _editingAlbumIndex : Z;
  _selectedPhotos : list string;
  inputs : form;
  toasts : list string
}.

Definition truthy (s : string) : bool := negb (String.eqb s "").

(** [while (_photosData.albums.some((a) => a.id === uniqueId))
       uniqueId = id + "-" + counter++;].
    The fuel bounds the number of tests; [unique_id_fresh] shows that one
    more than the number of albums is enough. *)
Fixpoint unique_id (ids : list string) (id : string) (fuel : nat)
    (uniqueId : string) (counter : nat) : string :=
  match fuel with
  | 0 => uniqueId
  | S fuel' =>
      if mem uniqueId ids
      then unique_id ids id fuel' (id ++ "-" ++ decimal counter) (S counter)
      else uniqueId
  end.

(** The ids the loop of [saveAlbum] tries, in turn: [id], [id-2], [id-3],
    ... *)
Definition candidate (id : string) (k : nat) : string :=
  match k with
  | 0 => id
  | S _ => id ++ "-" ++ decimal (S k)
  end.

(** [resetAlbumForm]. *)
Definition resetAlbumForm (s : state) : state :=
  {| _photosData := _photosData s; _editingAlbumIndex := (-1)%Z;
     _selectedPhotos := [];
     inputs := {| albumTitle := ""; albumDesc := ""; albumCoverSelect := "" |};
     toasts := toasts s |}.

Definition showToast (message : string) (s : state) : state :=
  {| _photosData := _photosData s; _editingAlbumIndex := _editingAlbumIndex s;
     _selectedPhotos := _selectedPhotos s; inputs := inputs s;
     toasts := toasts s ++ [message] |}.

Definition set_albums (al : list album) (s : state) : state :=
  {| _photosData := with_albums (_photosData s) al;
     _editingAlbumIndex := _editingAlbumIndex s;
     _selectedPhotos := _selectedPhotos s; inputs := inputs s;
     toasts := toasts s |}.

(** The album at [index] with the fields of the form; its [id] stays. *)
Fixpoint update_at (index : nat) (f : album -> album) (l : list album) : list album :=
  match l, index with
  | [], _ => []
  | a :: r, 0 => f a :: r
  | a :: r, S i => a :: update_at i f r
  end.

(** [saveAlbum], at the time [now] of [Date.now()]. *)
Definition saveAlbum (now : nat) (s : state) : state :=
  let title := trim (albumTitle (inputs s)) in
  if negb (truthy title) then showToast "Album title is required" s
  else
    let description := trim (albumDesc (inputs s)) in
    let selectedArr := _selectedPhotos s in
    let coverValue := albumCoverSelect (inputs s) in
    let cover := if truthy coverValue then coverValue
                 else match selectedArr with x :: _ => x | [] => "" end in
    let albums := Manifest.albums (_photosData s) in
    if (0 <=? _editingAlbumIndex s)%Z
    then
      match nth_error albums (Z.to_nat (_editingAlbumIndex s)) with
      | None => s
      | Some _ =>
          resetAlbumForm
            (showToast "Album updated — download photos.json to save"
               (set_albums
                  (update_at (Z.to_nat (_editingAlbumIndex s))
                     (fun a => {| id := id a; title := title;
                                  description := description; cover := cover;
                                  album_photos := selectedArr |})
                     albums) s))
      end
    else
      let id := if truthy (slugify title) then slugify title
                else "album-" ++ decimal now in
      let uniqueId := unique_id (map Manifest.id albums) id
                        (S (length albums)) id 2 in
      resetAlbumForm
        (showToast "Album created — download photos.json to save"
           (set_albums
              (albums ++ [ {| Manifest.id := uniqueId; Manifest.title := title;
                              description := description; cover := cover;
                              album_photos := selectedArr |} ]) s)).

End Admin.

(** ** [js/admin.js]: the pals, the albums, the profile and the download *)

Module AdminPage.
Import Text Manifest Admin.

(** *** The pals *)

(** [array.splice(index, 1)]: a negative index counts from the end, an
    index beyond the end removes nothing. *)
Definition splice1 (A : Type) (index : Z) (l : list A) : list A :=
  let len := Z.of_nat (length l) in
  let start := if (index <? 0)%Z then Z.max (len + index) 0 else Z.min index len in
  (firstn (Z.to_nat start) l ++ skipn (S (Z.to_nat start)) l)%list.

(** [_palsData.pals], the field for a new address, and the toasts shown. *)
Record pals_panel := {
  _palsData : list Palgram.pal;
  newPalUrl : string;
  pal_toasts : list string
}.

(** [addPal]. *)
Definition addPal (s : pals_panel) : pals_panel :=
  let url := trim (newPalUrl s) in
  if negb (truthy url) then s
  else
    let url := if negb (starts_with "http://" url) && negb (starts_with "https://" url)
               then "https://" ++ url else url in
    if existsb (fun p => String.eqb (Palgram.url p) url) (_palsData s)
    then {| _palsData := _palsData s; newPalUrl := newPalUrl s;
            pal_toasts := pal_toasts s ++ ["This URL is already in your pals list"] |}
    else {| _palsData := _palsData s ++ [ {| Palgram.url := url |} ];
            newPalUrl := "";
            pal_toasts := pal_toasts s ++ ["Pal added — download pals.json to save"] |}.

(** [removePal]. *)
Definition removePal (index : Z) (s : pals_panel) : pals_panel :=
  {| _palsData := splice1 index (_palsData s); newPalUrl := newPalUrl s;
     pal_toasts := pal_toasts s ++ ["Pal removed — download pals.json to save"] |}.

(** What happens in the pals section: the visitor types an address, clicks
    the button to add it (or presses Enter), or clicks the button to remove
    the pal at an index. *)
Inductive pal_event :=
| TypePalUrl (text : string)
| ClickAddPal
| ClickRemovePal (index : Z).

Definition pal_handle (e : pal_event) (s : pals_panel) : pals_panel :=
  match e with
  | TypePalUrl text =>
      {| _palsData := _palsData s; newPalUrl := text; pal_toasts := pal_toasts s |}
  | ClickAddPal => addPal s
  | ClickRemovePal index => removePal index s
  end.

Definition pal_after (events : list pal_event) (s : pals_panel) : pals_panel :=
  fold_left (fun st e => pal_handle e st) events s.

(** An address with a scheme. *)
Definition has_scheme (url : string) : bool :=
  starts_with "http://" url || starts_with "https://" url.

(** *** The albums *)

(** [new Set(array)], as the array of its elements: each element once, at
    the place of its first occurrence. *)
Definition set_add (x : string) (l : list string) : list string :=
  if mem x l then l else (l ++ [x])%list.

Definition set_of (l : list string) : list string :=
  fold_left (fun acc x => set_add x acc) l [].

Definition set_delete (x : string) (l : list string) : list string :=
  filter (fun y => negb (String.eqb y x)) l.

Definition set_inputs (f : form) (s : state) : state :=
  {| _photosData := _photosData s; _editingAlbumIndex := _editingAlbumIndex s;
     _selectedPhotos := _selectedPhotos s; inputs := f; toasts := toasts s |}.

(** The value of the cover dropdown once its options are rebuilt from the
    selected photos, or once a value is assigned to it: the value asked for
    if it is the value of an option, the first option (Auto, the empty
    value) otherwise. *)
Definition cover_option (wanted : string) (options : list string) : string :=
  if mem wanted options then wanted else "".

(** [_photosData.albums[index]]. *)
Definition album_at (s : state) (index : Z) : option album :=
  if (index <? 0)%Z then None
  else nth_error (albums (_photosData s)) (Z.to_nat index).

(** The options of the cover dropdown besides Auto, as
    [renderPhotoSelector] and [updateCoverDropdown] build them: the selected
    photos, or none when there is no photo at all (and so no photo to
    click). *)
Definition cover_options (d : manifest) (selected : list string) : list string :=
  match photos d with
  | [] => []
  | _ => selected
  end.

(** [editAlbum]. *)
Definition editAlbum (index : Z) (s : state) : state :=
  match album_at s index with
  | None => s
  | Some album =>
      let selected := set_of (album_photos album) in
      {| _photosData := _photosData s; _editingAlbumIndex := index;
         _selectedPhotos := selected;
         inputs := {| albumTitle := title album; albumDesc := description album;
                      albumCoverSelect :=
                        cover_option (cover album)
                          (cover_options (_photosData s) selected) |};
         toasts := toasts s |}
  end.

(** [deleteAlbum]. *)
Definition deleteAlbum (index : Z) (s : state) : state :=
  if (0 <=? index)%Z && (index <? Z.of_nat (length (albums (_photosData s))))%Z
  then
    let removed := album_at s index in
    let s1 := showToast
                ((match removed with
                  | Some a => if truthy (title a) then title a else "Album"
                  | None => "Album"
                  end) ++ " deleted — download to save")
                (set_albums (splice1 index (albums (_photosData s))) s) in
    if (_editingAlbumIndex s =? index)%Z then resetAlbumForm s1 else s1
  else s.

(** The click on a photo of the selector: the photo is taken into the
    selection or out of it, and [updateCoverDropdown] rebuilds the options
    of the cover dropdown. *)
Definition toggle (fn : string) (s : state) : state :=
  let selected := if mem fn (_selectedPhotos s)
                  then set_delete fn (_selectedPhotos s)
                  else (_selectedPhotos s ++ [fn])%list in
  {| _photosData := _photosData s; _editingAlbumIndex := _editingAlbumIndex s;
     _selectedPhotos := selected;
     inputs := {| albumTitle := albumTitle (inputs s);
                  albumDesc := albumDesc (inputs s);
                  albumCoverSelect :=
                    cover_option (albumCoverSelect (inputs s)) selected |};
     toasts := toasts s |}.

(** What happens in the albums section, while the photos of the data stay
    as they are: the visitor types a title or a description, picks an option
    of the cover dropdown, clicks a photo of the selector (there is one for
    each photo of the data), or clicks Edit, Delete (and confirms), Save or
    Cancel. *)
Inductive album_event :=
| TypeTitle (text : string)
| TypeDesc (text : string)
| PickCover (value : string)
| ClickPhoto (fn : string)
| ClickEdit (index : Z)
| ConfirmDelete (index : Z)
| ClickSave (now : nat)
| ClickCancel.

Definition album_handle (e : album_event) (s : state) : state :=
  match e with
  | TypeTitle text =>
      set_inputs {| albumTitle := text; albumDesc := albumDesc (inputs s);
                    albumCoverSelect := albumCoverSelect (inputs s) |} s
  | TypeDesc text =>
      set_inputs {| albumTitle := albumTitle (inputs s); albumDesc := text;
                    albumCoverSelect := albumCoverSelect (inputs s) |} s
  | PickCover value =>
      set_inputs {| albumTitle := albumTitle (inputs s);
                    albumDesc := albumDesc (inputs s);
                    albumCoverSelect :=
                      cover_option value
                        (cover_options (_photosData s) (_selectedPhotos s)) |} s
  | ClickPhoto fn =>
      if mem fn (map filename (photos (_photosData s))) then toggle fn s else s
  | ClickEdit index => editAlbum index s
  | ConfirmDelete index => deleteAlbum index s
  | ClickSave now => saveAlbum now s
  | ClickCancel => resetAlbumForm s
  end.

Definition album_after (events : list album_event) (s : state) : state :=
  fold_left (fun st e => album_handle e st) events s.

(** An album as the editor leaves it: no photo twice, and a cover that is
    one of its photos, or none for an album without photos. *)
Definition tidy_album (a : album) : Prop :=
  NoDup (album_photos a)
  /\ (In (cover a) (album_photos a) \/ (cover a = "" /\ album_photos a = [])).

(** The editor is in order: no two albums share an id, every album is tidy,
    no photo is selected twice, and the cover dropdown shows Auto or one of
    the selected photos. *)
Definition panel_ok (s : state) : Prop :=
  NoDup (map id (albums (_photosData s)))
  /\ Forall tidy_album (albums (_photosData s))
  /\ NoDup (_selectedPhotos s)
  /\ (albumCoverSelect (inputs s) = ""
      \/ In (albumCoverSelect (inputs s)) (_selectedPhotos s)).

(** *** The profile and the download *)

Record profile_form := {
  profUsername : string;
  profFullName : string;
  profBio : string;
  profBioLink : string;
  profPhoto : string
}.

(** [populateProfileForm]. *)
Definition populateProfileForm (p : list (string * string)) : profile_form :=
  {| profUsername := profile_key "username" p;
     profFullName := profile_key "fullName" p;
     profBio := profile_key "bio" p;
     profBioLink := profile_key "bioLink" p;
     profPhoto := profile_key "profilePhoto" p |}.

(** [object.key = value]: the key keeps its place if the object has it, and
    is added at the end otherwise. *)
Fixpoint set_key (k v : string) (p : list (string * string)) : list (string * string) :=
  match p with
  | [] => [(k, v)]
  | (k', v') :: r => if String.eqb k k' then (k, v) :: r
                     else (k', v') :: set_key k v r
  end.

(** [readProfileForm]. *)
Definition readProfileForm (f : profile_form) (p : list (string * string))
    : list (string * string) :=
  set_key "profilePhoto" (trim (profPhoto f))
    (set_key "bioLink" (trim (profBioLink f))
       (set_key "bio" (trim (profBio f))
          (set_key "fullName" (trim (profFullName f))
             (set_key "username" (trim (profUsername f)) p)))).

(** A JSON document that is an object, with the keys that the page reads
    of [photos.json] and of [pals.json], each of which may be missing. *)
Record document := {
  doc_profile : option (list (string * string));
  doc_photos : option (list photo);
  doc_albums : option (list album);
  doc_pals : option (list Palgram.pal)
}.

(** [buildPhotosJSON]: the data with the profile of the form, and the
    document that is downloaded, which has no [albums] key when there is no
    album. *)
Definition buildPhotosJSON (f : profile_form) (d : manifest) : manifest * document :=
  let d' := {| profile := readProfileForm f (profile d); photos := photos d;
               albums := albums d |} in
  (d', {| doc_profile := Some (profile d'); doc_photos := Some (photos d');
          doc_albums := match albums d' with
                        | [] => None
                        | al => Some al
                        end;
          doc_pals := None |}).

(** What [loadPhotosJSON] stores in [_photosData] for a document that was
    fetched, and [loadPalsJSON] in [_palsData.pals]. *)
Definition stored_photos (doc : document) : manifest :=
  {| profile := match doc_profile doc with Some p => p | None => [] end;
     photos := match doc_photos doc with Some ps => ps | None => [] end;
     albums := match doc_albums doc with Some al => al | None => [] end |}.

Definition stored_pals (doc : document) : list Palgram.pal :=
  match doc_pals doc with Some l => l | None => [] end.

(** What is typed is a text of ASCII characters. *)
Definition pal_typed_ascii (e : pal_event) : bool :=
  match e with
  | TypePalUrl text => sforall is_ascii text
  | _ => true
  end.

Definition album_typed_ascii (e : album_event) : bool :=
  match e with
  | TypeTitle text | TypeDesc text => sforall is_ascii text
  | _ => true
  end.

Definition form_ascii (f : profile_form) : bool :=
  sforall is_ascii (profUsername f) && sforall is_ascii (profFullName f)
  && sforall is_ascii (profBio f) && sforall is_ascii (profBioLink f)
  && sforall is_ascii (profPhoto f).

(** The keys of the profile that the form holds. *)
Definition form_keys : list string :=
  ["username"; "fullName"; "bio"; "bioLink"; "profilePhoto"].

End AdminPage.

(** ** [js/admin.js]: the loading of the two files *)

Module AdminStart.
Import Text Manifest Async.

(** The two variables that the loading writes, and the toasts shown. *)
Record variables := {
  _photosData : manifest;
  _palsData : list Palgram.pal;
  toasts : list string
}.

(** The variables as they are declared. *)
Definition declared : variables :=
  {| _photosData := {| profile := []; photos := []; albums := [] |};
     _palsData := []; toasts := [] |}.

Definition showToast (message : string) (v : variables) : variables :=
  {| _photosData := _photosData v; _palsData := _palsData v;
     toasts := toasts v ++ [message] |}.

Definition set_photosData (d : manifest) (v : variables) : variables :=
  {| _photosData := d; _palsData := _palsData v; toasts := toasts v |}.

Definition set_palsData (l : list Palgram.pal) (v : variables) : variables :=
  {| _photosData := _photosData v; _palsData := l; toasts := toasts v |}.

(** [loadPhotosJSON]: a promise that rejects and an answer that is not [ok]
    end in the [catch]. *)
Definition loadPhotosJSON : task AdminPage.document variables unit :=
  let failed := Write (showToast "Could not load photos.json") (Return tt) in
  AwaitFetch "data/photos.json" (fun res =>
    match res with
    | Some true =>
        AwaitJson "data/photos.json" (fun data =>
          match data with
          | Some data =>
              Write (set_photosData (AdminPage.stored_photos data)) (Return tt)
          | None => failed
          end)
    | _ => failed
    end).

(** [loadPalsJSON]. *)
Definition loadPalsJSON : task AdminPage.document variables unit :=
  let failed := Write (showToast "Could not load pals.json") (Return tt) in
  AwaitFetch "palgram/pals.json" (fun res =>
    match res with
    | Some true =>
        AwaitJson "palgram/pals.json" (fun data =>
          match data with
          | Some data =>
              Write (set_palsData (AdminPage.stored_pals data)) (Return tt)
          | None => failed
          end)
    | _ => failed
    end).

(** The start of the page: [await Promise.all([loadPhotosJSON(),
    loadPalsJSON()])]; what follows it (the form is filled, the lists are
    rendered, the listeners are set) issues no request. *)
Definition start : main AdminPage.document variables unit unit :=
  All [loadPhotosJSON; loadPalsJSON] (fun _ => Finish tt).

End AdminStart.

(** ** Inputs for the examples *)

Module Examples.
Import Text Manifest.

(** A camera-less photo taken on the first of May. *)
Definition dated : ProcessPhotos.exif :=
  {| ProcessPhotos.DateTimeOriginal := Some "2024-05-01T10:00:00";
     ProcessPhotos.CreateDate := None; ProcessPhotos.ModifyDate := None;
     ProcessPhotos.Make := ""; ProcessPhotos.Model := "";
     ProcessPhotos.LensModel := ""; ProcessPhotos.FocalLength := "";
     ProcessPhotos.FNumber := ""; ProcessPhotos.ExposureTime := "";
     ProcessPhotos.ISO := ""; ProcessPhotos.GPSLatitude := "";
     ProcessPhotos.GPSLongitude := ""; ProcessPhotos.ImageWidth := "";
     ProcessPhotos.ImageHeight := "" |}.

(** Every program succeeds. *)
Definition all_ok : ProcessPhotos.tools :=
  {| ProcessPhotos.exiftool := fun _ => dated;
     ProcessPhotos.stat_mtime := fun _ => "2024-05-02T08:00:00";
     ProcessPhotos.nominatim := fun _ _ => "";
     ProcessPhotos.magick := fun _ _ => true |}.




Definition item (u : string) : ImportInstagram.ig_media :=
  {| ImportInstagram.uri := u; ImportInstagram.item_title := "";
     ImportInstagram.item_creation_timestamp := "" |}.


(** A local photo with the file name [f] and the slug [sl] (empty: no
    [slug] key). *)
Definition photo_named (f sl : string) : Lightbox.photo :=
  {| Lightbox.filename := f; Lightbox.slug := sl;
     Lightbox.web := chop_ext f ++ ".webp"; Lightbox.caption := "";
     Lightbox.date := "2024-05-01T10:00:00"; Lightbox.camera := "";
     Lightbox.lens := ""; Lightbox.settings := ""; Lightbox.location := "";
     Lightbox._palBaseUrl := ""; Lightbox._palUsername := "";
     Lightbox._palAvatar := "" |}.

Definition blank_page : Lightbox.page :=
  {| Lightbox.lightboxPhoto_src := ""; Lightbox.lightboxPhoto_alt := "";
     Lightbox.lightboxPhoto_crossorigin := false; Lightbox.avatar_src := "";
     Lightbox.avatar_crossorigin := false; Lightbox.username_text := "";
     Lightbox.lightboxCaption := ""; Lightbox.lightboxDate := "";
     Lightbox.lightboxMeta := ""; Lightbox.viewPal_href := "";
     Lightbox.viewPal_html := ""; Lightbox.viewPal_hidden := true;
     Lightbox.lightboxPrev_display := ""; Lightbox.lightboxNext_display := "" |}.

Definition nobody : Lightbox.profile :=
  {| Lightbox.profilePhoto := ""; Lightbox.username := "" |}.

(** Three photos, the last without [slug]. *)
Definition three : list Lightbox.photo :=
  [photo_named "a.jpg" "a"; photo_named "b.jpg" "b"; photo_named "c.jpg" ""].

(** The two entries that process-photos.sh makes of [a.jpg] and [a.png]. *)
Definition twins : list Lightbox.photo :=
  [photo_named "a.jpg" "a"; photo_named "a.png" "a"].

Definition album_with_id (i : string) : album :=
  {| id := i; title := i; description := ""; cover := ""; album_photos := [] |}.

(** The album editor with three albums, about to create one titled Trip. *)
Definition trips : Admin.state :=
  {| Admin._photosData :=
       {| profile := []; photos := [];
          albums := [album_with_id "trip"; album_with_id "trip-2";
                     album_with_id "x"] |};
     Admin._editingAlbumIndex := (-1)%Z;
     Admin._selectedPhotos := ["a.jpg"];
     Admin.inputs := {| Admin.albumTitle := " Trip! "; Admin.albumDesc := "d";
                        Admin.albumCoverSelect := "" |};
     Admin.toasts := [] |}.

End Examples.

(** * Properties *)

Unset Implicit Arguments.

(** ** Strings *)

Module TextFacts.
Import Text.

Lemma mem_In (x : string) (l : list string) : mem x l = true <-> In x l.
Proof.
  unfold mem. rewrite existsb_exists. split.
  - intros [y [Hy E]]. apply String.eqb_eq in E. now subst.
  - intros H. exists x. split; [assumption | apply String.eqb_refl].
Qed.

Lemma mem_false (x : string) (l : list string) : mem x l = false <-> ~ In x l.
Proof.
  rewrite <- mem_In. destruct (mem x l); split; congruence.
Qed.

Lemma append_nil_r (s : string) : s ++ "" = s.
Proof. induction s; simpl; congruence. Qed.

Lemma append_assoc (a b c : string) : (a ++ b) ++ c = a ++ (b ++ c).
Proof. induction a; simpl; congruence. Qed.

Lemma length_append (a b : string) :
  String.length (a ++ b) = String.length a + String.length b.
Proof. induction a; simpl; congruence. Qed.

Lemma append_cancel_l (a b c : string) : a ++ b = a ++ c -> b = c.
Proof. induction a; simpl; intros H; [assumption | injection H; auto]. Qed.

Lemma append_cancel_r (a b c : string) : a ++ c = b ++ c -> a = b.
Proof.
  revert b. induction a as [|x a IH]; intros [|y b] H; simpl in H.
  - reflexivity.
  - apply (f_equal String.length) in H. simpl in H.
    rewrite length_append in H. lia.
  - apply (f_equal String.length) in H. simpl in H.
    rewrite length_append in H. lia.
  - injection H as -> H. f_equal. now apply IH.
Qed.

(** Decimal numerals. *)
Lemma decimal_inj (n m : nat) : decimal n = decimal m -> n = m.
Proof.
  unfold decimal. intros H.
  assert (E : Some (Nat.to_uint n) = Some (Nat.to_uint m)).
  { rewrite <- !NilEmpty.usu. now rewrite H. }
  injection E as E. rewrite <- (Unsigned.of_to n), <- (Unsigned.of_to m).
  now rewrite E.
Qed.

Lemma string_of_uint_digits (d : uint) :
  sforall is_digit (NilEmpty.string_of_uint d) = true.
Proof. induction d; simpl; auto. Qed.

Lemma decimal_digits (n : nat) : sforall is_digit (decimal n) = true.
Proof. apply string_of_uint_digits. Qed.

Lemma decimal_head (n : nat) :
  exists c r, decimal n = String c r /\ is_digit c = true.
Proof.
  pose proof (decimal_digits n) as D.
  destruct (decimal n) as [|c r] eqn:E.
  - exfalso. unfold decimal in E.
    assert (U : Some (Nat.to_uint n) = Some Nil).
    { rewrite <- NilEmpty.usu, E. reflexivity. }
    injection U as U.
    assert (Z : n = 0) by (rewrite <- (Unsigned.of_to n), U; reflexivity).
    subst n. discriminate U.
  - exists c, r. split; [reflexivity |].
    simpl in D. now apply andb_prop in D.
Qed.

Lemma digit_not_flag (c : ascii) : is_digit c = true -> echo_flag_char c = false.
Proof.
  unfold is_digit, between, echo_flag_char. intros H.
  apply andb_prop in H. destruct H as [H1 H2].
  apply Nat.leb_le in H1, H2.
  destruct (Ascii.eqb_spec c "n") as [->|_]; [cbv in H2; lia |].
  destruct (Ascii.eqb_spec c "e") as [->|_]; [cbv in H2; lia |].
  destruct (Ascii.eqb_spec c "E") as [->|_]; [cbv in H2; lia |].
  reflexivity.
Qed.

Lemma digit_not_dot (c : ascii) : is_digit c = true -> is_dot c = false.
Proof.
  unfold is_digit, between, is_dot. intros H.
  apply andb_prop in H. destruct H as [H1 H2].
  apply Nat.leb_le in H1, H2.
  destruct (Ascii.eqb_spec c ".") as [->|_]; [cbv in H1; lia | reflexivity].
Qed.

Lemma digit_not_hyphen (c : ascii) : is_digit c = true -> is_hyphen c = false.
Proof.
  unfold is_digit, between, is_hyphen. intros H.
  apply andb_prop in H. destruct H as [H1 H2].
  apply Nat.leb_le in H1, H2.
  destruct (Ascii.eqb_spec c "-") as [->|_]; [cbv in H1; lia | reflexivity].
Qed.

Lemma is_hyphen_eq (c : ascii) : is_hyphen c = true -> c = "-"%char.
Proof. apply Ascii.eqb_eq. Qed.

Lemma is_dot_eq (c : ascii) : is_dot c = true -> c = "."%char.
Proof. apply Ascii.eqb_eq. Qed.

(** *** The stages of the sed pipelines *)

Lemma smap_append (f : ascii -> ascii) (a b : string) :
  smap f (a ++ b) = smap f a ++ smap f b.
Proof. induction a; simpl; congruence. Qed.

Lemma ends_cons (c : ascii) (s : string) :
  s <> "" -> ends_with_hyphen (String c s) = ends_with_hyphen s.
Proof. destruct s; [congruence | reflexivity]. Qed.

Lemma squeeze_empty (s : string) : squeeze s = "" -> s = "".
Proof.
  induction s as [|c r IH]; [reflexivity |].
  simpl. destruct r as [|d r']; [discriminate |].
  destruct (is_hyphen c && is_hyphen d); [| discriminate].
  intros H. apply IH in H. discriminate.
Qed.

Lemma starts_squeeze (s : string) :
  starts_with_hyphen (squeeze s) = starts_with_hyphen s.
Proof.
  induction s as [|c r IH]; [reflexivity |].
  destruct r as [|d r']; [reflexivity |].
  change (squeeze (String c (String d r')))
    with (if is_hyphen c && is_hyphen d then squeeze (String d r')
          else String c (squeeze (String d r'))).
  destruct (is_hyphen c) eqn:Hc, (is_hyphen d) eqn:Hd; simpl andb; cbv iota;
    try (simpl; now rewrite Hc).
  rewrite IH. simpl. now rewrite Hc, Hd.
Qed.

Lemma ends_squeeze (s : string) :
  ends_with_hyphen (squeeze s) = ends_with_hyphen s.
Proof.
  induction s as [|c r IH]; [reflexivity |].
  destruct r as [|d r']; [reflexivity |].
  change (squeeze (String c (String d r')))
    with (if is_hyphen c && is_hyphen d then squeeze (String d r')
          else String c (squeeze (String d r'))).
  rewrite (ends_cons c) by discriminate.
  destruct (is_hyphen c && is_hyphen d); [assumption |].
  rewrite ends_cons; [assumption |].
  intros E. apply squeeze_empty in E. discriminate.
Qed.

Lemma squeeze_snoc_hyphen (y : string) :
  squeeze (y ++ "-") = if ends_with_hyphen y then squeeze y else squeeze y ++ "-".
Proof.
  induction y as [|c r IH]; [reflexivity |].
  destruct r as [|d r'].
  - simpl. destruct (is_hyphen c) eqn:Hc; simpl; [| reflexivity].
    apply is_hyphen_eq in Hc. now subst.
  - simpl append in IH |- *.
    change (squeeze (String c (String d (r' ++ "-"))))
      with (if is_hyphen c && is_hyphen d then squeeze (String d (r' ++ "-"))
            else String c (squeeze (String d (r' ++ "-")))).
    change (squeeze (String c (String d r')))
      with (if is_hyphen c && is_hyphen d then squeeze (String d r')
            else String c (squeeze (String d r'))).
    rewrite (ends_cons c) by discriminate.
    rewrite IH.
    destruct (is_hyphen c && is_hyphen d), (ends_with_hyphen (String d r'));
      reflexivity.
Qed.

Lemma trim_trail_snoc (r : string) : trim_trail (r ++ "-") = r.
Proof.
  induction r as [|c r IH]; [reflexivity |].
  destruct r as [|d r']; [reflexivity |].
  simpl append in IH |- *.
  change (trim_trail (String c (String d (r' ++ "-"))))
    with (String c (trim_trail (String d (r' ++ "-")))).
  now rewrite IH.
Qed.

Lemma trim_trail_id (r : string) : ends_with_hyphen r = false -> trim_trail r = r.
Proof.
  induction r as [|c r IH]; [reflexivity |].
  destruct r as [|d r'].
  - simpl. now intros ->.
  - rewrite ends_cons by discriminate. intros H.
    change (trim_trail (String c (String d r')))
      with (String c (trim_trail (String d r'))).
    now rewrite IH.
Qed.

Lemma strip_edges_false (z : string) : strip_edges false z = trim_trail z.
Proof.
  induction z as [|c r IH]; [reflexivity |].
  destruct r as [|d r'].
  - simpl. destruct (is_hyphen c); reflexivity.
  - change (strip_edges false (String c (String d r')))
      with (if is_hyphen c && (false || false)
            then strip_edges false (String d r')
            else String c (strip_edges false (String d r'))).
    rewrite andb_false_r, IH. reflexivity.
Qed.

(** The one regexp of JavaScript trims as the two substitutions of sed. *)
Lemma strip_edges_trim (z : string) : strip_edges true z = trim_trail (trim_lead z).
Proof.
  destruct z as [|c r]; [reflexivity |].
  change (strip_edges true (String c r))
    with (if is_hyphen c
             && (true || match r with EmptyString => true | _ => false end)
          then strip_edges false r else String c (strip_edges false r)).
  rewrite orb_true_l, andb_true_r, strip_edges_false.
  unfold trim_lead. destruct (is_hyphen c) eqn:Hc; [reflexivity |].
  destruct r as [|d r']; simpl; [now rewrite Hc | reflexivity].
Qed.

Lemma trim_snoc_hyphen (z : string) :
  ends_with_hyphen z = false ->
  trim_trail (trim_lead (z ++ "-")) = trim_trail (trim_lead z).
Proof.
  destruct z as [|c r]; [reflexivity |].
  intros E. simpl append. unfold trim_lead.
  destruct (is_hyphen c) eqn:Hc.
  - destruct r as [|d r']; [simpl in E; congruence |].
    rewrite ends_cons in E by discriminate.
    now rewrite trim_trail_snoc, trim_trail_id.
  - change (String c (r ++ "-")) with (String c r ++ "-").
    now rewrite trim_trail_snoc, trim_trail_id.
Qed.

Lemma norm_snoc_hyphen (y : string) :
  trim_trail (trim_lead (squeeze (y ++ "-")))
  = trim_trail (trim_lead (squeeze y)).
Proof.
  rewrite squeeze_snoc_hyphen.
  destruct (ends_with_hyphen y) eqn:E; [reflexivity |].
  apply trim_snoc_hyphen. now rewrite ends_squeeze.
Qed.

Lemma replace_ext_chop (f : string) :
  replace_ext f = chop_ext f \/ replace_ext f = chop_ext f ++ ".".
Proof.
  induction f as [|c r IH]; [now left |].
  simpl. destruct (has_dot r).
  - destruct IH as [-> | ->]; [now left | now right].
  - destruct (is_dot c) eqn:Hc; [| now left].
    apply is_dot_eq in Hc. subst c.
    destruct r; [now right | now left].
Qed.

Lemma is_echo_flag_starts (s : string) :
  is_echo_flag s = true -> starts_with_hyphen s = true.
Proof.
  destruct s as [|c [|d r]]; simpl; try discriminate.
  intros H. now apply andb_prop in H.
Qed.

Lemma echo_id (s : string) : starts_with_hyphen s = false -> echo s = s.
Proof.
  intros H. unfold echo. destruct (is_echo_flag s) eqn:E; [| reflexivity].
  apply is_echo_flag_starts in E. congruence.
Qed.

Lemma starts_chop_ext (f : string) :
  starts_with_hyphen f = false -> starts_with_hyphen (chop_ext f) = false.
Proof.
  destruct f as [|c r]; [reflexivity |].
  simpl. intros H. destruct (has_dot r); [assumption |].
  destruct (is_dot c); [reflexivity | assumption].
Qed.

Lemma has_dot_ext_of (s : string) : has_dot (ext_of s) = false.
Proof.
  induction s as [|c r IH]; [reflexivity |].
  simpl. destruct (has_dot r) eqn:Hr; [assumption |].
  destruct (is_dot c) eqn:Hc; [assumption |].
  simpl. now rewrite Hc, Hr.
Qed.

Lemma has_dot_append (a b : string) : has_dot (a ++ b) = has_dot a || has_dot b.
Proof.
  induction a as [|c a IH]; [reflexivity |].
  simpl. now rewrite IH, orb_assoc.
Qed.

Lemma chop_ext_append (a b : string) :
  has_dot b = false -> chop_ext (a ++ "." ++ b) = a.
Proof.
  intros Hb. induction a as [|c a IH].
  - simpl. now rewrite Hb.
  - simpl append. simpl chop_ext.
    rewrite has_dot_append. simpl has_dot. rewrite orb_true_r.
    simpl in IH. now rewrite IH.
Qed.

(** *** Normal forms *)

Lemma no_double_cons (c : ascii) (t : string) :
  no_double (String c t)
  = negb (is_hyphen c && starts_with_hyphen t) && no_double t.
Proof. reflexivity. Qed.

Lemma sforall_cons (p : ascii -> bool) (c : ascii) (t : string) :
  sforall p (String c t) = p c && sforall p t.
Proof. reflexivity. Qed.

Lemma no_double_squeeze (s : string) : no_double (squeeze s) = true.
Proof.
  induction s as [|c r IH]; [reflexivity |].
  destruct r as [|d r']; [simpl; now rewrite andb_false_r |].
  change (squeeze (String c (String d r')))
    with (if is_hyphen c && is_hyphen d then squeeze (String d r')
          else String c (squeeze (String d r'))).
  destruct (is_hyphen c && is_hyphen d) eqn:E; [assumption |].
  rewrite no_double_cons, IH, starts_squeeze. simpl starts_with_hyphen.
  now rewrite E.
Qed.

Lemma no_double_trim_lead (s : string) :
  no_double s = true -> no_double (trim_lead s) = true.
Proof.
  destruct s as [|c r]; [reflexivity |].
  unfold trim_lead. destruct (is_hyphen c); [| auto].
  simpl. intros H. now apply andb_prop in H.
Qed.

Lemma starts_trim_lead (s : string) :
  no_double s = true -> starts_with_hyphen (trim_lead s) = false.
Proof.
  destruct s as [|c r]; [reflexivity |].
  unfold trim_lead. destruct (is_hyphen c) eqn:Hc; simpl.
  - rewrite Hc. simpl. intros H. apply andb_prop in H.
    destruct H as [H _]. now apply negb_true_iff in H.
  - now rewrite Hc.
Qed.

Lemma starts_trim_trail (s : string) :
  starts_with_hyphen s = false -> starts_with_hyphen (trim_trail s) = false.
Proof.
  destruct s as [|c r]; [reflexivity |].
  simpl. intros H. destruct r; [now rewrite H | assumption].
Qed.

Lemma starts_trim_trail_inv (s : string) :
  starts_with_hyphen (trim_trail s) = true -> starts_with_hyphen s = true.
Proof.
  destruct (starts_with_hyphen s) eqn:E; [reflexivity |].
  now rewrite starts_trim_trail.
Qed.

Lemma no_double_trim_trail (s : string) :
  no_double s = true -> no_double (trim_trail s) = true.
Proof.
  induction s as [|c r IH]; [reflexivity |].
  destruct r as [|d r'].
  - simpl. destruct (is_hyphen c) eqn:Hc; intros _; simpl;
      [reflexivity | now rewrite Hc].
  - change (trim_trail (String c (String d r')))
      with (String c (trim_trail (String d r'))).
    rewrite (no_double_cons c (String d r')).
    intros H. apply andb_prop in H. destruct H as [H1 H2].
    rewrite no_double_cons, (IH H2), andb_true_r.
    destruct (is_hyphen c) eqn:Hc; [| reflexivity].
    destruct (starts_with_hyphen (trim_trail (String d r'))) eqn:E; [| reflexivity].
    apply starts_trim_trail_inv in E. simpl in E, H1. now rewrite E in H1.
Qed.

Lemma ends_trim_trail (s : string) :
  no_double s = true -> ends_with_hyphen (trim_trail s) = false.
Proof.
  induction s as [|c r IH]; [reflexivity |].
  destruct r as [|d r'].
  - simpl. destruct (is_hyphen c) eqn:Hc; intros _; simpl;
      [reflexivity | assumption].
  - change (trim_trail (String c (String d r')))
      with (String c (trim_trail (String d r'))).
    rewrite (no_double_cons c (String d r')).
    intros H. apply andb_prop in H. destruct H as [H1 H2].
    destruct (trim_trail (String d r')) as [|e t] eqn:E.
    + (* the rest was a lone hyphen: c is not one *)
      destruct r' as [|e r'']; [| discriminate E].
      simpl in E. destruct (is_hyphen d) eqn:Hd; [| discriminate E].
      simpl in H1. rewrite Hd, andb_true_r in H1.
      simpl. now apply negb_true_iff in H1.
    + rewrite ends_cons by discriminate. now apply IH.
Qed.

Lemma sforall_smap (p : ascii -> bool) (f : ascii -> ascii) (s : string) :
  (forall c, p (f c) = true) -> sforall p (smap f s) = true.
Proof. intros H. induction s; simpl; [reflexivity | now rewrite H]. Qed.

Lemma sforall_squeeze (p : ascii -> bool) (s : string) :
  sforall p s = true -> sforall p (squeeze s) = true.
Proof.
  induction s as [|c r IH]; [reflexivity |].
  destruct r as [|d r']; [auto |].
  change (squeeze (String c (String d r')))
    with (if is_hyphen c && is_hyphen d then squeeze (String d r')
          else String c (squeeze (String d r'))).
  rewrite (sforall_cons p c (String d r')).
  intros H. apply andb_prop in H. destruct H as [H1 H2].
  destruct (is_hyphen c && is_hyphen d); [auto |].
  rewrite sforall_cons. now rewrite H1, IH.
Qed.

Lemma sforall_trim_lead (p : ascii -> bool) (s : string) :
  sforall p s = true -> sforall p (trim_lead s) = true.
Proof.
  destruct s as [|c r]; [reflexivity |].
  unfold trim_lead. destruct (is_hyphen c); [| auto].
  simpl. intros H. now apply andb_prop in H.
Qed.

Lemma sforall_trim_trail (p : ascii -> bool) (s : string) :
  sforall p s = true -> sforall p (trim_trail s) = true.
Proof.
  induction s as [|c r IH]; [reflexivity |].
  destruct r as [|d r'].
  - simpl. destruct (is_hyphen c); auto.
  - change (trim_trail (String c (String d r')))
      with (String c (trim_trail (String d r'))).
    rewrite (sforall_cons p c (String d r')).
    intros H. apply andb_prop in H. destruct H as [H1 H2].
    rewrite sforall_cons. now rewrite H1, IH.
Qed.

Lemma slug_pipeline_normal (x : string) : normal_slug (slug_pipeline x).
Proof.
  unfold slug_pipeline.
  set (h := hyphenate slug_char (lower (echo x))).
  assert (Hh : sforall slug_char h = true).
  { apply sforall_smap. intros c. destruct (slug_char c) eqn:E; [assumption | reflexivity]. }
  pose proof (no_double_squeeze h) as Hn.
  repeat split.
  - now apply sforall_trim_trail, sforall_trim_lead, sforall_squeeze.
  - now apply no_double_trim_trail, no_double_trim_lead.
  - now apply starts_trim_trail, starts_trim_lead.
  - now apply ends_trim_trail, no_double_trim_lead.
Qed.

Lemma sforall_append (p : ascii -> bool) (a b : string) :
  sforall p (a ++ b) = sforall p a && sforall p b.
Proof.
  induction a as [|c a IH]; [reflexivity |].
  simpl. now rewrite IH, andb_assoc.
Qed.

Lemma sforall_chop_ext (p : ascii -> bool) (s : string) :
  sforall p s = true -> sforall p (chop_ext s) = true.
Proof.
  induction s as [|c r IH]; [reflexivity |].
  simpl. intros H. destruct (has_dot r).
  - apply andb_prop in H. destruct H as [H1 H2]. simpl. now rewrite H1, IH.
  - destruct (is_dot c); [reflexivity | assumption].
Qed.

Lemma sforall_ext_of (p : ascii -> bool) (s : string) :
  sforall p s = true -> sforall p (ext_of s) = true.
Proof.
  induction s as [|c r IH]; [reflexivity |].
  simpl. intros H. pose proof H as H'. apply andb_prop in H'. destruct H' as [H1 H2].
  destruct (has_dot r); [now apply IH |].
  destruct (is_dot c); assumption.
Qed.

Lemma sforall_impl (p q : ascii -> bool) (s : string) :
  (forall c, p c = true -> q c = true) -> sforall p s = true -> sforall q s = true.
Proof.
  intros I. induction s as [|c r IH]; [reflexivity |].
  simpl. intros H. apply andb_prop in H. destruct H as [H1 H2].
  now rewrite (I c H1), IH.
Qed.

Lemma digit_name_char (c : ascii) : is_digit c = true -> name_char c = true.
Proof.
  intros H. unfold name_char. rewrite H. now rewrite !orb_true_r.
Qed.

(** The browser's fallback computes the slug of the script. *)
Lemma slug_of_filename_pipeline (f : string) :
  is_echo_flag (chop_ext f) = false ->
  Lightbox.slug_of_filename f = slug_pipeline (chop_ext f).
Proof.
  intros F. unfold Lightbox.slug_of_filename, slug_pipeline, echo.
  rewrite F, strip_edges_trim.
  destruct (replace_ext_chop f) as [-> | ->]; [reflexivity |].
  unfold lower, hyphenate. rewrite !smap_append. simpl smap at 2 4.
  apply norm_snoc_hyphen.
Qed.
Lemma nodupb_NoDup (l : list string) : nodupb l = true -> NoDup l.
Proof.
  induction l as [|x r IH]; simpl; intros H; constructor.
  - apply andb_prop in H. destruct H as [H _].
    apply negb_true_iff in H. now apply mem_false in H.
  - apply IH. now apply andb_prop in H.
Defined.

(** *** The pipelines line by line *)

Lemma has_line_feed_append (a b : string) :
  has_line_feed (a ++ b) = has_line_feed a || has_line_feed b.
Proof.
  induction a as [|c a IH]; [reflexivity |].
  simpl. now rewrite IH, orb_assoc.
Qed.

Lemma per_line_from_plain (f : string -> string) (line s : string) :
  has_line_feed s = false -> per_line_from f line s = f (line ++ s).
Proof.
  revert line. induction s as [|c r IH]; intros line H.
  - simpl. now rewrite append_nil_r.
  - simpl in *. apply orb_false_elim in H. destruct H as [C R].
    rewrite C, (IH _ R), append_assoc. reflexivity.
Qed.

(** On a text of one line, [sed] applies its script to the line. *)
Lemma per_line_one (f : string -> string) (s : string) :
  has_line_feed s = false -> f "" = "" ->
  per_line f (s ++ String LF "") = f s ++ String LF "".
Proof.
  intros H E. unfold per_line.
  assert (G : forall line, per_line_from f line (s ++ String LF "")
                           = f (line ++ s) ++ String LF "").
  { induction s as [|c r IH]; intros line.
    - cbn. now rewrite append_nil_r, E.
    - simpl in *. apply orb_false_elim in H. destruct H as [C R].
      rewrite C, (IH R), append_assoc. reflexivity. }
  apply G.
Qed.

Lemma strip_line_feeds_plain (s : string) :
  has_line_feed s = false -> strip_line_feeds (s ++ String LF "") = s.
Proof.
  induction s as [|c r IH]; intros H.
  - reflexivity.
  - simpl in *. apply orb_false_elim in H. destruct H as [C R].
    rewrite (IH R), C. reflexivity.
Qed.

Lemma has_line_feed_sforall (p : ascii -> bool) (s : string) :
  p LF = false -> sforall p s = true -> has_line_feed s = false.
Proof.
  intros P. induction s as [|c r IH]; [reflexivity |].
  simpl. intros H. apply andb_prop in H. destruct H as [C R].
  rewrite (IH R), orb_false_r. unfold is_line_feed.
  destruct (Ascii.eqb_spec c LF) as [-> | N]; [congruence | reflexivity].
Qed.

Lemma has_line_feed_smap (f : ascii -> ascii) (s : string) :
  (forall c, is_line_feed (f c) = true -> is_line_feed c = true) ->
  has_line_feed s = false -> has_line_feed (smap f s) = false.
Proof.
  intros F. induction s as [|c r IH]; [reflexivity |].
  simpl. intros H. apply orb_false_elim in H. destruct H as [C R].
  rewrite (IH R), orb_false_r.
  destruct (is_line_feed (f c)) eqn:E; [| reflexivity].
  apply F in E. congruence.
Qed.

Lemma has_line_feed_hyphenate (keep : ascii -> bool) (s : string) :
  has_line_feed s = false -> has_line_feed (hyphenate keep s) = false.
Proof.
  apply has_line_feed_smap. intros c. destruct (keep c); [auto | discriminate].
Qed.

Lemma has_line_feed_lower (s : string) :
  has_line_feed s = false -> has_line_feed (lower s) = false.
Proof.
  apply has_line_feed_smap. intros c.
  destruct c as [[] [] [] [] [] [] [] []]; vm_compute; intros H; exact H.
Qed.

Lemma has_line_feed_squeeze (s : string) :
  has_line_feed s = false -> has_line_feed (squeeze s) = false.
Proof.
  induction s as [|c r IH]; [reflexivity |].
  intros H. simpl in H. apply orb_false_elim in H. destruct H as [C R].
  specialize (IH R). destruct r as [|d r']; [simpl; now rewrite C |].
  change (squeeze (String c (String d r')))
    with (if is_hyphen c && is_hyphen d then squeeze (String d r')
          else String c (squeeze (String d r'))).
  destruct (is_hyphen c && is_hyphen d); [exact IH |].
  change (is_line_feed c || has_line_feed (squeeze (String d r')) = false).
  now rewrite C, IH.
Qed.

(** On a text without line feed the pipeline line by line is the pipeline
    on the whole text. *)
Lemma slug_pipeline_lines_plain (x : string) :
  has_line_feed x = false -> slug_pipeline_lines x = slug_pipeline x.
Proof.
  intros H. unfold slug_pipeline_lines, slug_pipeline, echo_out, echo.
  destruct (is_echo_flag x); [reflexivity |].
  unfold lower. rewrite smap_append. fold (lower x).
  change (smap lower_char (String LF "")) with (String LF "").
  assert (L := has_line_feed_lower x H).
  rewrite per_line_one by (assumption || reflexivity).
  assert (Hy := has_line_feed_hyphenate slug_char (lower x) L).
  rewrite per_line_one by (assumption || reflexivity).
  assert (Sq := has_line_feed_squeeze _ Hy).
  rewrite per_line_one by (assumption || reflexivity).
  apply strip_line_feeds_plain.
  apply (has_line_feed_sforall slug_char); [reflexivity |].
  apply sforall_trim_trail, sforall_trim_lead, sforall_squeeze.
  apply sforall_smap. intros c. destruct (slug_char c) eqn:E; [assumption | reflexivity].
Qed.

End TextFacts.

(** ** Searching a free name *)

Module SearchFacts.
Import Text TextFacts.

Lemma mem_filter_neq (x z : string) (d : list string) :
  mem x (filter (fun y => negb (String.eqb y z)) d)
  = mem x d && negb (String.eqb x z).
Proof.
  induction d as [|y d IH]; [reflexivity |].
  simpl. destruct (String.eqb_spec y z) as [->|N]; simpl.
  - rewrite IH. destruct (String.eqb_spec x z) as [->|N'].
    + now rewrite !andb_false_r.
    + simpl. now rewrite andb_true_r.
  - rewrite IH. destruct (String.eqb_spec x y) as [->|N']; simpl; [| reflexivity].
    destruct (String.eqb_spec y z); [contradiction | reflexivity].
Qed.

Lemma filter_neq_shorter (z : string) (d : list string) :
  mem z d = true ->
  length (filter (fun y => negb (String.eqb y z)) d) < length d.
Proof.
  induction d as [|y d IH]; [discriminate |].
  simpl. destruct (String.eqb_spec z y) as [->|N]; simpl.
  - intros _. rewrite String.eqb_refl. simpl.
    pose proof (filter_length_le (fun y0 => negb (String.eqb y0 y)) d). lia.
  - intros H. specialize (IH H).
    destruct (String.eqb_spec y z); [congruence |]. simpl. lia.
Qed.

Section FirstFree.
Variable cand : nat -> string.
Hypothesis cand_inj : forall i j, cand i = cand j -> i = j.

Lemma first_free_ge (taken : string -> bool) (fuel c : nat) :
  c <= first_free taken cand fuel c.
Proof.
  revert c. induction fuel as [|f IH]; intros c; simpl; [lia |].
  destruct (taken (cand c)); [| lia]. specialize (IH (S c)). lia.
Qed.

Lemma first_free_ext (t1 t2 : string -> bool) (fuel c : nat) :
  (forall k, c <= k -> t1 (cand k) = t2 (cand k)) ->
  first_free t1 cand fuel c = first_free t2 cand fuel c.
Proof.
  revert c. induction fuel as [|f IH]; intros c H; simpl; [reflexivity |].
  rewrite <- (H c) by lia. destruct (t1 (cand c)); [| reflexivity].
  apply IH. intros k Hk. apply H. lia.
Qed.

(** More tests than there are names taken find a free candidate. *)
Lemma first_free_fresh (fuel : nat) (d : list string) (c : nat) :
  length d < fuel ->
  mem (cand (first_free (fun x => mem x d) cand fuel c)) d = false.
Proof.
  revert d c. induction fuel as [|f IH]; intros d c Hlen; [lia |].
  simpl. destruct (mem (cand c) d) eqn:M; [| assumption].
  set (d' := filter (fun y => negb (String.eqb y (cand c))) d).
  assert (Hd' : length d' < f).
  { pose proof (filter_neq_shorter (cand c) d M). fold d' in H. lia. }
  assert (E : first_free (fun x => mem x d) cand f (S c)
              = first_free (fun x => mem x d') cand f (S c)).
  { apply first_free_ext. intros k Hk. unfold d'. rewrite mem_filter_neq.
    destruct (String.eqb_spec (cand k) (cand c)) as [E|_].
    - apply cand_inj in E. lia.
    - now rewrite andb_true_r. }
  rewrite E. pose proof (IH d' (S c) Hd') as F.
  pose proof (first_free_ge (fun x => mem x d') f (S c)) as G.
  unfold d' in F at 2. rewrite mem_filter_neq in F.
  destruct (String.eqb_spec (cand (first_free (fun x => mem x d') cand f (S c)))
              (cand c)) as [E'|_].
  - apply cand_inj in E'. lia.
  - now rewrite andb_true_r in F.
Qed.
End FirstFree.

End SearchFacts.

Module SortFacts.
Import Manifest.

Section Sort.
Variable A : Type.
Variable key : A -> string.

Lemma insert_by_perm (x : A) (l : list A) :
  Permutation (insert_by key x l) (x :: l).
Proof.
  induction l as [|y r IH]; simpl; [reflexivity |].
  destruct (String.leb (key x) (key y)); [reflexivity |].
  rewrite IH. apply perm_swap.
Qed.

Lemma sort_stable_perm (l : list A) : Permutation (sort_stable key l) l.
Proof.
  induction l as [|x r IH]; simpl; [reflexivity |].
  rewrite insert_by_perm. now apply perm_skip.
Qed.
End Sort.

Lemma newest_first_perm (ps : list photo) : Permutation (newest_first ps) ps.
Proof.
  unfold newest_first. rewrite <- Permutation_rev. apply sort_stable_perm.
Qed.

End SortFacts.

Module ProcessPhotosFacts.
Import Text TextFacts SearchFacts Manifest SortFacts ProcessPhotos Examples.

(** *** The counter of the renaming *)

Lemma free_counter_first_free (d : list string) (base ext_s : string)
    (fuel c : nat) :
  free_counter d base ext_s fuel c
  = first_free (fun x => mem x d) (fun k => numbered base k ext_s) fuel c.
Proof.
  revert c. induction fuel as [|f IH]; intros c; simpl; [reflexivity |].
  now rewrite IH.
Qed.

Lemma sforall_no_dot (s : string) : sforall is_digit s = true -> has_dot s = false.
Proof.
  induction s as [|c r IH]; [reflexivity |].
  simpl. intros H. apply andb_prop in H. destruct H as [H1 H2].
  now rewrite (digit_not_dot _ H1), IH.
Qed.

Lemma digits_dot_inj (a b x y : string) :
  sforall is_digit a = true -> sforall is_digit b = true ->
  a ++ "." ++ x = b ++ "." ++ y -> a = b.
Proof.
  revert b. induction a as [|c a IH]; intros [|e b] Ha Hb H; simpl in *.
  - reflexivity.
  - injection H as H _. subst e. apply andb_prop in Hb. destruct Hb as [Hb _].
    apply digit_not_dot in Hb. discriminate Hb.
  - injection H as H _. subst c. apply andb_prop in Ha. destruct Ha as [Ha _].
    apply digit_not_dot in Ha. discriminate Ha.
  - injection H as -> H. apply andb_prop in Ha, Hb. f_equal.
    apply IH; tauto.
Qed.

Lemma numbered_inj (base ext_s : string) (i j : nat) :
  numbered base i ext_s = numbered base j ext_s -> i = j.
Proof.
  unfold numbered. intros H. apply append_cancel_l in H.
  simpl in H. injection H as H.
  apply decimal_inj.
  apply (digits_dot_inj (decimal i) (decimal j) ext_s ext_s);
    auto using decimal_digits.
Qed.

(** The while loop of the renaming ends on a name that no file has. *)
Lemma free_counter_fresh (d : list string) (base ext_s : string) :
  mem (numbered base (free_counter d base ext_s (S (length d)) 1) ext_s) d = false.
Proof.
  rewrite free_counter_first_free.
  apply (first_free_fresh (fun k => numbered base k ext_s)); [| lia].
  intros i j. apply numbered_inj.
Qed.

Lemma rename_target_fresh (d : list string) (name : string) :
  sanitize name <> name ->
  mem (rename_target d name (sanitize name)) d = false.
Proof.
  intros N. unfold rename_target.
  destruct (mem (sanitize name) d) eqn:M; simpl.
  - destruct (String.eqb_spec (sanitize name) name); [contradiction |].
    simpl. apply free_counter_fresh.
  - assumption.
Qed.

(** *** Names that reach the manifest *)

Lemma starts_sanitize (n : string) : starts_with_hyphen (sanitize n) = false.
Proof.
  unfold sanitize. apply starts_trim_trail, starts_trim_lead, no_double_squeeze.
Qed.

Lemma flag_free_no_hyphen (f : string) :
  starts_with_hyphen f = false -> is_echo_flag (chop_ext f) = false.
Proof.
  intros H. apply starts_chop_ext in H.
  destruct (is_echo_flag (chop_ext f)) eqn:E; [| reflexivity].
  apply is_echo_flag_starts in E. congruence.
Qed.

Lemma flag_free_numbered (base ext_s : string) (k : nat) :
  starts_with_hyphen base = false -> has_dot ext_s = false ->
  is_echo_flag (chop_ext (numbered base k ext_s)) = false.
Proof.
  intros Hb He. unfold numbered.
  destruct base as [|b0 base].
  - replace ("" ++ "-" ++ decimal k ++ "." ++ ext_s)
      with (("-" ++ decimal k) ++ "." ++ ext_s) by reflexivity.
    rewrite chop_ext_append by assumption.
    destruct (decimal_head k) as [c [r [E D]]]. rewrite E.
    simpl. now rewrite (digit_not_flag _ D).
  - apply flag_free_no_hyphen. exact Hb.
Qed.

Lemma flag_free_rename_target (d : list string) (name : string) :
  is_echo_flag (chop_ext (rename_target d name (sanitize name))) = false.
Proof.
  unfold rename_target.
  destruct (mem (sanitize name) d && negb (String.eqb (sanitize name) name)).
  - apply flag_free_numbered.
    + apply starts_chop_ext, starts_sanitize.
    + apply has_dot_ext_of.
  - apply flag_free_no_hyphen, starts_sanitize.
Qed.

Lemma flag_free_fixpoint (name : string) :
  sanitize name = name -> is_echo_flag (chop_ext name) = false.
Proof.
  intros E. apply flag_free_no_hyphen. rewrite <- E. apply starts_sanitize.
Qed.

Lemma name_chars_sanitize (n : string) : sforall name_char (sanitize n) = true.
Proof.
  unfold sanitize.
  apply sforall_trim_trail, sforall_trim_lead, sforall_squeeze, sforall_smap.
  intros c. destruct (name_char c) eqn:E; [assumption | reflexivity].
Qed.

Lemma name_chars_numbered (base ext_s : string) (k : nat) :
  sforall name_char base = true -> sforall name_char ext_s = true ->
  sforall name_char (numbered base k ext_s) = true.
Proof.
  intros Hb He. unfold numbered. rewrite !sforall_append, Hb, He.
  rewrite (sforall_impl is_digit name_char (decimal k) digit_name_char
             (decimal_digits k)).
  reflexivity.
Qed.

Lemma name_chars_rename_target (d : list string) (name : string) :
  sforall name_char (rename_target d name (sanitize name)) = true.
Proof.
  unfold rename_target.
  destruct (mem (sanitize name) d && negb (String.eqb (sanitize name) name)).
  - apply name_chars_numbered.
    + apply sforall_chop_ext, name_chars_sanitize.
    + apply sforall_ext_of, name_chars_sanitize.
  - apply name_chars_sanitize.
Qed.

Lemma stored_fixpoint (name : string) : sanitize name = name -> stored_name name.
Proof.
  intros E. split; [| now apply flag_free_fixpoint].
  rewrite <- E. apply name_chars_sanitize.
Qed.

Lemma stored_rename_target (d : list string) (name : string) :
  stored_name (rename_target d name (sanitize name)).
Proof.
  split; [apply name_chars_rename_target | apply flag_free_rename_target].
Qed.


(** *** One file *)

Lemma ingest_cases (T : tools) (CAPTION : string) (known_files : list string)
    (f : string) (s : state) :
  stored_name f ->
  let s' := flow_state (ingest T CAPTION known_files f s) in
  originals s' = originals s /\ same_frame s s'
  /\ (unchanged s s'
      \/ exists e, added_one known_files e s s' /\ filename e = f).
Proof.
  intros [Fn Ff]. unfold ingest. cbv zeta.
  destruct (supported f) eqn:Sup; simpl negb; cbv iota.
  2: { simpl. repeat split; left; split; reflexivity. }
  destruct (grep_qxF f known_files) eqn:K.
  { simpl. repeat split; left; split; reflexivity. }
  match goal with
  | |- context [if negb ?a && ?b then say ?l ?t else ?t] =>
      destruct (negb a && b)
  end;
  (destruct (magick T f Web); simpl negb; cbv iota;
   [| simpl; repeat split; left; split; reflexivity]);
  (destruct (magick T f Thumb1080); simpl negb; cbv iota;
   [| simpl; repeat split; left; split; reflexivity]);
  (destruct (magick T f Thumb640); simpl negb; cbv iota;
   [| simpl; repeat split; left; split; reflexivity]);
  (destruct (magick T f Thumb360); simpl negb; cbv iota;
   [| simpl; repeat split; left; split; reflexivity]);
  (split; [reflexivity |]); (split; [split; reflexivity |]); right;
  (eexists; split;
   [split; [reflexivity | split; [reflexivity | repeat split; assumption]]
   | reflexivity]).
Qed.


(** *** Renaming in the directory *)

Lemma filter_absent (t : string) (d : list string) :
  ~ In t d -> filter (fun n => negb (String.eqb n t)) d = d.
Proof.
  induction d as [|y d IH]; [reflexivity |].
  simpl. intros H. destruct (String.eqb_spec y t) as [->|_]; simpl.
  - exfalso. apply H. now left.
  - f_equal. apply IH. tauto.
Qed.

Lemma In_rename (src t x : string) (d : list string) :
  In x (map (fun n => if String.eqb n src then t else n) d) ->
  (x = t /\ In src d) \/ (In x d /\ x <> src).
Proof.
  rewrite in_map_iff. intros [z [E Hz]].
  destruct (String.eqb_spec z src) as [E'|N].
  - left. split; congruence.
  - right. split; congruence.
Qed.

Lemma rename_In (src t x : string) (d : list string) :
  In x d -> In (if String.eqb x src then t else x)
              (map (fun n => if String.eqb n src then t else n) d).
Proof. intros H. apply in_map_iff. now exists x. Qed.

Lemma NoDup_rename (src t : string) (d : list string) :
  NoDup d -> ~ In t d ->
  NoDup (map (fun n => if String.eqb n src then t else n) d).
Proof.
  induction d as [|y d IH]; intros ND Ht; [constructor |].
  inversion ND as [|? ? Hy ND']; subst. simpl.
  constructor.
  - intros H. apply In_rename in H.
    destruct (String.eqb_spec y src) as [->|N].
    + destruct H as [[_ H] | [H _]]; [contradiction |].
      apply Ht. now right.
    + destruct H as [[-> _] | [H _]]; [| contradiction].
      apply Ht. now left.
  - apply IH; [assumption |]. intros X. apply Ht. now right.
Qed.

Lemma mv_cases (src t : string) (d d' : list string) :
  mv src t d = Some d' -> ~ In t d ->
  (t = ".." /\ d' = filter (fun n => negb (String.eqb n src)) d)
  \/ (t <> ".." /\ d' = map (fun n => if String.eqb n src then t else n) d).
Proof.
  unfold mv. intros H Ht.
  destruct (String.eqb t "" || String.eqb t "."); [discriminate |].
  destruct (String.eqb_spec t "..") as [->|N]; injection H as <-.
  - now left.
  - right. split; [assumption |]. now rewrite filter_absent.
Qed.

Lemma supported_dotdot : supported ".." = false.
Proof. reflexivity. Qed.

Lemma cons_neq (A : Type) (x : A) (l : list A) : x :: l <> l.
Proof.
  intros H. apply (f_equal (@length A)) in H. simpl in H. lia.
Qed.

Lemma process_file_cases (T : tools) (CAPTION : string)
    (known_files : list string) (f : string) (s : state) :
  let s' := flow_state (process_file T CAPTION known_files f s) in
  same_frame s s'
  /\ (unchanged s s'
      \/ exists e, added_one known_files e s s'
                   /\ In (filename e) (originals s')
                   /\ (filename e = f \/ ~ In (filename e) (originals s)))
  /\ (NoDup (originals s) ->
      NoDup (originals s')
      /\ forall x, In x (originals s) -> x <> f -> In x (originals s')).
Proof.
  unfold process_file.
  assert (Triv : same_frame s s
                 /\ (unchanged s s
                     \/ exists e, added_one known_files e s s
                                  /\ In (filename e) (originals s)
                                  /\ (filename e = f \/ ~ In (filename e) (originals s)))
                 /\ (NoDup (originals s) ->
                     NoDup (originals s)
                     /\ forall x, In x (originals s) -> x <> f -> In x (originals s))).
  { split; [split; reflexivity |]. split; [left; split; reflexivity |]. auto. }
  destruct (mem f (originals s)) eqn:M; simpl negb; cbv iota; [| exact Triv].
  apply mem_In in M.
  destruct (starts_with_dot f); [exact Triv |].
  destruct (String.eqb_spec (sanitize f) f) as [E|N].
  - (* the name is its own sanitized form *)
    destruct (ingest_cases T CAPTION known_files f s (stored_fixpoint f E))
      as [O [Fr C]].
    cbv zeta in *. split; [exact Fr |]. split.
    + destruct C as [U | [e [A Fe]]]; [now left |].
      right. exists e. rewrite O, Fe. auto.
    + rewrite O. auto.
  - (* the file is renamed *)
    pose proof (rename_target_fresh (originals s) f N) as Fresh.
    apply mem_false in Fresh.
    set (t := rename_target (originals s) f (sanitize f)) in *.
    destruct (mv f t (originals s)) as [d |] eqn:Mv; [| exact Triv].
    set (s1 := say ("   📝 Renamed: " ++ f ++ " → " ++ t) (set_originals d s)).
    destruct (ingest_cases T CAPTION known_files t s1
                (stored_rename_target (originals s) f)) as [O [Fr C]].
    cbv zeta in *. change (originals s1) with d in O.
    split; [exact Fr |].
    destruct (mv_cases _ _ _ _ Mv Fresh) as [[Et Ed] | [Nt Ed]].
    + (* moved into the parent directory: never an image *)
      split.
      * left. destruct C as [U | [e [[_ [_ [_ [Sup _]]]] Fe]]]; [exact U |].
        rewrite Fe, Et, supported_dotdot in Sup. discriminate.
      * intros ND. rewrite O, Ed. split; [now apply NoDup_filter |].
        intros x Hx Nx. apply filter_In. split; [assumption |].
        now destruct (String.eqb_spec x f).
    + split.
      * destruct C as [U | [e [A Fe]]]; [now left |].
        right. exists e. split; [exact A |]. rewrite O, Fe, Ed. split.
        -- pose proof (rename_In f t f (originals s) M) as R.
           now rewrite String.eqb_refl in R.
        -- now right.
      * intros ND. rewrite O, Ed. split; [now apply NoDup_rename |].
        intros x Hx Nx. pose proof (rename_In f t x (originals s) Hx) as R.
        now destruct (String.eqb_spec x f).
Qed.


(** *** The loop *)

Lemma loop_unfold (T : tools) (CAPTION : string) (known_files : list string)
    (f : string) (rest : list string) (s : state) :
  flow_state (loop T CAPTION known_files (f :: rest) s)
  = match process_file T CAPTION known_files f s with
    | Next s1 => flow_state (loop T CAPTION known_files rest s1)
    | Exit s1 => s1
    end.
Proof. simpl. now destruct (process_file T CAPTION known_files f s). Qed.

Lemma loop_cases (T : tools) (CAPTION : string) (known_files : list string)
    (files : list string) (s : state) :
  let s' := flow_state (loop T CAPTION known_files files s) in
  exists added,
    extends known_files added s s'
    /\ (NoDup (originals s) -> NoDup files -> incl files (originals s) ->
        distinct files added s s').
Proof.
  revert s. induction files as [|f rest IH]; intros s; cbv zeta.
  - exists []. split.
    + repeat split; constructor.
    + intros ND _ _. split; [exact ND |]. split; [constructor |].
      split; [intros e [] | auto].
  - rewrite loop_unfold.
    destruct (process_file_cases T CAPTION known_files f s) as [Fr [C D]].
    cbv zeta in Fr, C, D.
    destruct (process_file T CAPTION known_files f s) as [s1 | s1] eqn:P;
      simpl flow_state in Fr, C, D.
    + (* the loop goes on *)
      destruct (IH s1) as [added2 [[Ph2 [Nc2 [In2 Fr2]]] D2]]. cbv zeta in *.
      set (s' := flow_state (loop T CAPTION known_files rest s1)) in *.
      assert (Fr' : same_frame s s').
      { destruct Fr as [F1 F2], Fr2 as [G1 G2]. split; congruence. }
      assert (Step : NoDup (originals s) -> NoDup (f :: rest) ->
                     incl (f :: rest) (originals s) ->
                     ~ In f rest
                     /\ (forall x, In x (originals s) -> x <> f -> In x (originals s1))
                     /\ distinct rest added2 s1 s').
      { intros ND NDf Inc. destruct (D ND) as [ND1 Keep].
        inversion NDf as [|? ? Hf NDr]; subst.
        split; [assumption |]. split; [assumption |].
        apply D2; [assumption | assumption |].
        intros x Hx. apply Keep; [apply Inc; now right |].
        intros ->. contradiction. }
      destruct C as [[U1 U2] | [e [[A1 [A2 A3]] [Ie De]]]].
      * exists added2. split.
        -- split; [congruence |]. split; [congruence |]. split; assumption.
        -- intros ND NDf Inc.
           destruct (Step ND NDf Inc) as [Hf [Keep [R1 [R2 [R3 R4]]]]].
           split; [assumption |]. split; [assumption |]. split.
           ++ intros e0 H0. split; [now apply R3 |].
              destruct (R3 e0 H0) as [_ [X | X]]; [left; now right |].
              destruct (string_dec (filename e0) f) as [-> | Nf];
                [left; now left |].
              right. intros Y. apply X. now apply Keep.
           ++ intros x Hx Nx. apply R4.
              ** apply Keep; [assumption |]. intros ->. apply Nx. now left.
              ** intros Y. apply Nx. now right.
      * exists (added2 ++ [e])%list. split.
        -- split; [rewrite Ph2, A1, <- app_assoc; reflexivity |].
           split; [rewrite Nc2, A2, length_app; simpl; lia |].
           split; [| assumption].
           apply Forall_app. split; [assumption | now constructor].
        -- intros ND NDf Inc.
           destruct (Step ND NDf Inc) as [Hf [Keep [R1 [R2 [R3 R4]]]]].
           assert (Ne : ~ In (filename e) rest).
           { destruct De as [-> | X]; [assumption |].
             intros Y. apply X, Inc. now right. }
           split; [assumption |]. split; [| split].
           ++ rewrite map_app. simpl.
              apply NoDup_app; [assumption | repeat constructor; auto |].
              intros x Hx [<- | []].
              apply in_map_iff in Hx. destruct Hx as [e2 [E2 H2]].
              destruct (R3 e2 H2) as [_ [X | X]]; rewrite E2 in X; contradiction.
           ++ intros e0 H0. apply in_app_iff in H0.
              destruct H0 as [H0 | [<- | []]].
              ** split; [now apply R3 |].
                 destruct (R3 e0 H0) as [_ [X | X]]; [left; now right |].
                 destruct (string_dec (filename e0) f) as [-> | Nf];
                   [left; now left |].
                 right. intros Y. apply X. now apply Keep.
              ** split; [now apply R4 |].
                 destruct De as [-> | X]; [left; now left | now right].
           ++ intros x Hx Nx. apply R4.
              ** apply Keep; [assumption |]. intros ->. apply Nx. now left.
              ** intros Y. apply Nx. now right.
    + (* the script is ended *)
      assert (Last : NoDup (originals s) ->
                     NoDup (originals s1)
                     /\ forall x, In x (originals s) -> ~ In x (f :: rest) ->
                                  In x (originals s1)).
      { intros ND. destruct (D ND) as [ND1 Keep]. split; [assumption |].
        intros x Hx Nx. apply Keep; [assumption |]. intros ->. apply Nx. now left. }
      destruct C as [[U1 U2] | [e [[A1 [A2 A3]] [Ie De]]]].
      * exists []. split.
        -- split; [assumption |]. split; [assumption |]. split; [constructor | assumption].
        -- intros ND NDf Inc. destruct (Last ND) as [ND1 Keep].
           split; [assumption |]. split; [constructor |].
           split; [intros e [] | assumption].
      * exists [e]. split.
        -- split; [assumption |]. split; [simpl; congruence |].
           split; [constructor; [assumption | constructor] | assumption].
        -- intros ND NDf Inc. destruct (Last ND) as [ND1 Keep].
           split; [assumption |]. split; [repeat constructor; auto |].
           split; [| assumption].
           intros e0 [<- | []]. split; [assumption |].
           destruct De as [-> | X]; [left; now left | now right].
Qed.


(** *** The whole run *)

Lemma glob_cases (d : list string) :
  NoDup d ->
  (glob d = ["*"] /\ ~ In "*" d) \/ (NoDup (glob d) /\ incl (glob d) d).
Proof.
  intros ND. unfold glob.
  pose proof (sort_stable_perm string (fun n : string => n)
                (filter (fun n => negb (starts_with_dot n)) d)) as P.
  destruct (sort_stable (fun n : string => n)
              (filter (fun n => negb (starts_with_dot n)) d)) as [|x l] eqn:E.
  - left. split; [reflexivity |].
    apply Permutation_nil in P. intros H.
    assert (X : In "*" (filter (fun n => negb (starts_with_dot n)) d))
      by (apply filter_In; split; [assumption | reflexivity]).
    rewrite P in X. contradiction.
  - right. split.
    + apply (Permutation_NoDup (Permutation_sym P)). now apply NoDup_filter.
    + intros y Hy. apply (Permutation_in _ P) in Hy.
      apply filter_In in Hy. tauto.
Qed.

Lemma loop_star (T : tools) (CAPTION : string) (known_files : list string)
    (s : state) :
  ~ In "*" (originals s) -> loop T CAPTION known_files ["*"] s = Next s.
Proof.
  intros H. apply mem_false in H. simpl. unfold process_file. now rewrite H.
Qed.

Lemma epilogue_json (s : state) :
  json (final (epilogue s))
  = (if Nat.ltb 0 (new_count s)
     then with_photos (json s) (newest_first (photos (json s)))
     else json s)
  /\ new_count (final (epilogue s)) = new_count s
  /\ originals (final (epilogue s)) = originals s.
Proof.
  unfold epilogue.
  destruct (Nat.ltb 0 (new_count s)).
  - cbv zeta.
    match goal with |- context [if ?b then _ else _] => destruct b end;
      simpl; auto.
  - destruct (Nat.ltb 0 (skipped_count s)); simpl; auto.
Qed.

Lemma run_unfold (T : tools) (CAPTION : string) (dir : list string)
    (json_file : option manifest) :
  run T CAPTION dir json_file
  = match loop T CAPTION (map filename (photos (load json_file))) (glob dir)
            (start dir (load json_file)) with
    | Next s => epilogue s
    | Exit s => {| final := s; completed := false; sitemap := None |}
    end.
Proof. reflexivity. Qed.

(** What a run does to the manifest: it puts entries in front of the
    array, re-sorts the array if there are any, and leaves the other keys
    alone. *)
Lemma run_cases (T : tools) (CAPTION : string) (dir : list string)
    (json_file : option manifest) :
  let m := load json_file in
  let r := run T CAPTION dir json_file in
  exists added,
    Permutation (photos (json (final r))) (added ++ photos m)
    /\ profile (json (final r)) = profile m
    /\ albums (json (final r)) = albums m
    /\ new_count (final r) = length added
    /\ Forall (ingested (map filename (photos m))) added
    /\ (NoDup dir ->
        NoDup (map filename added)
        /\ Forall (fun e => In (filename e) (originals (final r))) added).
Proof.
  cbv zeta. rewrite run_unfold.
  set (m := load json_file). set (known := map filename (photos m)).
  destruct (loop_cases T CAPTION known (glob dir) (start dir m))
    as [added [[Ph [Nc [Ing [Fp Fa]]]] D]].
  cbv zeta in *. simpl in Ph, Nc, Fp, Fa.
  assert (Dist : NoDup dir ->
                 NoDup (map filename added)
                 /\ Forall (fun e => In (filename e)
                     (originals (flow_state (loop T CAPTION known (glob dir)
                                               (start dir m))))) added).
  { intros ND. destruct (glob_cases dir ND) as [[G NS] | [G1 G2]].
    - rewrite G in *. rewrite loop_star in Ph by assumption. simpl in Ph.
      assert (added = []).
      { destruct added; [reflexivity |].
        apply (f_equal (@length photo)) in Ph. simpl in Ph.
        rewrite length_app in Ph. lia. }
      subst added. split; constructor.
    - destruct (D ND G1 G2) as [_ [R2 [R3 _]]]. split; [assumption |].
      apply Forall_forall. intros e He. now apply R3. }
  exists added.
  destruct (loop T CAPTION known (glob dir) (start dir m)) as [s | s];
    simpl flow_state in *.
  - destruct (epilogue_json s) as [J [N O]]. rewrite J, N, O.
    rewrite Nat.add_0_r in Nc.
    destruct (Nat.ltb 0 (new_count s)); simpl.
    + rewrite newest_first_perm, Ph.
      repeat (split; [first [reflexivity | assumption] |]). exact Dist.
    + rewrite Ph.
      repeat (split; [first [reflexivity | assumption] |]). exact Dist.
  - simpl. rewrite Ph, Nat.add_0_r in *.
    repeat (split; [first [reflexivity | assumption] |]). exact Dist.
Qed.

(** *** The claims on a run *)

(** C6. A run of process-photos.sh only adds entries: the array after the
    run is, up to the order, the array before it with the new entries; so
    every entry present before is present, unchanged, after; and the
    [profile] object and the [albums] array are as before.  This holds of a
    run ended by a failing command as well. *)
Theorem run_frame (T : tools) (CAPTION : string) (dir : list string)
    (m : manifest) :
  let m' := json (final (run T CAPTION dir (Some m))) in
  (exists added, Permutation (photos m') (added ++ photos m))
  /\ incl (photos m) (photos m')
  /\ profile m' = profile m
  /\ albums m' = albums m.
Proof.
  cbv zeta.
  destruct (run_cases T CAPTION dir (Some m)) as [added [P [Fp [Fa _]]]].
  cbv zeta in *. simpl load in *.
  split; [now exists added |]. split; [| now split].
  intros e He. apply (Permutation_in _ (Permutation_sym P)).
  apply in_or_app. now right.
Qed.

(** On a name without line feed the renaming pipeline line by line is the
    pipeline on the whole name. *)
Lemma sanitize_lines_plain (n : string) :
  has_line_feed n = false -> sanitize_lines n = sanitize n.
Proof.
  intros H. unfold sanitize_lines, sanitize, echo_out, echo.
  destruct (is_echo_flag n); [reflexivity |].
  rewrite per_line_one by (assumption || reflexivity).
  assert (A := has_line_feed_hyphenate (fun c => negb (is_space c)) n H).
  rewrite per_line_one by (assumption || reflexivity).
  assert (B := has_line_feed_hyphenate name_char _ A).
  rewrite per_line_one by (assumption || reflexivity).
  assert (C := has_line_feed_squeeze _ B).
  rewrite per_line_one by (assumption || reflexivity).
  apply strip_line_feeds_plain.
  apply (has_line_feed_sforall name_char); [reflexivity |].
  apply sforall_trim_trail, sforall_trim_lead, sforall_squeeze.
  apply sforall_smap. intros c. destruct (name_char c) eqn:E; [assumption | reflexivity].
Qed.

(** A stored name has no line feed, and neither has it without its
    extension. *)
Lemma stored_no_line_feed (f : string) :
  sforall name_char f = true -> has_line_feed (chop_ext f) = false.
Proof.
  intros H. apply (has_line_feed_sforall name_char); [reflexivity |].
  now apply sforall_chop_ext.
Qed.

(** C2, as amended. Over a directory whose file names hold no line feed,
    every entry that a run of process-photos.sh adds has the slug derived
    from its file name: the name without its extension, in lower case, every
    character outside [a-z0-9-] replaced by a hyphen, the runs of hyphens
    collapsed, a hyphen at either end removed, which is what the pipeline of
    the script yields line by line; and that slug is made of [a-z0-9-], has
    no two hyphens in a row and none at its ends. *)
Theorem run_slugs (T : tools) (CAPTION : string) (dir : list string)
    (m : manifest) :
  Forall (fun n => has_line_feed n = false) dir ->
  let m' := json (final (run T CAPTION dir (Some m))) in
  exists added,
    Permutation (photos m') (added ++ photos m)
    /\ Forall (fun e => slug e = slug_pipeline (chop_ext (filename e))
                        /\ slug e = slug_pipeline_lines (chop_ext (filename e))
                        /\ normal_slug (slug e)) added.
Proof.
  intros _. cbv zeta.
  destruct (run_cases T CAPTION dir (Some m)) as [added [P [_ [_ [_ [I _]]]]]].
  cbv zeta in *. simpl load in *.
  exists added. split; [assumption |].
  eapply Forall_impl; [| exact I].
  intros e [_ [_ [S [Fn _]]]]. split; [assumption |]. split.
  - rewrite S. symmetry. apply slug_pipeline_lines_plain.
    now apply stored_no_line_feed.
  - rewrite S. apply slug_pipeline_normal.
Qed.

(** An instance: the directory with [b.png] and [a.jpg]. *)
Lemma run_slugs_witness :
  let m' := json (final (run all_ok "" ["b.png"; "a.jpg"] (Some empty_manifest))) in
  exists added,
    Permutation (photos m') (added ++ photos empty_manifest)
    /\ Forall (fun e => slug e = slug_pipeline (chop_ext (filename e))
                        /\ slug e = slug_pipeline_lines (chop_ext (filename e))
                        /\ normal_slug (slug e)) added.
Proof.
  cbv zeta. apply run_slugs. repeat constructor.
Defined.

(** C2, the claim as stated fails: over a directory that holds [a.jpg] and
    [a.png] one run adds two entries with the slug [a]. *)
Lemma two_files_one_slug :
  map slug (photos (json (final (run all_ok "" ["a.jpg"; "a.png"] None))))
  = ["a"; "a"].
Proof. vm_compute. reflexivity. Qed.



(** C1, at the failing input: a directory with the files [a .jpg] and
    [a-.jpg].  The first run renames [a .jpg] to [a--1.jpg] and adds both
    files.  The second run, over the directory and the manifest the first
    one left, renames [a--1.jpg] to [a-1.jpg] and adds it again. *)
Theorem rerun_adds_an_entry :
  let r1 := run all_ok "" ["a .jpg"; "a-.jpg"] None in
  let r2 := run all_ok "" (originals (final r1)) (Some (json (final r1))) in
  completed r1 = true
  /\ originals (final r1) = ["a--1.jpg"; "a-.jpg"]
  /\ map filename (photos (json (final r1))) = ["a--1.jpg"; "a-.jpg"]
  /\ completed r2 = true
  /\ new_count (final r2) = 1
  /\ originals (final r2) = ["a-1.jpg"; "a-.jpg"]
  /\ map filename (photos (json (final r2))) = ["a-.jpg"; "a--1.jpg"; "a-1.jpg"]
  /\ map slug (photos (json (final r2))) = ["a"; "a-1"; "a-1"].
Proof. vm_compute. repeat split. Qed.

End ProcessPhotosFacts.

(** ** Running process-photos.sh again *)

Module IdleFacts.
Import Text TextFacts Manifest ProcessPhotos ProcessPhotosFacts SortFacts Examples.

Lemma glob_In (d : list string) (n : string) :
  In n d -> starts_with_dot n = false -> In n (glob d).
Proof.
  intros H V. unfold glob.
  pose proof (sort_stable_perm string (fun n : string => n)
                (filter (fun n => negb (starts_with_dot n)) d)) as P.
  assert (X : In n (filter (fun n => negb (starts_with_dot n)) d))
    by (apply filter_In; split; [assumption | now rewrite V]).
  apply (Permutation_in _ (Permutation_sym P)) in X.
  destruct (sort_stable _ _); [contradiction | assumption].
Qed.

Section OneRun.
Variables (T : tools) (CAPTION : string) (known_files : list string).

(** What [ingest] leaves of a name when the loop goes on. *)
Lemma ingest_settles (f : string) (s s' : state) :
  ingest T CAPTION known_files f s = Next s' ->
  incl known_files (names s) ->
  originals s' = originals s
  /\ incl (names s) (names s')
  /\ settled (names s') f.
Proof.
  unfold ingest. intros H K.
  destruct (supported f) eqn:Sup; simpl negb in H; cbv iota in H.
  2: { injection H as <-. split; [reflexivity |]. split; [apply incl_refl |].
       right. now left. }
  destruct (grep_qxF f known_files) eqn:G.
  { injection H as <-. split; [reflexivity |]. split; [apply incl_refl |].
    right. right. apply K. unfold grep_qxF in G.
    destruct (starts_with_hyphen f); [discriminate |]. now apply mem_In. }
  cbv zeta in H.
  destruct (magick T f Web); simpl negb in H; cbv iota in H; [| discriminate].
  destruct (magick T f Thumb1080); simpl negb in H; cbv iota in H; [| discriminate].
  destruct (magick T f Thumb640); simpl negb in H; cbv iota in H; [| discriminate].
  destruct (magick T f Thumb360); simpl negb in H; cbv iota in H; [| discriminate].
  injection H as <-.
  match goal with
  | |- context [if negb ?a && ?b then say ?l ?t else ?t] =>
      destruct (negb a && b)
  end; (split; [reflexivity |]); unfold names; simpl;
    (split; [apply incl_tl, incl_refl | right; right; now left]).
Qed.

Lemma settled_mono (l l' : list string) (n : string) :
  incl l l' -> settled l n -> settled l' n.
Proof. intros I [H | [H | H]]; [now left | right; now left | right; right; auto]. Qed.

(** The loop settles the names it has been through. *)
Lemma process_file_settles (f : string) (rest : list string) (s s' : state) :
  process_file T CAPTION known_files f s = Next s' ->
  incl known_files (names s) ->
  (forall n, In n (originals s) -> In n (f :: rest) \/ settled (names s) n) ->
  incl known_files (names s')
  /\ (forall n, In n (originals s') -> In n rest \/ settled (names s') n).
Proof.
  unfold process_file. intros H K Inv.
  destruct (mem f (originals s)) eqn:M; simpl negb in H; cbv iota in H.
  2: { injection H as <-. split; [assumption |]. intros n Hn.
       destruct (Inv n Hn) as [[<- | R] | C]; auto.
       apply mem_false in M. contradiction. }
  destruct (starts_with_dot f) eqn:Hid.
  { injection H as <-. split; [assumption |]. intros n Hn.
    destruct (Inv n Hn) as [[<- | R] | C]; auto. right. now left. }
  destruct (String.eqb_spec (sanitize f) f) as [E | N].
  - destruct (ingest_settles f s s' H K) as [O [I St]].
    split; [eapply incl_tran; eassumption |].
    intros n Hn. rewrite O in Hn.
    destruct (Inv n Hn) as [[<- | R] | C]; auto.
    right. eapply settled_mono; eassumption.
  - destruct (mv f (rename_target (originals s) f (sanitize f)) (originals s))
      as [d |] eqn:Mv; [| discriminate].
    pose proof (rename_target_fresh (originals s) f N) as Fresh.
    apply mem_false in Fresh.
    set (t := rename_target (originals s) f (sanitize f)) in *.
    set (s1 := say ("   📝 Renamed: " ++ f ++ " → " ++ t) (set_originals d s)) in *.
    destruct (ingest_settles t s1 s' H K) as [O [I St]].
    split; [eapply incl_tran; eassumption |].
    intros n Hn. rewrite O in Hn. change (originals s1) with d in Hn.
    assert (Old : n = t \/ (In n (originals s) /\ n <> f)).
    { destruct (mv_cases _ _ _ _ Mv Fresh) as [[_ Ed] | [_ Ed]]; subst d.
      - right. apply filter_In in Hn. destruct Hn as [Hn Hf]. split; [assumption |].
        intros ->. now rewrite String.eqb_refl in Hf.
      - apply In_rename in Hn. destruct Hn as [[-> _] | Hn]; auto. }
    destruct Old as [-> | [Hn' Nf]]; [now right |].
    destruct (Inv n Hn') as [[<- | R] | C]; [contradiction | auto |].
    right. eapply settled_mono; eassumption.
Qed.

Lemma loop_settles (files : list string) (s s' : state) :
  loop T CAPTION known_files files s = Next s' ->
  incl known_files (names s) ->
  (forall n, In n (originals s) -> In n files \/ settled (names s) n) ->
  forall n, In n (originals s') -> settled (names s') n.
Proof.
  revert s. induction files as [|f rest IH]; intros s H K Inv.
  - injection H as <-. intros n Hn. destruct (Inv n Hn) as [[] | C]; assumption.
  - simpl in H.
    destruct (process_file T CAPTION known_files f s) as [s1 | s1] eqn:P;
      [| discriminate].
    destruct (process_file_settles f rest s s1 P K Inv) as [K1 Inv1].
    now apply (IH s1).
Qed.

(** A loop over settled names whose names are their own sanitized form adds
    nothing. *)
Lemma loop_idle (files : list string) (s : state) :
  (forall g, In g files -> In g (originals s) -> starts_with_dot g = false ->
             sanitize g = g /\ (supported g = true -> In g known_files)) ->
  exists s', loop T CAPTION known_files files s = Next s'
             /\ json s' = json s /\ new_count s' = new_count s
             /\ originals s' = originals s.
Proof.
  revert s. induction files as [|f rest IH]; intros s H.
  - exists s. auto.
  - assert (Step : exists s1, process_file T CAPTION known_files f s = Next s1
                              /\ json s1 = json s /\ new_count s1 = new_count s
                              /\ originals s1 = originals s).
    { unfold process_file.
      destruct (mem f (originals s)) eqn:M; simpl negb; cbv iota;
        [| exists s; auto].
      destruct (starts_with_dot f) eqn:Hid; [exists s; auto |].
      apply mem_In in M. destruct (H f (or_introl eq_refl) M Hid) as [E Kn].
      rewrite E, String.eqb_refl. unfold ingest.
      destruct (supported f); simpl negb; cbv iota; [| eexists; simpl; auto].
      assert (G : grep_qxF f known_files = true).
      { unfold grep_qxF. rewrite <- E, starts_sanitize, E.
        apply mem_In. now apply Kn. }
      rewrite G. exists s. auto. }
    destruct Step as [s1 [P [J [N O]]]].
    destruct (IH s1) as [s' [L [J' [N' O']]]].
    { intros g Hg Hin Hv. rewrite O in Hin. apply H; auto. now right. }
    exists s'. simpl. rewrite P. repeat split; congruence.
Qed.
End OneRun.

(** Re-running is safe when the directory needs no renaming: after a run
    that reached its end, a second run over the directory and the manifest
    that it left, in which every visible name is its own sanitized form,
    adds nothing, leaves the manifest and the directory as they are, and
    neither re-sorts nor writes a sitemap. *)
Theorem rerun_is_idle (T1 T2 : tools) (C1 C2 : string) (dir : list string)
    (json_file : option manifest) :
  let r1 := run T1 C1 dir json_file in
  completed r1 = true ->
  (forall n, In n (originals (final r1)) -> starts_with_dot n = false ->
             sanitize n = n) ->
  let r2 := run T2 C2 (originals (final r1)) (Some (json (final r1))) in
  completed r2 = true
  /\ json (final r2) = json (final r1)
  /\ new_count (final r2) = 0
  /\ originals (final r2) = originals (final r1)
  /\ sitemap r2 = None.
Proof.
  cbv zeta. intros Done Tidy.
  (* the first run settles every name *)
  assert (St : forall n, In n (originals (final (run T1 C1 dir json_file))) ->
                 settled (map filename
                            (photos (json (final (run T1 C1 dir json_file))))) n).
  { rewrite run_unfold in *.
    destruct (loop T1 C1 (map filename (photos (load json_file))) (glob dir)
                (start dir (load json_file))) as [s | s] eqn:L;
      [| discriminate Done].
    pose proof (loop_settles T1 C1 _ _ _ _ L) as S.
    destruct (epilogue_json s) as [J [_ O]]. rewrite J, O.
    intros n Hn.
    assert (X : settled (names s) n).
    { apply S; [apply incl_refl | | assumption].
      intros x Hx. simpl in Hx.
      destruct (starts_with_dot x) eqn:V; [right; now left |].
      left. now apply glob_In. }
    destruct (Nat.ltb 0 (new_count s)); [| exact X].
    eapply settled_mono; [| exact X].
    intros y Hy. unfold names in Hy. simpl.
    apply in_map_iff in Hy. destruct Hy as [e [<- He]].
    apply in_map. apply (Permutation_in _ (Permutation_sym (newest_first_perm _))).
    exact He. }
  set (r1 := run T1 C1 dir json_file) in *.
  rewrite run_unfold. simpl load.
  destruct (loop_idle T2 C2 (map filename (photos (json (final r1))))
              (glob (originals (final r1)))
              (start (originals (final r1)) (json (final r1))))
    as [s' [L [J [N O]]]].
  { intros g Hg Hin Hv. simpl in Hin. split; [now apply Tidy |].
    intros Sup. destruct (St g Hin) as [H | [H | H]]; congruence. }
  rewrite L. simpl in J, N, O.
  destruct (epilogue_json s') as [J' [N' O']].
  rewrite N in J', N'. simpl in J'.
  unfold epilogue. rewrite N. simpl Nat.ltb. cbv iota.
  destruct (Nat.ltb 0 (skipped_count s')); simpl; auto.
Qed.


(** An instance: the directory with [b.png] and [a.jpg]. *)
Lemma rerun_is_idle_example :
  let r1 := run all_ok "" ["b.png"; "a.jpg"] None in
  let r2 := run all_ok "" (originals (final r1)) (Some (json (final r1))) in
  completed r2 = true
  /\ json (final r2) = json (final r1)
  /\ new_count (final r2) = 0
  /\ originals (final r2) = originals (final r1)
  /\ sitemap r2 = None.
Proof.
  cbv zeta. apply rerun_is_idle; [reflexivity |].
  intros n Hn _. vm_compute in Hn.
  destruct Hn as [<- | [<- | []]]; reflexivity.
Defined.

End IdleFacts.

(** ** The slug of the script and the fallback of the browser *)

Module FallbackFacts.
Import Text TextFacts Manifest ProcessPhotos ProcessPhotosFacts SortFacts IdleFacts Examples.

(** A run that reaches its end settles every name of the directory: each
    is hidden, or no image, or the name of an entry. *)
Lemma run_settles (T : tools) (CAPTION : string) (dir : list string)
    (json_file : option manifest) :
  let r := run T CAPTION dir json_file in
  completed r = true ->
  forall n, In n (originals (final r)) ->
    settled (map filename (photos (json (final r)))) n.
Proof.
  cbv zeta. intros Done. rewrite run_unfold in *.
  destruct (loop T CAPTION (map filename (photos (load json_file))) (glob dir)
              (start dir (load json_file))) as [s | s] eqn:L;
    [| discriminate Done].
  pose proof (loop_settles T CAPTION _ _ _ _ L) as S.
  destruct (epilogue_json s) as [J [_ O]]. rewrite J, O.
  intros n Hn.
  assert (X : settled (names s) n).
  { apply S; [apply incl_refl | | assumption].
    intros x Hx. simpl in Hx.
    destruct (starts_with_dot x) eqn:V; [right; now left |].
    left. now apply glob_In. }
  destruct (Nat.ltb 0 (new_count s)); [| exact X].
  eapply settled_mono; [| exact X].
  intros y Hy. unfold names in Hy. simpl.
  apply in_map_iff in Hy. destruct Hy as [e [<- He]].
  apply in_map. apply (Permutation_in _ (Permutation_sym (newest_first_perm _))).
  exact He.
Qed.

(** C8, as amended. The browser's fallback agrees with the script on the
    entries of a directory whose names hold no line feed, as the names of
    the manifest (of which [jq -r] prints one to a line).  Every entry that
    a run of process-photos.sh adds bears the name of a file of the
    directory as the run leaves it, made of [a-zA-Z0-9._-]; its slug is
    what the pipeline of the script yields, line by line, for that name
    without its extension; and [slugFor] applied to the photo object without
    its [slug] key yields that slug.  There is such an entry for every file
    that a run which reaches its end leaves in the directory, if it is not
    hidden, has a supported extension and was not in the manifest. *)
Theorem run_slug_fallback (T : tools) (CAPTION : string) (dir : list string)
    (m : manifest) :
  NoDup dir ->
  Forall (fun n => has_line_feed n = false) dir ->
  Forall (fun e => has_line_feed (filename e) = false) (photos m) ->
  let r := run T CAPTION dir (Some m) in
  exists added,
    Permutation (photos (json (final r))) (added ++ photos m)
    /\ Forall (fun e =>
                In (filename e) (originals (final r))
                /\ sforall name_char (filename e) = true
                /\ slug e = slug_pipeline_lines (chop_ext (filename e))
                /\ Lightbox.slugFor (Lightbox.without_slug (Lightbox.of_manifest e))
                   = slug e) added
    /\ (completed r = true ->
        forall f, In f (originals (final r)) -> starts_with_dot f = false ->
          supported f = true -> ~ In f (map filename (photos m)) ->
          exists e, In e added /\ filename e = f).
Proof.
  intros ND _ _. cbv zeta.
  destruct (run_cases T CAPTION dir (Some m)) as [added [P [_ [_ [_ [I D]]]]]].
  cbv zeta in *. simpl load in *. destruct (D ND) as [_ Files].
  exists added. split; [assumption |]. split.
  - rewrite Forall_forall in *. intros e He.
    destruct (I e He) as [_ [_ [S [Fn Ff]]]].
    split; [now apply Files |]. split; [exact Fn |]. split.
    + rewrite S. symmetry. apply slug_pipeline_lines_plain.
      now apply stored_no_line_feed.
    + unfold Lightbox.slugFor. simpl. rewrite S.
      now apply slug_of_filename_pipeline.
  - intros Done f Hf V Sup New.
    destruct (run_settles T CAPTION dir (Some m) Done f Hf) as [H | [H | H]];
      [congruence | congruence |].
    apply in_map_iff in H. destruct H as [e [E He]].
    apply (Permutation_in _ P) in He. apply in_app_or in He.
    destruct He as [He | He]; [now exists e |].
    exfalso. apply New. rewrite <- E. now apply in_map.
Qed.

(** An instance: the directory with [b.png] and [a.jpg]. *)
Lemma run_slug_fallback_witness :
  let r := run all_ok "" ["b.png"; "a.jpg"] (Some empty_manifest) in
  exists added,
    Permutation (photos (json (final r))) (added ++ photos empty_manifest)
    /\ Forall (fun e =>
                In (filename e) (originals (final r))
                /\ sforall name_char (filename e) = true
                /\ slug e = slug_pipeline_lines (chop_ext (filename e))
                /\ Lightbox.slugFor (Lightbox.without_slug (Lightbox.of_manifest e))
                   = slug e) added
    /\ (completed r = true ->
        forall f, In f (originals (final r)) -> starts_with_dot f = false ->
          supported f = true -> ~ In f (map filename (photos empty_manifest)) ->
          exists e, In e added /\ filename e = f).
Proof.
  cbv zeta. apply run_slug_fallback.
  - apply nodupb_NoDup. reflexivity.
  - repeat constructor.
  - constructor.
Defined.

(** C8, the claim as stated fails: for a file name with a line feed, which
    the renaming step leaves as it is, the pipeline of the script keeps the
    line feed in the slug ([sed] edits line by line and never sees it),
    while [slugFor] replaces it by a hyphen. *)
Lemma line_feed_slug_differs :
  let f := "a" ++ String LF "b.jpg" in
  has_line_feed f = true
  /\ sanitize_lines f = f
  /\ slug_pipeline_lines (chop_ext f) = "a" ++ String LF "b"
  /\ Lightbox.slugFor (photo_named f "") = "a-b".
Proof. vm_compute. repeat split. Qed.

End FallbackFacts.

(** ** What the scripts do with a file they cannot handle *)

Module FailureFacts.
Import Text TextFacts Manifest Examples.

Section OneRun.
Import ProcessPhotos.
Variables (T : tools) (CAPTION : string) (known_files : list string).









Lemma run_stopped (dir : list string) (json_file : option manifest) (s : state) :
  loop T CAPTION (map filename (photos (load json_file))) (glob dir)
    (start dir (load json_file)) = Exit s ->
  run T CAPTION dir json_file = {| final := s; completed := false; sitemap := None |}.
Proof. intros H. unfold run. cbv zeta. now rewrite H. Qed.
End OneRun.

Section OneItem.
Import ImportInstagram.
Variables (T : tools) (slug : string) (media_count mi : nat).





End OneItem.




End FailureFacts.

(** ** The Instagram import *)

Module ImportFacts.
Import Text Manifest Examples.


End ImportFacts.

(** ** The lightbox *)

Module LightboxFacts.
Import Text TextFacts Lightbox Examples.

Lemma findIndex_range (A : Type) (f : A -> bool) (l : list A) :
  (findIndex f l = -1 \/ 0 <= findIndex f l < Z.of_nat (length l))%Z.
Proof.
  induction l as [|x r IH]; [now left |].
  simpl findIndex. destruct (f x); [right; simpl length; lia |].
  destruct (Z.eqb_spec (findIndex f r) (-1)); [now left |].
  right. simpl length. lia.
Qed.

(** [findIndex] yields the first index at which the test holds. *)
Lemma findIndex_first (A : Type) (f : A -> bool) (l : list A) (i : nat) (x : A) :
  nth_error l i = Some x -> f x = true ->
  (forall j y, j < i -> nth_error l j = Some y -> f y = false) ->
  findIndex f l = Z.of_nat i.
Proof.
  revert i. induction l as [|z r IH]; intros i Hn Hx Hfirst.
  - destruct i; discriminate.
  - destruct i as [|i].
    + injection Hn as ->. simpl. now rewrite Hx.
    + simpl in Hn. simpl findIndex.
      rewrite (Hfirst 0 z) by (simpl; auto; lia).
      rewrite (IH i Hn Hx).
      * destruct (Z.eqb_spec (Z.of_nat i) (-1)); lia.
      * intros j y Hj Hy. apply (Hfirst (S j) y); [lia | assumption].
Qed.

Lemma strip_prefix_append (pat x : string) : strip_prefix pat (pat ++ x) = Some x.
Proof.
  induction pat as [|a p IH]; [now destruct x |].
  simpl. now rewrite Ascii.eqb_refl.
Qed.

Lemma starts_with_append (pat x : string) : starts_with pat (pat ++ x) = true.
Proof.
  unfold starts_with. induction pat as [|a p IH]; [now destruct x |].
  simpl. destruct (ascii_dec a a); [assumption | contradiction].
Qed.

Lemma hash_slug_photo (slug : string) : hash_slug ("#photo=" ++ slug) = slug.
Proof. unfold hash_slug. now rewrite strip_prefix_append. Qed.

Lemma photo_at_nth (s : state) (i : nat) :
  photo_at s (Z.of_nat i) = nth_error (_photos s) i.
Proof.
  unfold photo_at. destruct (Z.ltb_spec (Z.of_nat i) 0); [lia |].
  now rewrite Nat2Z.id.
Qed.

Lemma preload_frame (index : Z) (s : state) :
  _photos (preload index s) = _photos s
  /\ _currentIndex (preload index s) = _currentIndex s
  /\ location_hash (preload index s) = location_hash s
  /\ modal_shown (preload index s) = modal_shown s
  /\ document (preload index s) = document s.
Proof.
  unfold preload. destruct (_ || _); [auto |].
  destruct (photo_at s index); simpl; auto.
Qed.

Section WithLocale.
Variable formatDate : string -> string.

Lemma show_out_of_range (index : Z) (s : state) :
  (index < 0 \/ index >= Z.of_nat (length (_photos s)))%Z ->
  show formatDate index s = s.
Proof.
  intros H. unfold show.
  destruct (Z.ltb_spec index 0); [reflexivity |].
  destruct (Z.geb_spec index (Z.of_nat (length (_photos s)))); [reflexivity | lia].
Qed.

Lemma preload_out_of_range (index : Z) (s : state) :
  (index < 0 \/ index >= Z.of_nat (length (_photos s)))%Z ->
  preload index s = s.
Proof.
  intros H. unfold preload.
  destruct (Z.ltb_spec index 0); [reflexivity |].
  destruct (Z.geb_spec index (Z.of_nat (length (_photos s)))); [reflexivity | lia].
Qed.

(** What [show] does at an index of the array. *)
Lemma show_in_range (i : nat) (p : photo) (s : state) :
  nth_error (_photos s) i = Some p ->
  let s' := show formatDate (Z.of_nat i) s in
  _photos s' = _photos s
  /\ _currentIndex s' = Z.of_nat i
  /\ modal_shown s' = modal_shown s
  /\ document s' = render formatDate s (Z.of_nat i) p
  /\ location_hash s'
     = (if truthy (_palBaseUrl p) then "" else "#photo=" ++ slugFor p).
Proof.
  intros Hn. cbv zeta. unfold show.
  assert (Hi : i < length (_photos s)) by (apply nth_error_Some; congruence).
  destruct (Z.ltb_spec (Z.of_nat i) 0); [lia |].
  destruct (Z.geb_spec (Z.of_nat i) (Z.of_nat (length (_photos s)))); [lia |].
  simpl orb. cbv iota. rewrite photo_at_nth, Hn.
  match goal with
  | |- context [preload ?a (preload ?b ?t)] =>
      destruct (preload_frame a (preload b t)) as [A1 [A2 [A3 [A4 A5]]]];
      destruct (preload_frame b t) as [B1 [B2 [B3 [B4 B5]]]]
  end.
  rewrite A1, A2, A3, A4, A5, B1, B2, B3, B4, B5.
  destruct (truthy (_palBaseUrl p)); simpl; auto.
Qed.

Lemma show_photos (index : Z) (s : state) :
  _photos (show formatDate index s) = _photos s.
Proof.
  destruct (Z.ltb_spec index 0) as [L|L];
    [now rewrite show_out_of_range by lia |].
  destruct (Z.ltb_spec index (Z.of_nat (length (_photos s)))) as [U|U];
    [| now rewrite show_out_of_range by lia].
  destruct (nth_error (_photos s) (Z.to_nat index)) as [p|] eqn:E.
  - pose proof (show_in_range (Z.to_nat index) p s E) as H.
    cbv zeta in H. rewrite Z2Nat.id in H by lia. tauto.
  - apply nth_error_None in E. lia.
Qed.

Lemma show_keeps_range (index : Z) (s : state) :
  in_range s -> in_range (show formatDate index s).
Proof.
  intros R. unfold in_range. rewrite show_photos.
  destruct (Z.ltb_spec index 0) as [L|L];
    [now rewrite show_out_of_range by lia |].
  destruct (Z.ltb_spec index (Z.of_nat (length (_photos s)))) as [U|U];
    [| now rewrite show_out_of_range by lia].
  destruct (nth_error (_photos s) (Z.to_nat index)) as [p|] eqn:E.
  - pose proof (show_in_range (Z.to_nat index) p s E) as H.
    cbv zeta in H. rewrite Z2Nat.id in H by lia.
    destruct H as [_ [H _]]. rewrite H. lia.
  - apply nth_error_None in E. lia.
Qed.

Lemma handle_keeps_range (e : event) (s : state) :
  in_range s -> in_range (handle formatDate e s).
Proof.
  intros R. destruct e; simpl handle.
  - now apply show_keeps_range.
  - now apply show_keeps_range.
  - destruct (negb (modal_shown s)); [assumption |].
    destruct (String.eqb key "ArrowLeft"); [now apply show_keeps_range |].
    destruct (String.eqb key "ArrowRight"); [now apply show_keeps_range | assumption].
  - now apply show_keeps_range.
  - now apply show_keeps_range.
  - destruct (_suppressHashChange s); [exact R |].
    destruct (starts_with "#photo=" hash).
    + destruct (negb (_ =? -1)%Z); [| exact R].
      destruct (modal_shown _).
      * now apply show_keeps_range.
      * unfold open, in_range. simpl. now apply show_keeps_range.
    + destruct (modal_shown _); exact R.
  - exact R.
  - exact R.
Qed.

Lemma after_keeps_range (events : list event) (s : state) :
  in_range s -> in_range (after formatDate events s).
Proof.
  revert s. induction events as [|e r IH]; intros s R; [assumption |].
  simpl. apply IH. now apply handle_keeps_range.
Qed.

Lemma init_in_range (photos : list photo) (pr : profile) (hash : string)
    (blank : page) :
  photos <> [] -> in_range (init formatDate photos pr hash blank).
Proof.
  intros N.
  assert (R : in_range (loaded photos pr hash blank)).
  { unfold in_range. simpl. destruct photos; [contradiction | simpl length; lia]. }
  unfold init, checkHash.
  destruct (negb (starts_with "#photo=" (location_hash _))); [exact R |].
  destruct (negb (_ =? -1)%Z); [| exact R].
  unfold open, in_range. simpl. now apply show_keeps_range.
Qed.

(** C9, as amended. Navigation is safe at the bounds: for an index outside
    [0, photos.length), [show] and [preload] return the state they are
    given — current index, page, hash and all; so Prev on the first photo
    and Next on the last one do nothing; and no sequence of events of the
    listeners takes the current index out of the array, be it from a state
    where it is within, or from the loading of a page with photos. *)
Theorem navigation_bounds_safe (s : state) (index : Z) (events : list event)
    (photos : list photo) (pr : profile) (hash : string) (blank : page) :
  (index < 0 \/ index >= Z.of_nat (length (_photos s)))%Z ->
  show formatDate index s = s
  /\ preload index s = s
  /\ (_currentIndex s = 0%Z -> handle formatDate ClickPrev s = s)
  /\ (_currentIndex s = (Z.of_nat (length (_photos s)) - 1)%Z ->
      handle formatDate ClickNext s = s)
  /\ (in_range s -> in_range (after formatDate events s))
  /\ (photos <> [] ->
      in_range (after formatDate events (init formatDate photos pr hash blank))).
Proof.
  intros H.
  split; [now apply show_out_of_range |].
  split; [now apply preload_out_of_range |].
  split; [| split; [| split]].
  - intros E. simpl. apply show_out_of_range. lia.
  - intros E. simpl. apply show_out_of_range. lia.
  - apply after_keeps_range.
  - intros N. now apply after_keeps_range, init_in_range.
Qed.

(** The fragment stays in agreement with the photo shown under every event
    of the listeners other than a change of the fragment itself. *)
Lemma show_agrees (index : Z) (s : state) :
  hash_agrees s -> hash_agrees (show formatDate index s).
Proof.
  intros A.
  destruct (Z.ltb_spec index 0) as [Neg | Pos];
    [now rewrite show_out_of_range by lia |].
  destruct (Z.ltb_spec index (Z.of_nat (length (_photos s)))) as [In | Out];
    [| now rewrite show_out_of_range by lia].
  destruct (nth_error (_photos s) (Z.to_nat index)) as [p |] eqn:N.
  2: { apply nth_error_None in N. lia. }
  rewrite <- (Z2Nat.id index Pos).
  destruct (show_in_range (Z.to_nat index) p s N) as [P [C [_ [_ H]]]].
  cbv zeta in *. intros _ q Hq L. unfold photo_at in Hq. rewrite P, C in Hq.
  destruct (Z.ltb_spec (Z.of_nat (Z.to_nat index)) 0); [lia |].
  rewrite Nat2Z.id, N in Hq. injection Hq as <-. now rewrite L in H.
Qed.

Lemma handle_agrees (e : event) (s : state) :
  is_hash_change e = false -> hash_agrees s -> hash_agrees (handle formatDate e s).
Proof.
  intros E A. destruct e; simpl; try (now apply show_agrees);
    try discriminate E.
  - destruct (negb (modal_shown s)); [exact A |].
    destruct (String.eqb key "ArrowLeft"); [now apply show_agrees |].
    destruct (String.eqb key "ArrowRight"); [now apply show_agrees | exact A].
  - intros M. discriminate M.
  - exact A.
Qed.

Lemma after_agrees (events : list event) (s : state) :
  forallb (fun e => negb (is_hash_change e)) events = true ->
  hash_agrees s -> hash_agrees (after formatDate events s).
Proof.
  revert s. induction events as [|e r IH]; intros s F A; [exact A |].
  simpl in F. apply andb_prop in F. destruct F as [E F].
  simpl. apply IH; [exact F |]. apply handle_agrees; [| exact A].
  now apply negb_true_iff.
Qed.

Lemma open_agrees (n : nat) (p : photo) (s : state) :
  nth_error (_photos s) n = Some p ->
  hash_agrees (open formatDate (Z.of_nat n) s).
Proof.
  intros N.
  destruct (show_in_range n p s N) as [P [C [_ [_ H]]]].
  cbv zeta in *. intros _ q Hq L. unfold open, photo_at in *. simpl in *.
  rewrite P, C in Hq.
  destruct (Z.ltb_spec (Z.of_nat n) 0); [lia |].
  rewrite Nat2Z.id, N in Hq. injection Hq as <-. now rewrite L in H.
Qed.

Lemma init_agrees (photos : list photo) (pr : profile) (hash : string)
    (blank : page) :
  hash_agrees (init formatDate photos pr hash blank).
Proof.
  unfold init, checkHash.
  set (s0 := loaded photos pr hash blank).
  assert (A0 : hash_agrees s0) by (intros M; discriminate M).
  destruct (negb (starts_with "#photo=" (location_hash s0))); [exact A0 |].
  cbv zeta.
  pose proof (findIndex_range photo
                (fun p => String.eqb (slugFor p) (hash_slug (location_hash s0)))
                (_photos s0)) as R.
  unfold indexBySlug.
  destruct (Z.eqb_spec
              (findIndex (fun p => String.eqb (slugFor p) (hash_slug (location_hash s0)))
                 (_photos s0)) (-1)) as [E | NE]; [exact A0 |].
  simpl negb. cbv iota.
  set (idx := findIndex _ _) in *.
  destruct (nth_error (_photos s0) (Z.to_nat idx)) as [p |] eqn:N.
  - rewrite <- (Z2Nat.id idx) by lia. now apply (open_agrees _ p).
  - apply nth_error_None in N. lia.
Qed.

(** C5, as amended. Deep link, for a slug made of [a-z0-9-], which the
    address bar keeps as it is written: when no photo before [photos[i]] has
    its slug, looking up the slug of [photos[i]] yields [i]; the page loaded
    with the hash ["#photo=" + slug] opens the lightbox on that photo; when
    [show] displays it and it is a local photo, the hash is
    ["#photo=" + slug]; and the hash goes on agreeing with the local photo
    shown, from the loading of the page or from any state where it agrees,
    under every sequence of events of the listeners that holds no change of
    the fragment. *)
Theorem deep_link_round_trip (photos : list photo) (pr : profile) (blank : page)
    (i : nat) (p : photo) (events : list event) :
  nth_error photos i = Some p ->
  (forall j q, j < i -> nth_error photos j = Some q -> slugFor q <> slugFor p) ->
  sforall slug_char (slugFor p) = true ->
  let hash := "#photo=" ++ slugFor p in
  let s := init formatDate photos pr hash blank in
  indexBySlug (slugFor p) (loaded photos pr hash blank) = Z.of_nat i
  /\ _currentIndex s = Z.of_nat i
  /\ modal_shown s = true
  /\ lightboxPhoto_src (document s) = imgSrc p
  /\ (forall s0, _photos s0 = photos -> truthy (_palBaseUrl p) = false ->
        location_hash (show formatDate (Z.of_nat i) s0) = "#photo=" ++ slugFor p)
  /\ hash_agrees s
  /\ (forall s0, hash_agrees s0 ->
        forallb (fun e => negb (is_hash_change e)) events = true ->
        hash_agrees (after formatDate events s0)).
Proof.
  intros Hn Hfirst _. cbv zeta.
  assert (Ix : indexBySlug (slugFor p)
                 (loaded photos pr ("#photo=" ++ slugFor p) blank) = Z.of_nat i).
  { unfold indexBySlug. simpl _photos.
    apply (findIndex_first _ _ photos i p Hn); [apply String.eqb_refl |].
    intros j q Hj Hq. apply String.eqb_neq. now apply (Hfirst j q). }
  split; [exact Ix |].
  assert (I : init formatDate photos pr ("#photo=" ++ slugFor p) blank
              = open formatDate (Z.of_nat i)
                  (loaded photos pr ("#photo=" ++ slugFor p) blank)).
  { unfold init, checkHash.
    change (location_hash (loaded photos pr ("#photo=" ++ slugFor p) blank))
      with ("#photo=" ++ slugFor p).
    rewrite starts_with_append, hash_slug_photo. cbv zeta. rewrite !Ix.
    destruct (Z.eqb_spec (Z.of_nat i) (-1)); [lia | reflexivity]. }
  pose proof (show_in_range i p
                (loaded photos pr ("#photo=" ++ slugFor p) blank) Hn)
    as [_ [C [_ [D _]]]].
  split; [rewrite I; exact C |].
  split; [now rewrite I |].
  split; [rewrite I; unfold open; cbn [document]; now rewrite D |].
  split.
  { intros s0 E L. pose proof (show_in_range i p s0) as H.
    rewrite E in H. destruct (H Hn) as [_ [_ [_ [_ X]]]]. now rewrite L in X. }
  split; [apply init_agrees |].
  intros s0 A F. now apply after_agrees.
Qed.

End WithLocale.

(** An instance: the index 3 in a lightbox of three photos, opened on the
    last one by its link. *)
Lemma navigation_bounds_safe_witness :
  let s := init (fun d => d) three nobody "#photo=c" blank_page in
  let events := [ClickNext; ClickPrev; ClickPrev; ClickPrev] in
  show (fun d => d) 3 s = s
  /\ preload 3 s = s
  /\ (_currentIndex s = 0%Z -> handle (fun d => d) ClickPrev s = s)
  /\ (_currentIndex s = (Z.of_nat (length (_photos s)) - 1)%Z ->
      handle (fun d => d) ClickNext s = s)
  /\ (in_range s -> in_range (after (fun d => d) events s))
  /\ (three <> [] ->
      in_range (after (fun d => d) events
                  (init (fun d => d) three nobody "" blank_page))).
Proof.
  cbv zeta. apply navigation_bounds_safe.
  right. vm_compute. intros H. discriminate H.
Defined.

(** An instance: the third of three photos, which has no [slug] key. *)
Lemma deep_link_round_trip_witness :
  let p := photo_named "c.jpg" "" in
  let events := [ClickPrev; KeyDown "ArrowRight"; SwipeRight; AnimationFrame] in
  let s := init (fun d => d) three nobody "#photo=c" blank_page in
  indexBySlug "c" (loaded three nobody "#photo=c" blank_page) = 2%Z
  /\ _currentIndex s = 2%Z
  /\ modal_shown s = true
  /\ lightboxPhoto_src (document s) = "photos/web/c.webp"
  /\ (forall s0, _photos s0 = three -> truthy (_palBaseUrl p) = false ->
        location_hash (show (fun d => d) 2 s0) = "#photo=c")
  /\ hash_agrees s
  /\ (forall s0, hash_agrees s0 ->
        forallb (fun e => negb (is_hash_change e)) events = true ->
        hash_agrees (after (fun d => d) events s0)).
Proof.
  cbv zeta.
  apply (deep_link_round_trip (fun d => d) three nobody blank_page 2
           (photo_named "c.jpg" "")).
  - reflexivity.
  - intros j q Hj Hq.
    destruct j as [|[|j]]; [| | lia]; injection Hq as <-; vm_compute; discriminate.
  - reflexivity.
Defined.

(** C5, the claim as stated fails, in each half.  Of two photos with the
    slug [a], the second is at index 1, but its slug is looked up at index
    0, and the page loaded with its link opens the first.  And the hash does
    not always agree with the local photo shown: with the lightbox open on
    the photo [c], a change of the fragment to [#photo=zzz], which names no
    photo, leaves [c] on display under that fragment. *)
Lemma deep_link_fails_twice :
  (nth_error twins 1 = Some (photo_named "a.png" "a")
   /\ indexBySlug (slugFor (photo_named "a.png" "a"))
        (loaded twins nobody "" blank_page) = 0%Z
   /\ _currentIndex (init (fun d => d) twins nobody "#photo=a" blank_page) = 0%Z
   /\ lightboxPhoto_src
        (document (init (fun d => d) twins nobody "#photo=a" blank_page))
      = "photos/web/a.webp")
  /\ (let s := after (fun d => d) [AnimationFrame; HashChange "#photo=zzz"]
                 (init (fun d => d) three nobody "#photo=c" blank_page) in
      modal_shown s = true
      /\ photo_at s (_currentIndex s) = Some (photo_named "c.jpg" "")
      /\ truthy (_palBaseUrl (photo_named "c.jpg" "")) = false
      /\ lightboxPhoto_src (document s) = "photos/web/c.webp"
      /\ location_hash s = "#photo=zzz"
      /\ slugFor (photo_named "c.jpg" "") = "c").
Proof. vm_compute. repeat split. Qed.

(** C9, the claim as stated fails: the current index does not always stay
    within range.  [setPhotos], which other modules call, replaces the list
    and keeps the index, so that the index 2 of a lightbox opened on the
    third of three photos is outside a list of one photo; and [init] leaves
    the index 0 for an empty list. *)
Lemma setPhotos_leaves_the_index :
  let s := init (fun d => d) three nobody "#photo=c" blank_page in
  in_range s
  /\ _currentIndex (setPhotos [photo_named "a.jpg" "a"] s) = 2%Z
  /\ length (_photos (setPhotos [photo_named "a.jpg" "a"] s)) = 1
  /\ ~ in_range (setPhotos [photo_named "a.jpg" "a"] s)
  /\ ~ in_range (init (fun d => d) [] nobody "" blank_page).
Proof.
  cbv zeta. unfold in_range. vm_compute.
  split; [split; [discriminate | reflexivity] |].
  split; [reflexivity |]. split; [reflexivity |].
  split; intros [A B]; discriminate B.
Qed.


End LightboxFacts.

Module AdminFacts.
Import Text TextFacts SearchFacts Manifest Admin Examples.

Lemma candidate_inj (id : string) (i j : nat) :
  candidate id i = candidate id j -> i = j.
Proof.
  destruct i as [|i], j as [|j]; simpl; intros H.
  - reflexivity.
  - rewrite <- (append_nil_r id) in H at 1. apply append_cancel_l in H.
    discriminate H.
  - rewrite <- (append_nil_r id) in H at 2. apply append_cancel_l in H.
    discriminate H.
  - apply append_cancel_l in H. injection H as H.
    apply decimal_inj in H. lia.
Qed.

Lemma unique_id_first_free (ids : list string) (id : string) (fuel k : nat) :
  unique_id ids id fuel (candidate id k) (S (S k))
  = candidate id (first_free (fun x => mem x ids) (candidate id) fuel k).
Proof.
  revert k. induction fuel as [|f IH]; intros k; simpl; [reflexivity |].
  destruct (mem (candidate id k) ids); [| reflexivity].
  apply (IH (S k)).
Qed.

Lemma first_free_below (taken : string -> bool) (cand : nat -> string)
    (fuel c j : nat) :
  c <= j < first_free taken cand fuel c -> taken (cand j) = true.
Proof.
  revert c. induction fuel as [|f IH]; intros c H; simpl in H; [lia |].
  destruct (taken (cand c)) eqn:E; [| lia].
  destruct (Nat.eq_dec j c) as [-> | N]; [assumption |].
  apply (IH (S c)). lia.
Qed.

(** The while loop of [saveAlbum] ends on an id that no album has. *)
Lemma unique_id_fresh (ids : list string) (id : string) :
  mem (unique_id ids id (S (length ids)) id 2) ids = false.
Proof.
  change (unique_id ids id (S (length ids)) id 2)
    with (unique_id ids id (S (length ids)) (candidate id 0) 2).
  rewrite unique_id_first_free.
  apply first_free_fresh; [apply candidate_inj | lia].
Qed.

Lemma map_id_update_at (i : nat) (f : album -> album) (l : list album) :
  (forall a, id (f a) = id a) -> map id (update_at i f l) = map id l.
Proof.
  intros H. revert i. induction l as [|a r IH]; intros i;
    [now destruct i |].
  destruct i; simpl; [now rewrite H | now rewrite IH].
Qed.

(** C10. [saveAlbum] keeps the ids of the albums apart: when no two albums
    have the same id before the call, no two have the same id after it,
    whether it creates an album, updates one or refuses an empty title; and
    the id of a created album is the first of [id], [id-2], [id-3], ... that
    no album has, where [id] is the slug of the title or, when that is
    empty, ["album-"] and the time. *)
Theorem saveAlbum_ids_unique (now : nat) (s : state) :
  NoDup (map id (albums (_photosData s))) ->
  NoDup (map id (albums (_photosData (saveAlbum now s))))
  /\ (truthy (trim (albumTitle (inputs s))) = true ->
      (_editingAlbumIndex s < 0)%Z ->
      let id0 := if truthy (slugify (trim (albumTitle (inputs s))))
                 then slugify (trim (albumTitle (inputs s)))
                 else "album-" ++ decimal now in
      exists k,
        map id (albums (_photosData (saveAlbum now s)))
        = (map id (albums (_photosData s)) ++ [candidate id0 k])%list
        /\ ~ In (candidate id0 k) (map id (albums (_photosData s)))
        /\ forall j, j < k -> In (candidate id0 j) (map id (albums (_photosData s)))).
Proof.
  intros ND. unfold saveAlbum.
  set (title := trim (albumTitle (inputs s))).
  set (ids := map id (albums (_photosData s))) in *.
  destruct (truthy title) eqn:Ht; simpl negb; cbv iota.
  2: { split; [exact ND | discriminate]. }
  cbv zeta.
  destruct (Z.leb_spec 0 (_editingAlbumIndex s)) as [Ed | Ed].
  - split; [| lia].
    destruct (nth_error (albums (_photosData s)) (Z.to_nat (_editingAlbumIndex s)));
      [| exact ND].
    simpl. rewrite map_id_update_at; [exact ND | reflexivity].
  - set (id0 := if truthy (slugify title) then slugify title
                else "album-" ++ decimal now).
    set (k := first_free (fun x => mem x ids) (candidate id0)
                (S (length (albums (_photosData s)))) 0).
    assert (U : unique_id ids id0 (S (length (albums (_photosData s)))) id0 2
                = candidate id0 k)
      by apply (unique_id_first_free ids id0 _ 0).
    rewrite U.
    cbn [resetAlbumForm showToast set_albums _photosData with_albums albums].
    rewrite map_app. cbn [map id]. fold ids.
    assert (Fresh : ~ In (candidate id0 k) ids).
    { apply mem_false. apply first_free_fresh; [apply candidate_inj |].
      unfold ids. rewrite length_map. lia. }
    split.
    + apply NoDup_app; [exact ND | repeat constructor; auto |].
      intros x Hx [<- | []]. contradiction.
    + intros _ _. exists k. split; [reflexivity |]. split; [exact Fresh |].
      intros j Hj. apply mem_In.
      apply (first_free_below (fun x => mem x ids) (candidate id0)
               (S (length (albums (_photosData s)))) 0 j). fold k. lia.
Qed.

(** An instance: a third album titled Trip. *)
Lemma saveAlbum_ids_unique_witness :
  NoDup (map id (albums (_photosData (saveAlbum 17 trips))))
  /\ map id (albums (_photosData (saveAlbum 17 trips)))
     = ["trip"; "trip-2"; "x"; "trip-3"].
Proof.
  split; [| reflexivity].
  apply (saveAlbum_ids_unique 17 trips).
  apply nodupb_NoDup. reflexivity.
Defined.

End AdminFacts.

(** ** Asynchronous functions *)

Module AsyncFacts.
Import Text Async.

(** *** Requests in flight *)

Lemma fetches_pile_up (urls pending : list string) :
  fold_left net_step (map Fetch urls) pending = (pending ++ urls)%list.
Proof.
  revert pending. induction urls as [|u r IH]; intros pending; simpl.
  - now rewrite app_nil_r.
  - rewrite IH, <- app_assoc. reflexivity.
Qed.

Lemma peak_from_app (a b : list net) (pending : list string) :
  peak_from pending (a ++ b)
  = Nat.max (peak_from pending a) (peak_from (fold_left net_step a pending) b).
Proof.
  revert pending. induction a as [|e a IH]; intros pending; simpl.
  - destruct b; simpl; lia.
  - rewrite IH. lia.
Qed.

Lemma peak_from_ge (trace : list net) (pending : list string) :
  length pending <= peak_from pending trace.
Proof. destruct trace; simpl; lia. Qed.

Lemma fetches_peak (urls pending : list string) :
  peak_from pending (map Fetch urls) = length pending + length urls.
Proof.
  revert pending. induction urls as [|u r IH]; intros pending; simpl.
  - lia.
  - rewrite IH, length_app. simpl. lia.
Qed.

Lemma remove_first_length (u : string) (l : list string) :
  length (remove_first u l) <= length l.
Proof.
  induction l as [|x r IH]; simpl; [lia |].
  destruct (String.eqb x u); simpl; lia.
Qed.

(** While requests are only settled, no more are in flight than at the
    start. *)
Lemma settles_peak (trace : list net) (pending : list string) :
  forallb is_settle trace = true ->
  peak_from pending trace = length pending.
Proof.
  revert pending. induction trace as [|e r IH]; intros pending H; [reflexivity |].
  simpl in H. apply andb_prop in H. destruct H as [E H].
  destruct e as [u | u]; [discriminate |]. simpl.
  rewrite (IH _ H). pose proof (remove_first_length u pending). lia.
Qed.

Lemma forallb_settle_app (a b : list net) :
  forallb is_settle a = true -> forallb is_settle b = true ->
  forallb is_settle (a ++ b) = true.
Proof. intros A B. rewrite forallb_app. now rewrite A, B. Qed.

(** *** Functions that issue one request *)

Section Tasks.
Variables (doc store : Type) (N : network doc).
Variable A : Type.

Lemma advance_quiet (t : task doc store A) (s : store) :
  quiet t ->
  fst (advance t s) = [] /\ quiet (fst (snd (advance t s))).
Proof.
  intros Q. revert s. induction Q as [a | f next Q IH | url k Q IH]; intros s.
  - split; [reflexivity | constructor].
  - simpl. apply IH.
  - split; [reflexivity | now constructor].
Qed.

Lemma resume_calm (t : task doc store A) (s : store) :
  calm t ->
  forallb is_settle (fst (resume N t s)) = true
  /\ calm (fst (snd (resume N t s))).
Proof.
  intros [Q | [u [k [-> Q]]]].
  - destruct Q as [a | f next Q | url k Q]; simpl.
    + split; [reflexivity | left; constructor].
    + split; [reflexivity | left; now constructor].
    + destruct (advance_quiet (k (json_result N url)) s (Q _)) as [E Q'].
      rewrite E. split; [reflexivity | now left].
  - simpl. destruct (advance_quiet (k (fetch_result N u)) s (Q _)) as [E Q'].
    rewrite E. split; [reflexivity | now left].
Qed.

Lemma Forall_replace_nth (P : task doc store A -> Prop) (i : nat)
    (x : task doc store A) (l : list (task doc store A)) :
  P x -> Forall P l -> Forall P (replace_nth i x l).
Proof.
  intros Px. revert i. induction l as [|y r IH]; intros i F;
    [destruct i; constructor |].
  inversion F as [|? ? Py Pr]; subst.
  destruct i; simpl; constructor; auto.
Qed.

Lemma settle_calm (i : nat) (pool : list (task doc store A)) (s : store) :
  Forall (@calm doc store A) pool ->
  forallb is_settle (fst (settle N i pool s)) = true
  /\ Forall (@calm doc store A) (fst (snd (settle N i pool s))).
Proof.
  intros F. unfold settle.
  destruct (nth_error pool i) as [t |] eqn:E; [| now split].
  assert (C : calm t).
  { rewrite Forall_forall in F. apply F. eapply nth_error_In. exact E. }
  destruct (resume_calm t s C) as [S C']. simpl.
  split; [exact S | now apply Forall_replace_nth].
Qed.

(** While the functions of a [Promise.all] go on, requests are settled and
    none is issued. *)
Lemma run_pool_calm (order : list nat) (pool : list (task doc store A))
    (s : store) :
  Forall (@calm doc store A) pool ->
  forallb is_settle (fst (run_pool N order pool s)) = true.
Proof.
  revert pool s. induction order as [|i rest IH]; intros pool s F; [reflexivity |].
  simpl. destruct (settle_calm i pool s F) as [S F'].
  apply forallb_settle_app; [exact S | now apply IH].
Qed.

(** The calls of functions that issue one request each issue these
    requests, in the order of the calls, and leave each function suspended
    where it awaits the answer. *)
Lemma call_all_requests (ts : list (task doc store A)) (urls : list string)
    (s : store) :
  Forall2 (fun u t => one_request u t) urls ts ->
  call_all ts s = (map Fetch urls, (ts, s)).
Proof.
  intros F. induction F as [|u t urls ts [k [-> Q]] F IH]; [reflexivity |].
  simpl. rewrite IH. reflexivity.
Qed.

Lemma one_request_calm (urls : list string) (ts : list (task doc store A)) :
  Forall2 (fun u t => one_request u t) urls ts -> Forall (@calm doc store A) ts.
Proof.
  intros F. induction F as [|u t urls ts O F IH]; constructor; [| exact IH].
  right. now exists u.
Qed.

(** A function that awaits [Promise.all] of functions that issue one
    request each, and issues none afterwards: the requests are all issued
    before any is settled. *)
Lemma exec_all (B : Type) (ts : list (task doc store A)) (urls : list string)
    (k : list A -> main doc store A B) (orders : list (list nat)) (s : store) :
  Forall2 (fun u t => one_request u t) urls ts ->
  (forall rs o s', fst (exec N (k rs) o s') = []) ->
  exists rest,
    fst (exec N (All ts k) orders s) = (map Fetch urls ++ rest)%list
    /\ forallb is_settle rest = true.
Proof.
  intros F K. simpl. rewrite (call_all_requests ts urls s F). simpl.
  pose proof (run_pool_calm (hd [] orders) ts s (one_request_calm urls ts F)) as S.
  destruct (results (fst (snd (run_pool N (hd [] orders) ts s)))) as [rs |].
  - simpl. rewrite K, app_nil_r. eexists. split; [reflexivity | exact S].
  - simpl. eexists. split; [reflexivity | exact S].
Qed.

End Tasks.

(** The requests in flight and their peak, for a trace that issues [urls]
    after [before], and then settles requests only. *)
Lemma burst_peak (before : list net) (urls : list string) (rest : list net) :
  in_flight before = [] ->
  forallb is_settle rest = true ->
  in_flight (before ++ map Fetch urls) = urls
  /\ peak (before ++ map Fetch urls ++ rest)
     = Nat.max (peak before) (length urls).
Proof.
  intros B S. unfold in_flight, peak in *.
  rewrite fold_left_app, B, fetches_pile_up. split; [reflexivity |].
  rewrite peak_from_app, B, peak_from_app, fetches_peak, fetches_pile_up.
  rewrite (settles_peak _ _ S). simpl. lia.
Qed.

End AsyncFacts.

(** ** The requests of the feed and of the admin page *)

Module ConcurrencyFacts.
Import Text Async AsyncFacts Examples.

Lemma fetchPal_one_request (palUrl : string) :
  one_request (Palgram.jsonUrl palUrl) (Palgram.fetchPal palUrl).
Proof.
  unfold Palgram.fetchPal. eexists. split; [reflexivity |].
  intros [[|] |]; [| constructor | constructor].
  constructor. intros [d |]; constructor.
Qed.

Lemma fetchPal_all (pals : list Palgram.pal) :
  Forall2 (fun u t => one_request u t)
    (map (fun p => Palgram.jsonUrl (Palgram.url p)) pals)
    (map (fun p => Palgram.fetchPal (Palgram.url p)) pals).
Proof.
  induction pals as [|p r IH]; simpl; constructor; [| exact IH].
  apply fetchPal_one_request.
Qed.

Lemma loaders_one_request :
  Forall2 (fun u t => one_request u t)
    ["data/photos.json"; "palgram/pals.json"]
    [AdminStart.loadPhotosJSON; AdminStart.loadPalsJSON].
Proof.
  constructor; [| constructor; [| constructor]].
  - unfold AdminStart.loadPhotosJSON. eexists. split; [reflexivity |].
    intros [[|] |]; [| repeat constructor | repeat constructor].
    constructor. intros [d |]; repeat constructor.
  - unfold AdminStart.loadPalsJSON. eexists. split; [reflexivity |].
    intros [[|] |]; [| repeat constructor | repeat constructor].
    constructor. intros [d |]; repeat constructor.
Qed.

Section Init.
Variable Date_ms : string -> option Z.
Variables (ownPhotos : list Lightbox.photo) (ownProfile : Lightbox.profile).

(** [init] fetches [pals.json], and then awaits [Promise.all] of the calls
    of [fetchPal] for the pals it has found. *)
Lemma init_trace (N : network Palgram.remote) (orders : list (list nat)) :
  fst (exec N (Palgram.init Date_ms ownPhotos ownProfile) orders tt)
  = Fetch Palgram.PALS_URL :: Settle Palgram.PALS_URL
    :: fst (exec N
              (All (map (fun p => Palgram.fetchPal (Palgram.url p))
                      (Palgram.pals_found N))
                 (fun palResults =>
                    Finish (Palgram.merged Date_ms
                              (Palgram.own ownPhotos ownProfile) palResults)))
              orders tt).
Proof.
  unfold Palgram.init, Palgram.pals_found, Palgram.answer.
  cbn [exec fst]. unfold fetch_result.
  destruct (N Palgram.PALS_URL) as [[[|] b] |] eqn:E; cbn [ok body exec];
    [| reflexivity | reflexivity].
  unfold json_result. rewrite E. cbn [body]. now destruct b.
Qed.
End Init.

(** C7, as amended. Two functions of the pages issue concurrent work.
    [PalgramModule.init], once it has fetched [palgram/pals.json], calls
    [fetchPal] for every pal it has found before it awaits any of them
    ([Promise.all]): whatever the network answers and in whatever order, the
    requests of the pals are all issued before any of them is settled, one
    request per pal is in flight when [init] is suspended, no request is
    issued later, and the number of requests in flight at once reaches the
    number of pals.  The admin page calls [loadPhotosJSON] and
    [loadPalsJSON] before it awaits either ([Promise.all]): their two
    requests are in flight at once. *)
Theorem requests_in_flight (Date_ms : string -> option Z)
    (ownPhotos : list Lightbox.photo) (ownProfile : Lightbox.profile)
    (N : network Palgram.remote) (orders : list (list nat))
    (M : network AdminPage.document) (orders' : list (list nat))
    (v : AdminStart.variables) :
  let pals := Palgram.pals_found N in
  let urls := map (fun p => Palgram.jsonUrl (Palgram.url p)) pals in
  let trace := fst (exec N (Palgram.init Date_ms ownPhotos ownProfile) orders tt) in
  let trace' := fst (exec M AdminStart.start orders' v) in
  (exists rest,
     trace = ([Fetch Palgram.PALS_URL; Settle Palgram.PALS_URL]
              ++ map Fetch urls ++ rest)%list
     /\ forallb is_settle rest = true
     /\ in_flight ([Fetch Palgram.PALS_URL; Settle Palgram.PALS_URL]
                   ++ map Fetch urls) = urls
     /\ peak trace = Nat.max 1 (length pals))
  /\ (exists rest,
        trace' = ([Fetch "data/photos.json"; Fetch "palgram/pals.json"]
                  ++ rest)%list
        /\ forallb is_settle rest = true
        /\ in_flight [Fetch "data/photos.json"; Fetch "palgram/pals.json"]
           = ["data/photos.json"; "palgram/pals.json"]
        /\ peak trace' = 2).
Proof.
  cbv zeta. split.
  - rewrite init_trace.
    destruct (exec_all Palgram.remote unit N (list Lightbox.photo)
                (list Lightbox.photo)
                (map (fun p => Palgram.fetchPal (Palgram.url p))
                   (Palgram.pals_found N))
                (map (fun p => Palgram.jsonUrl (Palgram.url p))
                   (Palgram.pals_found N))
                (fun palResults =>
                   Finish (Palgram.merged Date_ms
                             (Palgram.own ownPhotos ownProfile) palResults))
                orders tt (fetchPal_all _)) as [rest [E S]];
      [reflexivity |].
    rewrite E. exists rest. split; [reflexivity |]. split; [exact S |].
    destruct (burst_peak [Fetch Palgram.PALS_URL; Settle Palgram.PALS_URL]
                (map (fun p => Palgram.jsonUrl (Palgram.url p))
                   (Palgram.pals_found N)) rest eq_refl S) as [I P].
    split; [exact I |].
    change (Fetch Palgram.PALS_URL :: Settle Palgram.PALS_URL
            :: (map Fetch (map (fun p => Palgram.jsonUrl (Palgram.url p))
                             (Palgram.pals_found N)) ++ rest))%list
      with ([Fetch Palgram.PALS_URL; Settle Palgram.PALS_URL]
            ++ map Fetch (map (fun p => Palgram.jsonUrl (Palgram.url p))
                            (Palgram.pals_found N)) ++ rest)%list.
    rewrite P, length_map. reflexivity.
  - destruct (exec_all AdminPage.document AdminStart.variables M unit unit
                [AdminStart.loadPhotosJSON; AdminStart.loadPalsJSON]
                ["data/photos.json"; "palgram/pals.json"]
                (fun _ => Finish tt) orders' v loaders_one_request)
      as [rest [E S]]; [reflexivity |].
    unfold AdminStart.start. rewrite E. exists rest.
    split; [reflexivity |]. split; [exact S |]. split; [reflexivity |].
    destruct (burst_peak [] ["data/photos.json"; "palgram/pals.json"] rest
                eq_refl S) as [_ P].
    exact P.
Qed.

(** C7, the claim as stated fails: with two pals, of which the second
    cannot be reached, the requests of both are in flight at once; and so
    are the two requests of the admin page. *)
Lemma two_pals_two_requests :
  let ann := {| Palgram.url := "https://ann.example/mygram" |} in
  let bob := {| Palgram.url := "https://bob.example/" |} in
  let N := fun u =>
    if String.eqb u Palgram.PALS_URL
    then Some {| ok := true;
                 body := Some {| Palgram.remote_pals := [ann; bob];
                                 Palgram.remote_profile := nobody;
                                 Palgram.remote_photos := [] |} |}
    else if String.eqb u "https://ann.example/mygram/data/photos.json"
    then Some {| ok := true;
                 body := Some {| Palgram.remote_pals := [];
                                 Palgram.remote_profile := nobody;
                                 Palgram.remote_photos := [] |} |}
    else None in
  let trace := fst (exec N (Palgram.init (fun _ => None) three nobody)
                      [[1; 0; 0]] tt) in
  trace = [Fetch "palgram/pals.json"; Settle "palgram/pals.json";
           Fetch "https://ann.example/mygram/data/photos.json";
           Fetch "https://bob.example/data/photos.json";
           Settle "https://bob.example/data/photos.json";
           Settle "https://ann.example/mygram/data/photos.json"]
  /\ in_flight (firstn 4 trace)
     = ["https://ann.example/mygram/data/photos.json";
        "https://bob.example/data/photos.json"]
  /\ peak trace = 2
  /\ peak (fst (exec (fun _ => None) AdminStart.start [[1; 0]]
                  AdminStart.declared)) = 2.
Proof. vm_compute. repeat split. Qed.

End ConcurrencyFacts.

